(** * MetaRec UI: OpenAPI schema resolution, operation catalog, input-schema
    synthesis, the debug HTTP wrapper and recommendation de-duplication.

    A shallow embedding of the pure logic of
    - the debug page component: [resolveRef], [resolveSchema],
      [buildApiOperations], [buildParameterSchema],
      [buildApiInputCompositeSchema];
    - [utils/debugApi.ts]: [debugFetch];
    - [ui/Chat.tsx]: [saveRecommendationResult].

    JavaScript values that flow through this code are JSON documents
    (the OpenAPI document is the result of [JSON.parse]); they are modelled by
    the inductive type [json].  Objects are association lists listed in their
    property enumeration order ([Object.keys] order); a new property is
    appended, which is the order JavaScript keeps for keys that are not
    array indices.  Strings are sequences of character codes.  *)

From Stdlib Require Import ZArith Ascii String List Lia DecimalString.
From Stdlib Require Import Sorting.Sorted Sorting.Permutation OrderedTypeEx.
From stdpp Require Import base decidable option list gmap sets strings.

Set Warnings "-register-all,-clear-no-such-hyp".
Local Open Scope string_scope.
Local Open Scope list_scope.
Local Open Scope Z_scope.

(** ** JSON values as JavaScript sees them *)

Module Js.

(** Numbers only matter through truthiness and printing here; a JSON number
    is represented by an integer.  An object of a document lists its
    properties in the order in which JavaScript enumerates them; an object
    that the code builds lists them in the order of their insertion, which
    is that order too except for keys that are array indices (JavaScript
    enumerates those first). *)
Inductive json : Type :=
| JNull
| JBool (b : bool)
| JNum (n : Z)
| JStr (s : string)
| JArr (items : list json)
| JObj (fields : list (string * json)).

Abbreviation obj := (list (string * json)).

(** [!!v] *)
Definition truthy (v : json) : bool :=
  match v with
  | JNull => false
  | JBool b => b
  | JNum n => negb (n =? 0)
  | JStr s => negb (String.eqb s EmptyString)
  | JArr _ | JObj _ => true
  end.

(** [v && typeof v === 'object'] *)
Definition is_object (v : json) : bool :=
  match v with
  | JArr _ | JObj _ => true
  | _ => false
  end.

(** Own-property lookup in a plain object. *)
Fixpoint olookup (k : string) (o : obj) : option json :=
  match o with
  | [] => None
  | (k', v) :: t => if String.eqb k' k then Some v else olookup k t
  end.

(** [o[k] = v]: overwrite in place, or append a new property. *)
Fixpoint oset (k : string) (v : json) (o : obj) : obj :=
  match o with
  | [] => [(k, v)]
  | (k', v') :: t =>
      if String.eqb k' k then (k', v) :: t else (k', v') :: oset k v t
  end.

(** [{...target, ...source}] *)
Definition assign (target source : obj) : obj :=
  fold_left (fun acc kv => oset (fst kv) (snd kv) acc) source target.

(** [String(i)] for an array index and for an integer. *)
Definition index_key (i : nat) : string :=
  NilEmpty.string_of_uint (Nat.to_uint i).

Definition is_digit (c : ascii) : bool :=
  (48 <=? nat_of_ascii c)%nat && (nat_of_ascii c <=? 57)%nat.

Definition show_Z (n : Z) : string :=
  NilZero.string_of_int (Z.to_int n).

(** Index keys ["0"], ["1"], ... of an array-like value. *)
Definition indexed {A : Type} (f : A -> json) (l : list A) : obj :=
  imap (fun i x => (index_key i, f x)) l.

Definition chars (s : string) : list ascii := list_ascii_of_string s.
Definition char_str (c : ascii) : json := JStr (String c EmptyString).

(** [Object.entries(v)], which is also what the spread [{...v}] copies. *)
Definition entries (v : json) : obj :=
  match v with
  | JObj o => o
  | JArr l => indexed (fun x => x) l
  | JStr s => indexed char_str (chars s)
  | _ => []
  end.

(** The own property [k] of [v], with [None] when [v] has none: the data
    properties of an object, the indices and the [length] of an array or a
    string.  A member access [v?.[k]] that finds no own property goes on to
    the prototype chain: see [inherits] below. *)
Definition get (v : json) (k : string) : option json :=
  match v with
  | JObj o => olookup k o
  | JArr l =>
      if String.eqb k "length" then Some (JNum (Z.of_nat (length l)))
      else olookup k (indexed (fun x => x) l)
  | JStr s =>
      if String.eqb k "length" then Some (JNum (Z.of_nat (length (chars s))))
      else olookup k (indexed char_str (chars s))
  | _ => None
  end.

(** [v || d] *)
Definition or_else (v : option json) (d : json) : json :=
  match v with
  | Some x => if truthy x then x else d
  | None => d
  end.

(** Truthiness of a possibly [undefined] value. *)
Definition otruthy (v : option json) : bool :=
  match v with
  | Some x => truthy x
  | None => false
  end.

(** [s.split(sep)] for a one-character separator. *)
Fixpoint split_on (sep : ascii) (s : string) : list string :=
  match s with
  | EmptyString => [EmptyString]
  | String c s' =>
      if Ascii.eqb c sep then EmptyString :: split_on sep s'
      else match split_on sep s' with
           | [] => [String c EmptyString]
           | p :: ps => String c p :: ps
           end
  end.

(** [s.slice(n)] *)
Fixpoint slice_from (n : nat) (s : string) : string :=
  match n, s with
  | O, _ => s
  | S n', String _ s' => slice_from n' s'
  | S _, EmptyString => EmptyString
  end.

(** [arr.join(sep)] on strings *)
Fixpoint join (sep : string) (l : list string) : string :=
  match l with
  | [] => EmptyString
  | [x] => x
  | x :: t => x +:+ sep +:+ join sep t
  end.

(** Comparison of strings by character codes, the default order of
    [Array.prototype.sort()]. *)
Definition code_compare (a b : string) : Z :=
  match String.compare a b with
  | Lt => -1
  | Eq => 0
  | Gt => 1
  end.

(** [String(v)] *)
Fixpoint to_string (v : json) : string :=
  match v with
  | JNull => "null"
  | JBool true => "true"
  | JBool false => "false"
  | JNum n => show_Z n
  | JStr s => s
  | JArr l =>
      join "," (map (fun x => match x with JNull => EmptyString | _ => to_string x end) l)
  | JObj _ => "[object Object]"
  end.

(** Number of nodes of a document. *)
Fixpoint nodes (v : json) : nat :=
  match v with
  | JArr l => S (list_sum (map nodes l))
  | JObj o => S (list_sum (map (fun kv => nodes (snd kv)) o))
  | _ => 1%nat
  end.

(** Every string stored under a [$ref] key anywhere in a document. *)
Fixpoint refs (v : json) : gset string :=
  match v with
  | JArr l => ⋃ (map refs l)
  | JObj o =>
      ⋃ (map (fun kv =>
                (if String.eqb (fst kv) "$ref"
                 then match snd kv with JStr r => {[ r ]} | _ => ∅ end
                 else ∅) ∪ refs (snd kv)) o)
  | _ => ∅
  end.

(** *** Members that are not own properties

    A property read [v[k]] with a key [k] that is data, the test [k in v]
    and an assignment [o[k] = x] follow the prototype chain.  A JSON value
    has the standard prototype of its kind. *)

(** The names every object inherits from [Object.prototype] (ECMAScript
    with its Annex B, as browsers and Node.js have it). *)
Definition object_prototype : list string :=
  ["constructor"; "__defineGetter__"; "__defineSetter__"; "hasOwnProperty";
   "__lookupGetter__"; "__lookupSetter__"; "isPrototypeOf";
   "propertyIsEnumerable"; "toString"; "valueOf"; "__proto__";
   "toLocaleString"].

(** The string-named members of [Array.prototype], [String.prototype],
    [Number.prototype] and [Boolean.prototype] (ECMAScript 2024). *)
Definition array_prototype : list string :=
  ["constructor"; "at"; "concat"; "copyWithin"; "entries"; "every"; "fill";
   "filter"; "find"; "findIndex"; "findLast"; "findLastIndex"; "flat";
   "flatMap"; "forEach"; "includes"; "indexOf"; "join"; "keys";
   "lastIndexOf"; "map"; "pop"; "push"; "reduce"; "reduceRight"; "reverse";
   "shift"; "slice"; "some"; "sort"; "splice"; "toLocaleString";
   "toReversed"; "toSorted"; "toSpliced"; "toString"; "unshift"; "values";
   "with"].

Definition string_prototype : list string :=
  ["constructor"; "anchor"; "at"; "big"; "blink"; "bold"; "charAt";
   "charCodeAt"; "codePointAt"; "concat"; "endsWith"; "fixed"; "fontcolor";
   "fontsize"; "includes"; "indexOf"; "isWellFormed"; "italics";
   "lastIndexOf"; "link"; "localeCompare"; "match"; "matchAll"; "normalize";
   "padEnd"; "padStart"; "repeat"; "replace"; "replaceAll"; "search";
   "slice"; "small"; "split"; "startsWith"; "strike"; "sub"; "substr";
   "substring"; "sup"; "toLocaleLowerCase"; "toLocaleUpperCase";
   "toLowerCase"; "toString"; "toUpperCase"; "toWellFormed"; "trim";
   "trimEnd"; "trimLeft"; "trimRight"; "trimStart"; "valueOf"].

Definition number_prototype : list string :=
  ["constructor"; "toExponential"; "toFixed"; "toLocaleString";
   "toPrecision"; "toString"; "valueOf"].

Definition boolean_prototype : list string :=
  ["constructor"; "toString"; "valueOf"].

Definition among (names : list string) (k : string) : bool :=
  existsb (String.eqb k) names.

(** [k] names a member that [v] inherits; it is consulted where [get v k]
    finds no own property.  [null] has no members. *)
Definition inherits (v : json) (k : string) : bool :=
  match v with
  | JNull => false
  | JBool _ => among boolean_prototype k || among object_prototype k
  | JNum _ => among number_prototype k || among object_prototype k
  | JStr _ => among string_prototype k || among object_prototype k
  | JArr _ => among array_prototype k || among object_prototype k
  | JObj _ => among object_prototype k
  end.

(** [k in v] for an object or an array [v]. *)
Definition has_member (v : json) (k : string) : bool :=
  match get v k with
  | Some _ => true
  | None => inherits v k
  end.

(** [o[k] = x] for a key [k] that is data, on an object [o] that the code
    created as [{}] and on which [__proto__] has not been assigned before (a
    loop over [Object.entries], which gives every key once): [__proto__]
    names the accessor inherited from [Object.prototype], whose setter
    changes the prototype (or does nothing, for a value that is neither an
    object nor [null]) and adds no own property; every other key is set as
    [oset] does. *)
Definition pset (k : string) (x : json) (o : obj) : obj :=
  if String.eqb k "__proto__" then o else oset k x o.

(** An object that the code creates as [{}] and fills by assignments
    [o[k] = x] in which a key may come back: its own properties, and the
    value that has replaced its prototype once an assignment to [__proto__]
    has reached the inherited setter.  The values assigned are values of the
    document or objects made by a literal or a spread, whose own prototype
    is the standard one. *)
Record filled : Type := { own : obj; proto : option json }.

Definition empty_object : filled := {| own := []; proto := None |}.

(** An assignment to [__proto__] finds a data property of that name before
    it reaches the accessor of [Object.prototype]: the object has it as an
    own property, or the object that replaced its prototype has, or the
    prototype was replaced by [null] and there is no accessor any more. *)
Definition shadows_proto (o : filled) : bool :=
  among (map fst (own o)) "__proto__"
  || match proto o with
     | Some JNull => true
     | Some (JObj y) => among (map fst y) "__proto__"
     | _ => false
     end.

(** [o[k] = x]: an own property is written or added, except that
    [__proto__], as long as it names the inherited accessor, replaces the
    prototype by an object or by [null] and ignores any other value. *)
Definition put (k : string) (x : json) (o : filled) : filled :=
  if negb (String.eqb k "__proto__") || shadows_proto o
  then {| own := oset k x (own o); proto := proto o |}
  else match x with
       | JNull | JArr _ | JObj _ => {| own := own o; proto := Some x |}
       | _ => o
       end.

(** [for (const [k, x] of bindings) o[k] = x] *)
Definition fill (bindings : obj) (o : filled) : filled :=
  fold_left (fun acc kv => put (fst kv) (snd kv) acc) bindings o.

(** [String(v)] and the conversion in a template literal do not throw:
    an object converts through the inherited [toString] unless it has an own
    [toString] property, which in a JSON value is never callable (the
    inherited [valueOf] returns the object itself, so the conversion ends in
    a [TypeError]); an array converts its items. *)
Fixpoint stringable (v : json) : bool :=
  match v with
  | JObj o => negb (among (map fst o) "toString")
  | JArr l => forallb stringable l
  | _ => true
  end.

(** The values whose numbers [to_string] prints as [String] does: the
    plain decimal text of an integer up to [Number.MAX_SAFE_INTEGER] in
    magnitude (beyond it a [number] no longer holds every integer, and from
    [1e21] on its text has an exponent).  An object prints as
    ['[object Object]'] whatever it holds. *)
Fixpoint safe_numbers (v : json) : bool :=
  match v with
  | JNum n => Z.abs n <=? 9007199254740991
  | JArr l => forallb safe_numbers l
  | _ => true
  end.

(** [String(v)]; [None] is the [TypeError]. *)
Definition ToString (v : json) : option string :=
  if stringable v then Some (to_string v) else None.

End Js.

(** ** The OpenAPI schema resolver of the debug page *)

Module Resolver.
Import Js.

(** The visited-set [seen] is a JavaScript [Set<string>] that [resolveSchema]
    mutates; the model threads it: a call returns the value together with
    the set as the call left it. *)
Definition outcome : Type := json * gset string.

(** What a pointer reaches: a value of the document ([null] also where
    the code returns [null] for a step that is [undefined]), or, when a step
    that is not an own property names a member [name] that the value [owner]
    reached so far inherits, what indexing that built-in member by the
    remaining parts [rest] gives.  With [rest = []] that is the member
    itself: a built-in function, or for [__proto__] the prototype object;
    it is neither [undefined] nor [null].  The built-in objects of the host
    are not modelled, so for other [rest] the value is left unnamed. *)
Inductive pointed : Type :=
| Value (v : json)
| Builtin (owner : json) (name : string) (rest : list string).

(** The loop of [resolveRef]: [current = current?.[part]], giving up with
    [null] as soon as a step is [undefined]. *)
Fixpoint walk (parts : list string) (current : json) : pointed :=
  match parts with
  | [] => Value current
  | part :: rest =>
      match get current part with
      | Some v => walk rest v
      | None =>
          if inherits current part then Builtin current part rest
          else Value JNull
      end
  end.

Definition resolveRef (ref : string) (spec : json) : pointed :=
  if String.prefix "#/" ref
  then walk (split_on "/" (slice_from 2 ref)) spec
  else Value JNull.

(** The target of a reference as [resolveSchema] and the spread
    [{...(resolved || {}), ...rest}] see it.  A built-in function is returned
    by [resolveSchema] as it is and has no enumerable own property; a
    prototype object has no [$ref], [allOf], [items] or [properties] and no
    enumerable own property either: both contribute what [{}] contributes.
    A pointer that goes on into a built-in is not followed (it mostly ends
    in [undefined], so in [null]; where it would end in a string or in a
    throwing accessor the model does not say so). *)
Definition target_schema (p : pointed) : json :=
  match p with
  | Value v => v
  | Builtin _ _ _ => JObj []
  end.

(** [schema.$ref && typeof schema.$ref === 'string'] *)
Definition ref_of (schema : json) : option string :=
  match get schema "$ref" with
  | Some (JStr r) => if truthy (JStr r) then Some r else None
  | _ => None
  end.

(** [const { $ref: _, ...rest } = schema] *)
Definition without_ref (schema : json) : obj :=
  filter (fun kv => fst kv ≠ "$ref") (entries schema).

(** [v || {}] *)
Definition or_empty (v : json) : json := if truthy v then v else JObj [].

Definition generic_object : json := JObj [("type", JStr "object")].

Section Loops.
Variable rec : json -> gset string -> option outcome.

(** [schema.allOf.reduce((acc, part) => ..., {})]; every member is
    resolved with the very set object the caller passed in. *)
Fixpoint reduce_allOf (parts : list json) (acc : obj) (seen : gset string)
  : option outcome :=
  match parts with
  | [] => Some (JObj acc, seen)
  | part :: rest =>
      match rec part seen with
      | None => None
      | Some (resolved, seen') =>
          reduce_allOf rest
            (assign (entries (or_empty (JObj acc))) (entries (or_empty resolved)))
            seen'
      end
  end.

(** [for (const [k, v] of Object.entries(next.properties))
      props[k] = resolveSchema(v, spec, new Set(seen))]:
    the copy is handed to the call and dropped afterwards. *)
Fixpoint resolve_props (ps : obj) (props : obj) (seen : gset string)
  : option obj :=
  match ps with
  | [] => Some props
  | (k, v) :: rest =>
      match rec v seen with
      | None => None
      | Some (r, _) => resolve_props rest (pset k r props) seen
      end
  end.
(** [if (next.items) next.items = resolveSchema(next.items, spec, seen)] *)
Definition resolve_items (next : obj) (seen : gset string)
  : option (obj * gset string) :=
  match olookup "items" next with
  | Some it =>
      if truthy it then
        match rec it seen with
        | None => None
        | Some (it', seen1) => Some (oset "items" it' next, seen1)
        end
      else Some (next, seen)
  | None => Some (next, seen)
  end.

(** [if (next.properties && typeof next.properties === 'object') { ... }] *)
Definition resolve_properties (next : obj) (seen : gset string) : option obj :=
  match olookup "properties" next with
  | Some ps =>
      if truthy ps && is_object ps then
        match resolve_props (entries ps) [] seen with
        | None => None
        | Some props => Some (oset "properties" (JObj props) next)
        end
      else Some next
  | None => Some next
  end.

(** The tail of [resolveSchema]: the copy [next = { ...schema }], its
    [items], then its [properties]. *)
Definition resolve_plain (schema : json) (seen : gset string) : option outcome :=
  match resolve_items (entries schema) seen with
  | None => None
  | Some (next1, seen1) =>
      match resolve_properties next1 seen1 with
      | None => None
      | Some next2 => Some (JObj next2, seen1)
      end
  end.
End Loops.

(** One resolver is at least as defined as another. *)
Definition below (rec1 rec2 : json -> gset string -> option outcome) : Prop :=
  forall x s r, rec1 x s = Some r -> rec2 x s = Some r.

(** [Array.isArray(schema.allOf)] *)
Definition allOf_parts (schema : json) : option (list json) :=
  match get schema "allOf" with
  | Some (JArr parts) => Some parts
  | _ => None
  end.

(** The body of [resolveSchema(schema, spec, seen)], with [rec] standing
    for the recursive calls. *)
Definition resolve_body (spec : json) (rec : json -> gset string -> option outcome)
    (schema : json) (seen : gset string) : option outcome :=
  if negb (truthy schema && is_object schema) then Some (schema, seen)
  else
    match ref_of schema with
    | Some r =>
        if decide (r ∈ seen) then Some (generic_object, seen)
        else
          match rec (target_schema (resolveRef r spec)) ({[ r ]} ∪ seen) with
          | None => None
          | Some (resolved, seen') =>
              Some (JObj (assign (entries (or_empty resolved))
                            (without_ref schema)), seen')
          end
    | None =>
        match allOf_parts schema with
        | Some parts => reduce_allOf rec parts [] seen
        | None => resolve_plain rec schema seen
        end
    end.

(** [resolveSchema(schema, spec, seen)].  The recursion of the source is not
    structural (a [$ref] jumps back into the document), so the model carries
    a bound [fuel] on the recursion depth and answers [None] when it is
    exhausted; [resolveSchema_total] shows that an explicit amount of fuel
    always suffices. *)
Fixpoint resolveSchema (spec : json) (fuel : nat) (schema : json)
    (seen : gset string) {struct fuel} : option outcome :=
  match fuel with
  | O => None
  | S fuel' => resolve_body spec (resolveSchema spec fuel') schema seen
  end.

End Resolver.

Module Fresh.
Import Js Resolver.

(** A recursion depth that is always enough (see [resolveSchema_total]):
    every [$ref] step visits a reference of the document that was not
    visited before, and between two such steps the recursion descends
    into the schema at hand. *)
Definition enough_fuel (spec schema : json) (seen : gset string) : nat :=
  S (size ((refs schema ∪ refs spec) ∖ seen) * (nodes spec + 1) + nodes schema).

(** A call with enough fuel: its value and the visited set it leaves. *)
Definition resolveSchema_in (spec schema : json) (seen : gset string) : outcome :=
  match resolveSchema spec (enough_fuel spec schema seen) schema seen with
  | Some o => o
  | None => (JNull, seen)
  end.

(** [resolveSchema(schema, spec)], the call with the default argument
    [seen = new Set()], as every caller in the source writes it. *)
Definition resolveSchema_fresh (schema spec : json) : json :=
  fst (resolveSchema_in spec schema ∅).

(** The members of an [allOf] resolved one after the other, each on the
    visited set as the previous one left it. *)
Fixpoint resolve_members (spec : json) (parts : list json) (seen : gset string)
  : list json * gset string :=
  match parts with
  | [] => ([], seen)
  | part :: rest =>
      let '(resolved, seen1) := resolveSchema_in spec part seen in
      let '(more, seen2) := resolve_members spec rest seen1 in
      (resolved :: more, seen2)
  end.







(** The model follows a pointer to its end unless the pointer goes on into
    a built-in (see [target_schema]). *)
Definition followed (p : pointed) : bool :=
  match p with
  | Builtin _ _ (_ :: _) => false
  | _ => true
  end.

(** Every [$ref] string of the schema and of the document is a pointer that
    ends in the document or at an inherited member itself: the schemas for
    which [resolveSchema_in] is what the code computes. *)
Definition pointers_followed (spec schema : json) : Prop :=
  set_Forall (fun r => followed (resolveRef r spec) = true)
    (refs schema ∪ refs spec).

(** The binding of [k] that a sequence of assignments leaves: the last. *)
Fixpoint olookup_last (k : string) (o : obj) : option json :=
  match o with
  | [] => None
  | (k', v) :: t =>
      match olookup_last k t with
      | Some x => Some x
      | None => if String.eqb k' k then Some v else None
      end
  end.

(** Sequential indexing as the specification words it: start at the
    document and index by each part in turn; [None] once a step is
    missing. *)
Definition index_path (parts : list string) (doc : json) : option json :=
  fold_left (fun current part =>
               match current with
               | Some c => get c part
               | None => None
               end) parts (Some doc).

End Fresh.

(** ** The operation catalog ([buildApiOperations]) *)

Module Catalog.
Import Js Resolver Fresh.

Record ApiOperationParam : Type := mkParam {
  p_name : string;
  p_in : string;
  p_required : bool;
  p_description : option json;
  p_schema : json
}.

Record ApiOperation : Type := mkOp {
  op_id : string;
  op_method : string;
  op_path : string;
  op_summary : json;
  op_description : option json;
  op_tags : list json;
  op_operationId : option json;
  op_parameters : list ApiOperationParam;
  op_requestBodySchema : json;
  op_requestBodyRequired : bool;
  op_requestContentType : option string;
  op_responses : json
}.

Definition upper_ascii (c : ascii) : ascii :=
  let n := nat_of_ascii c in
  if (97 <=? n)%nat && (n <=? 122)%nat then ascii_of_nat (n - 32) else c.

(** [s.toUpperCase()] on ASCII text *)
Fixpoint toUpperCase (s : string) : string :=
  match s with
  | EmptyString => EmptyString
  | String c s' => String (upper_ascii c) (toUpperCase s')
  end.

Definition http_methods : list string :=
  ["get"; "post"; "put"; "patch"; "delete"; "options"; "head"].

(** [a?.b?.c] *)
Definition get2 (v : json) (k1 k2 : string) : option json :=
  match get v k1 with
  | Some x => get x k2
  | None => None
  end.

(** [p?.$ref ? resolveRef(p.$ref, spec) || p : p]; [None] stands for the
    [TypeError] of [ref.startsWith] when a truthy [$ref] is not a string.
    A built-in that the pointer reaches is truthy and is kept; a pointer
    that goes on into a built-in is not followed and counts as one that
    found nothing (see [target_schema]). *)
Definition deref_param (spec p : json) : option pointed :=
  match get p "$ref" with
  | Some ref =>
      if truthy ref then
        match ref with
        | JStr r =>
            Some (match resolveRef r spec with
                  | Value v => Value (if truthy v then v else p)
                  | Builtin owner name [] => Builtin owner name []
                  | Builtin _ _ (_ :: _) => Value p
                  end)
        | _ => None
        end
      else Some (Value p)
  | None => Some (Value p)
  end.

(** The [name] property of the member [name] that [owner] inherits: a
    prototype object has none, a constructor is named after the kind of its
    instances, and a built-in method is named after its key, save for the
    two aliases of [String.prototype]. *)
Definition builtin_name (owner : json) (name : string) : string :=
  if String.eqb name "__proto__" then EmptyString
  else if String.eqb name "constructor" then
    match owner with
    | JObj _ => "Object"
    | JArr _ => "Array"
    | JStr _ => "String"
    | JNum _ => "Number"
    | JBool _ => "Boolean"
    | JNull => EmptyString
    end
  else if String.eqb name "trimLeft" then "trimStart"
  else if String.eqb name "trimRight" then "trimEnd"
  else name.

(** The object that the callback of [rawParams.map] returns; [None] is the
    [TypeError] of [String(...)] on a [name] or [in] that does not convert
    to text.  A built-in has a [name] and none of the other four fields. *)
Definition make_param (spec : json) (resolvedParam : pointed)
  : option ApiOperationParam :=
  match resolvedParam with
  | Value v =>
      match ToString (or_else (get v "name") (JStr EmptyString)),
            ToString (or_else (get v "in") (JStr "query")) with
      | Some name, Some pin =>
          Some {| p_name := name;
                  p_in := pin;
                  p_required := otruthy (get v "required");
                  p_description := get v "description";
                  p_schema :=
                    resolveSchema_fresh (or_else (get v "schema") (JObj [])) spec |}
      | _, _ => None
      end
  | Builtin owner name _ =>
      Some {| p_name := builtin_name owner name;
              p_in := "query";
              p_required := false;
              p_description := None;
              p_schema := resolveSchema_fresh (JObj []) spec |}
  end.

(** One turn of [rawParams.map(...)]. *)
Definition resolve_param (spec p : json) : option ApiOperationParam :=
  match deref_param spec p with
  | None => None
  | Some rp => make_param spec rp
  end.

(** [rawParams.map(...)] before the [filter]; one [TypeError] aborts all. *)
Fixpoint map_params (spec : json) (raw : list json) : option (list ApiOperationParam) :=
  match raw with
  | [] => Some []
  | p :: rest =>
      match resolve_param spec p with
      | None => None
      | Some q =>
          match map_params spec rest with
          | None => None
          | Some ps => Some (q :: ps)
          end
      end
  end.

(** [Array.isArray(v) ? v : []] *)
Definition array_or_nil (v : option json) : list json :=
  match v with
  | Some (JArr l) => l
  | _ => []
  end.

(** [content['application/json'] ? 'application/json'
      : (Object.keys(content)[0] || null)] *)
Definition choose_content_type (content : json) : option string :=
  if otruthy (get content "application/json") then Some "application/json"
  else match map fst (entries content) with
       | k :: _ => if truthy (JStr k) then Some k else None
       | [] => None
       end.

(** [requestContentType
      ? resolveSchema(content[requestContentType]?.schema || null, spec) : null] *)
Definition body_schema (spec content : json) (ct : option string) : json :=
  match ct with
  | Some t => resolveSchema_fresh (or_else (get2 content t "schema") JNull) spec
  | None => JNull
  end.

Definition request_content (op : json) : json :=
  or_else (get2 op "requestBody" "content") (JObj []).

Definition make_operation (spec : json) (method path : string) (op : json)
    (params : list ApiOperationParam) : ApiOperation :=
  let content := request_content op in
  let requestContentType := choose_content_type content in
  let ident := toUpperCase method +:+ " " +:+ path in
  {| op_id := ident;
     op_method := toUpperCase method;
     op_path := path;
     op_summary := or_else (get op "summary") (or_else (get op "operationId") (JStr ident));
     op_description := get op "description";
     op_tags := array_or_nil (get op "tags");
     op_operationId := get op "operationId";
     op_parameters := params;
     op_requestBodySchema := body_schema spec content requestContentType;
     op_requestBodyRequired := otruthy (get2 op "requestBody" "required");
     op_requestContentType := requestContentType;
     op_responses := or_else (get op "responses") (JObj []) |}.

(** The inner loop over the seven verbs of one path item. *)
Fixpoint collect_methods (spec : json) (path : string) (pathItem : json)
    (pathLevelParams : list json) (methods : list string)
  : option (list ApiOperation) :=
  match methods with
  | [] => Some []
  | method :: rest =>
      match get pathItem method with
      | Some op =>
          if truthy op && is_object op then
            match map_params spec (pathLevelParams ++ array_or_nil (get op "parameters")) with
            | None => None
            | Some resolved =>
                let params := filter (fun p => truthy (JStr (p_name p)) = true) resolved in
                match collect_methods spec path pathItem pathLevelParams rest with
                | None => None
                | Some ops => Some (make_operation spec method path op params :: ops)
                end
            end
          else collect_methods spec path pathItem pathLevelParams rest
      | None => collect_methods spec path pathItem pathLevelParams rest
      end
  end.

(** The outer loop over [Object.entries(spec.paths)]. *)
Fixpoint collect_paths (spec : json) (paths : obj) : option (list ApiOperation) :=
  match paths with
  | [] => Some []
  | (path, pathItem) :: rest =>
      if truthy pathItem && is_object pathItem then
        match collect_methods spec path pathItem
                (array_or_nil (get pathItem "parameters")) http_methods with
        | None => None
        | Some ops =>
            match collect_paths spec rest with
            | None => None
            | Some more => Some (ops ++ more)
            end
        end
      else collect_paths spec rest
  end.

(** The array [out] as the two loops leave it, before it is sorted. *)
Definition collect_all (spec : json) : option (list ApiOperation) :=
  match get spec "paths" with
  | Some paths =>
      if truthy paths && is_object paths then collect_paths spec (entries paths)
      else Some []
  | None => Some []
  end.

Section Sorting.
Context {A : Type}.
Variable cmp : A -> A -> Z.

Fixpoint insert_sorted (x : A) (l : list A) : list A :=
  match l with
  | [] => [x]
  | y :: t => if cmp x y <=? 0 then x :: l else y :: insert_sorted x t
  end.

(** [arr.sort(cmp)].  ECMAScript makes the sort stable, and for a consistent
    comparator its result is the stably sorted arrangement; it is computed
    here by insertion from the right. *)
Definition sort_by (l : list A) : list A := foldr insert_sorted [] l.
End Sorting.

Section WithCollation.
(** [String.prototype.localeCompare]: the collation of the host, negative,
    zero or positive. *)
Variable localeCompare : string -> string -> Z.

(** [a.path.localeCompare(b.path) || a.method.localeCompare(b.method)] *)
Definition compare_ops (a b : ApiOperation) : Z :=
  let c := localeCompare (op_path a) (op_path b) in
  if c =? 0 then localeCompare (op_method a) (op_method b) else c.

(** The order the catalog is sorted by: path first, method on equal paths. *)
Definition ops_le (a b : ApiOperation) : Prop :=
  localeCompare (op_path a) (op_path b) < 0
  \/ (localeCompare (op_path a) (op_path b) = 0
      /\ localeCompare (op_method a) (op_method b) <= 0).

(** [buildApiOperations(spec)]; [None] is the [TypeError] escaping from
    [resolve_param]. *)
Definition buildApiOperations (spec : json) : option (list ApiOperation) :=
  match get spec "paths" with
  | Some paths =>
      if truthy paths && is_object paths then
        match collect_paths spec (entries paths) with
        | None => None
        | Some out => Some (sort_by compare_ops out)
        end
      else Some []
  | None => Some []
  end.
End WithCollation.

End Catalog.

(** ** The composite input schema ([buildApiInputCompositeSchema]) *)

Module Synth.
Import Js Catalog.

Definition string_schema : json := JObj [("type", JStr "string")].

(** [properties[p.name] = p.schema || { type: 'string' }] as a binding *)
Definition param_entry (p : ApiOperationParam) : string * json :=
  (p_name p, if truthy (p_schema p) then p_schema p else string_schema).

(** The loop of [buildParameterSchema], on the pair [properties], [required]. *)
Fixpoint param_loop (params : list ApiOperationParam) (properties : filled)
    (required : list string) : filled * list string :=
  match params with
  | [] => (properties, required)
  | p :: rest =>
      param_loop rest
        (put (p_name p) (if truthy (p_schema p) then p_schema p else string_schema)
           properties)
        (if p_required p then required ++ [p_name p] else required)
  end.

(** The value holds the own properties of [properties]. *)
Definition buildParameterSchema (params : list ApiOperationParam) : json :=
  let '(properties, required) := param_loop params empty_object [] in
  JObj [("type", JStr "object");
        ("properties", JObj (own properties));
        ("required", JArr (map JStr required))].

Definition buildApiInputCompositeSchema (op : option ApiOperation) : option json :=
  match op with
  | None => None
  | Some op =>
      let pathParams := filter (fun p => p_in p = "path") (op_parameters op) in
      let queryParams := filter (fun p => p_in p = "query") (op_parameters op) in
      let '(properties1, required1) :=
        match pathParams with
        | [] => ([], [])
        | _ => (oset "path_params" (buildParameterSchema pathParams) [], ["path_params"])
        end in
      let properties2 :=
        match queryParams with
        | [] => properties1
        | _ => oset "query_params" (buildParameterSchema queryParams) properties1
        end in
      let '(properties3, required3) :=
        if truthy (op_requestBodySchema op)
           && bool_decide (op_requestContentType op = Some "application/json")
        then (oset "body" (op_requestBodySchema op) properties2,
              if op_requestBodyRequired op then required1 ++ ["body"] else required1)
        else (properties2, required1) in
      Some (JObj [("type", JStr "object");
                  ("properties", JObj properties3);
                  ("required", JArr (map JStr required3))])
  end.

End Synth.

(** ** The debug HTTP wrapper ([debugFetch] in [utils/debugApi.ts]) *)

Module DebugApi.
Import Js.

(** What [fetch] hands back: the status line and the body text
    ([res.text()], or [''] when reading it failed). *)
Record Response : Type := mkResponse {
  status : Z;
  statusText : string;
  text : string
}.

(** [res.ok], which the Fetch standard defines as a status in 200..299. *)
Definition ok (res : Response) : bool :=
  (200 <=? status res) && (status res <=? 299).

(** How the promise returned by [debugFetch] settles: fulfilled with a
    value, rejected with [new Error(message)], or rejected with the
    [TypeError] of a template literal whose [detail] does not convert to
    text. *)
Inductive settled : Type :=
| Fulfilled (value : json)
| Rejected (message : string)
| RejectedTypeError.

Section WithParser.
(** [JSON.parse]; [None] is its [SyntaxError]. *)
Variable JSON_parse : string -> option json.

(** [try { return text ? JSON.parse(text) : {} } catch { return text }] *)
Definition parse (text : string) : json :=
  if truthy (JStr text) then
    match JSON_parse text with
    | Some v => v
    | None => JStr text
    end
  else JObj [].

(** [typeof parsed === 'string' ? parsed : parsed?.detail || text] *)
Definition detail_of (parsed : json) (text : string) : json :=
  match parsed with
  | JStr s => JStr s
  | _ => or_else (get parsed "detail") (JStr text)
  end.

Definition status_line (res : Response) : string :=
  "HTTP " +:+ show_Z (status res) +:+ " " +:+ statusText res.

(** The body of [debugFetch] once [fetch] has produced a response. *)
Definition debugFetch (res : Response) : settled :=
  if negb (ok res) then
    let parsed := parse (text res) in
    let detail := detail_of parsed (text res) in
    if truthy detail then
      match ToString detail with
      | Some d => Rejected (status_line res +:+ ": " +:+ d)
      | None => RejectedTypeError
      end
    else Rejected (status_line res)
  else Fulfilled (parse (text res)).
End WithParser.

End DebugApi.

(** ** Saving a recommendation result once ([ui/Chat.tsx]) *)

Module Chat.
Import Js.

(** The fields of a restaurant that the identifier reads; [r_id = None]
    is an absent [id]. *)
Record Restaurant : Type := mkRestaurant {
  r_id : option string;
  r_name : string
}.

(** [r.id || r.name] *)
Definition id_or_name (r : Restaurant) : string :=
  match r_id r with
  | Some i => if truthy (JStr i) then i else r_name r
  | None => r_name r
  end.

(** [result.restaurants.length > 0
      ? result.restaurants.map(r => r.id || r.name).sort().join(',')
      : `empty-${Date.now()}`] *)
Definition resultId (now : Z) (restaurants : list Restaurant) : string :=
  match restaurants with
  | [] => "empty-" +:+ show_Z now
  | _ => join "," (Catalog.sort_by code_compare (map id_or_name restaurants))
  end.

Definition textContent (restaurants : list Restaurant) : string :=
  match restaurants with
  | [] => "No recommendations found"
  | _ => "Found " +:+ index_key (length restaurants)
         +:+ " restaurant recommendations: "
         +:+ join ", " (map r_name restaurants)
  end.

(** The identifier the specification words: the sorted join, whatever the
    list. *)
Definition sorted_join (restaurants : list Restaurant) : string :=
  join "," (Catalog.sort_by code_compare (map id_or_name restaurants)).

(** The props the guard at the top of the callback looks at. *)
Record Props : Type := mkProps {
  conversationId : option string;
  userId : option string;
  has_onMessageAdded : bool
}.

Definition configured (p : Props) : bool :=
  match conversationId p, userId p with
  | Some c, Some u => truthy (JStr c) && truthy (JStr u) && has_onMessageAdded p
  | _, _ => false
  end.

(** [savedRecommendationIds.current] and what has reached the message
    store through [addMessage] (text and the result kept as metadata). *)
Record Store : Type := mkStore {
  savedRecommendationIds : gset string;
  messages : list (string * list Restaurant)
}.

(** The synchronous prefix of the callback, up to [await addMessage(...)]:
    [None] when it returns early, otherwise the identifier and the message
    it sends. *)
Definition begin_save (p : Props) (now : Z) (restaurants : list Restaurant)
    (st : Store) : option (string * (string * list Restaurant)) :=
  if negb (configured p) then None
  else
    let rid := resultId now restaurants in
    if decide (rid ∈ savedRecommendationIds st) then None
    else Some (rid, (textContent restaurants, restaurants)).

(** The continuation after the [await]: [added] tells whether [addMessage]
    resolved (the [catch] swallows a rejection). *)
Definition finish_save (added : bool) (pending : string * (string * list Restaurant))
    (st : Store) : Store :=
  if added then
    {| savedRecommendationIds := {[ fst pending ]} ∪ savedRecommendationIds st;
       messages := messages st ++ [snd pending] |}
  else st.

(** One call of [saveRecommendationResult] that runs to completion before
    anything else touches the store. *)
Definition saveRecommendationResult (p : Props) (now : Z) (added : bool)
    (restaurants : list Restaurant) (st : Store) : Store :=
  match begin_save p now restaurants st with
  | None => st
  | Some pending => finish_save added pending st
  end.

End Chat.

(** ** Sample documents *)

Module Samples.
Import Js Catalog.

Definition ref_to (r : string) : json := JObj [("$ref", JStr r)].

(** [A] references [B], and [B] references [A]. *)
Definition cycle_doc : json :=
  JObj [("A", ref_to "#/B"); ("B", ref_to "#/A")].

(** A node whose pointer leads nowhere, with one sibling key. *)
Definition dangling_node : json :=
  JObj [("$ref", JStr "#/missing"); ("title", JStr "T")].

(** A document whose schema [A] refers to itself and has a sibling key. *)
Definition self_ref_node : json :=
  JObj [("$ref", JStr "#/A"); ("title", JStr "T")].

Definition self_ref_doc : json := JObj [("A", self_ref_node)].


(** A document with one schema [A], and nodes that refer to it. *)
Definition one_schema_doc : json := JObj [("A", JObj [("x", JNum 1)])].


Definition allOf_same_ref : json :=
  JObj [("allOf", JArr [ref_to "#/A"; ref_to "#/A"])].



(** Paths [/b] with [get] and [/a] with [post] and [get]. *)
Definition sorting_doc : json :=
  JObj [("paths",
         JObj [("/b", JObj [("get", JObj [])]);
               ("/a", JObj [("post", JObj []); ("get", JObj [])])])].

(** One operation whose only request body is plain text. *)
Definition text_body_doc : json :=
  JObj [("paths",
         JObj [("/notes",
                JObj [("post",
                       JObj [("requestBody",
                              JObj [("content",
                                     JObj [("text/plain",
                                            JObj [("schema",
                                                   JObj [("type", JStr "string")])])])])])])])].

(** A content map that lists [application/json] with a [null] entry. *)
Definition null_json_content : json :=
  JObj [("text/plain", JObj []); ("application/json", JNull)].

(** One required path parameter [id], one optional query parameter [q],
    no request body. *)
Definition id_and_q : ApiOperation :=
  {| op_id := "GET /items/{id}";
     op_method := "GET";
     op_path := "/items/{id}";
     op_summary := JStr "GET /items/{id}";
     op_description := None;
     op_tags := [];
     op_operationId := None;
     op_parameters :=
       [ {| p_name := "id"; p_in := "path"; p_required := true;
            p_description := None; p_schema := JObj [("type", JStr "integer")] |};
         {| p_name := "q"; p_in := "query"; p_required := false;
            p_description := None; p_schema := JObj [("type", JStr "string")] |} ];
     op_requestBodySchema := JNull;
     op_requestBodyRequired := false;
     op_requestContentType := None;
     op_responses := JObj [] |}.

(** The double-quote character. *)
Definition dq : string := String (ascii_of_nat 34) EmptyString.

(** A rejected login: the body is JSON with a [detail] field. *)
Definition unauthorized : DebugApi.Response :=
  {| DebugApi.status := 401;
     DebugApi.statusText := "Unauthorized";
     DebugApi.text :=
       "{" +:+ dq +:+ "detail" +:+ dq +:+ ": " +:+ dq +:+ "bad token" +:+ dq +:+ "}" |}.

(** A failed request whose body is JSON with the [detail] field [0]. *)
Definition zero_detail : DebugApi.Response :=
  {| DebugApi.status := 400;
     DebugApi.statusText := "Bad Request";
     DebugApi.text := "{" +:+ dq +:+ "detail" +:+ dq +:+ ": 0}" |}.

(** A parser that knows the two bodies above. *)
Definition sample_parse (text : string) : option json :=
  if String.eqb text (DebugApi.text unauthorized)
  then Some (JObj [("detail", JStr "bad token")])
  else if String.eqb text (DebugApi.text zero_detail)
  then Some (JObj [("detail", JNum 0)])
  else None.

(** A comparison that, like the collation of the host on the letters [A]
    to [Z], looks at the letters without their case first, and among
    strings that differ in case only puts the lower-case form first. *)
Definition letters_compare (a b : string) : Z :=
  match String.compare (toUpperCase a) (toUpperCase b) with
  | Lt => -1
  | Gt => 1
  | Eq => code_compare b a
  end.

(** Paths [/B] and [/a], each with [get]. *)
Definition case_doc : json :=
  JObj [("paths",
         JObj [("/B", JObj [("get", JObj [])]);
               ("/a", JObj [("get", JObj [])])])].

(** A configured chat, an empty store, two results. *)
Definition chat_props : Chat.Props :=
  {| Chat.conversationId := Some "c1"; Chat.userId := Some "u1";
     Chat.has_onMessageAdded := true |}.

Definition empty_store : Chat.Store :=
  {| Chat.savedRecommendationIds := ∅; Chat.messages := [] |}.

Definition two_places : list Chat.Restaurant :=
  [ {| Chat.r_id := Some "r2"; Chat.r_name := "Beta" |};
    {| Chat.r_id := None; Chat.r_name := "Alpha" |} ].

Definition two_places_swapped : list Chat.Restaurant :=
  [ {| Chat.r_id := None; Chat.r_name := "Alpha" |};
    {| Chat.r_id := Some "r2"; Chat.r_name := "Beta" |} ].

End Samples.

(** ** More sample values *)

Module MoreSamples.
Import Js.

(** Stand-ins for the host functions of the playground. *)
Definition plain_encode (s : string) : option string := Some s.
Definition no_replace (path name value : string) : string := path.
Definition any_pattern (name : string) : bool := true.
Definition native_code (owner : json) (name : string) : string :=
  "function " +:+ name +:+ "() { [native code] }".

(** [{limit: 5, tags: ['a', null], q: '', skip: null}] *)
Definition query_sample : list (string * json) :=
  [("limit", JNum 5); ("tags", JArr [JStr "a"; JNull]);
   ("q", JStr EmptyString); ("skip", JNull)].

(** A [trim] that leaves its argument alone. *)
Definition no_trim (s : string) : string := s.

(** A document whose only path shares an [id] parameter with its [get]
    operation, which has a parameter [q] and one without a name. *)
Definition params_doc : json :=
  JObj [("paths", JObj [("/items/{id}",
     JObj [("parameters",
            JArr [JObj [("name", JStr "id"); ("in", JStr "path");
                        ("required", JBool true)]]);
           ("get",
            JObj [("parameters",
                   JArr [JObj [("name", JStr "q")];
                         JObj [("in", JStr "query")]])])])])].

End MoreSamples.

(** ** Structured value view of the debug page ([describeValue],
    [renderStructuredValue], [extractResponseContentType]) *)

Module View.
Import Js.

(** [describeValue(value)]; [None] is [undefined]. *)
Definition describeValue (value : option json) : string :=
  match value with
  | None => "undefined"
  | Some JNull => "null"
  | Some (JArr l) => "Array(" +:+ index_key (length l) +:+ ")"
  | Some (JObj o) => "Object(" +:+ index_key (length o) +:+ " keys)"
  | Some (JStr s) =>
      if (120 <? String.length s)%nat then String.substring 0 117 s +:+ "..." else s
  | Some v => to_string v
  end.

(** What [renderStructuredValue] builds: a leaf span with its text, or a
    tree of rows, each a key and the view of a value ([nested] is the extra
    class of an object below the top level). *)
Inductive view : Type :=
| Leaf (text : string)
| Tree (nested : bool) (rows : list (string * view)).

(** [value.slice(0, 8).map((item, idx) => row)] with [render] for the
    recursive call on an item. *)
Fixpoint item_rows (render : json -> view) (n idx : nat) (l : list json)
  : list (string * view) :=
  match n, l with
  | S n', x :: t =>
      ("[" +:+ index_key idx +:+ "]", render x) :: item_rows render n' (S idx) t
  | _, _ => []
  end.

(** The row shown after the eighth item. *)
Definition more_row (l : list json) : list (string * view) :=
  if (8 <? length l)%nat
  then [("...", Leaf (index_key (length l - 8) +:+ " more items"))]
  else [].

(** [renderStructuredValue(value, depth)] on a value that is not
    [undefined]. *)
Fixpoint renderStructuredValue (value : json) (depth : nat) {struct value} : view :=
  match value with
  | JArr l =>
      match l with
      | [] => Leaf "[]"
      | _ =>
          Tree false
            ((fix rows (n idx : nat) (l : list json) : list (string * view) :=
                match n, l with
                | S n', x :: t =>
                    ("[" +:+ index_key idx +:+ "]", renderStructuredValue x (S depth))
                      :: rows n' (S idx) t
                | _, _ => []
                end) 8%nat 0%nat l ++ more_row l)
      end
  | JObj o =>
      match o with
      | [] => Leaf "{}"
      | _ =>
          Tree (0 <? depth)%nat
            ((fix rows (o : obj) : list (string * view) :=
                match o with
                | [] => []
                | (key, val) :: t =>
                    (key,
                     if (2 <=? depth)%nat || negb (is_object val)
                     then Leaf (describeValue (Some val))
                     else renderStructuredValue val (S depth)) :: rows t
                end) o)
      end
  | v => Leaf (describeValue (Some v))
  end.

(** The view of one object entry at [depth]. *)
Definition entry_view (depth : nat) (val : json) : view :=
  if (2 <=? depth)%nat || negb (is_object val)
  then Leaf (describeValue (Some val))
  else renderStructuredValue val (S depth).

(** Number of tree levels of a view. *)
Fixpoint height (v : view) : nat :=
  match v with
  | Leaf _ => 0%nat
  | Tree _ rows => S (list_max (map (fun row => height (snd row)) rows))
  end.

(** A document without arrays. *)
Fixpoint array_free (v : json) : bool :=
  match v with
  | JArr _ => false
  | JObj o => forallb (fun kv => array_free (snd kv)) o
  | _ => true
  end.

Definition lower_ascii (c : ascii) : ascii :=
  let n := nat_of_ascii c in
  if ((65 <=? n) && (n <=? 90)
      || (192 <=? n) && (n <=? 222) && negb (n =? 215))%nat
  then ascii_of_nat (n + 32) else c.

(** [s.toLowerCase()] on character codes below 256 *)
Fixpoint toLowerCase (s : string) : string :=
  match s with
  | EmptyString => EmptyString
  | String c s' => String (lower_ascii c) (toLowerCase s')
  end.

(** The loop of [extractResponseContentType] over the header entries. *)
Fixpoint find_content_type (headers : obj) : option string :=
  match headers with
  | [] => None
  | (k, v) :: t =>
      if String.eqb (toLowerCase k) "content-type" then Some (to_string v)
      else find_content_type t
  end.

(** [extractResponseContentType(result)]; [None] is [null]. *)
Definition extractResponseContentType (result : json) : option string :=
  match get result "headers" with
  | Some headers =>
      if truthy headers && is_object headers
      then find_content_type (entries headers)
      else None
  | None => None
  end.

End View.

(** ** The API playground of the debug page: selection, default input and
    the request it sends *)

Module Playground.
Import Js Catalog.

(** [apiOperations.find(op => op.id === selectedApiOpId)
      || apiOperations[0] || null] *)
Definition selectedApiOp (apiOperations : list ApiOperation)
    (selectedApiOpId : string) : option ApiOperation :=
  match List.find (fun op => String.eqb (op_id op) selectedApiOpId) apiOperations with
  | Some op => Some op
  | None => head apiOperations
  end.

(** [p.schema?.example ?? (p.schema?.type === 'integer' ? 1 : 'test')] *)
Definition default_value (p : ApiOperationParam) : json :=
  match get (p_schema p) "example" with
  | Some JNull | None =>
      match get (p_schema p) "type" with
      | Some (JStr t) => if String.eqb t "integer" then JNum 1 else JStr "test"
      | _ => JStr "test"
      end
  | Some example => example
  end.

(** The loop filling [pathDefaults]. *)
Fixpoint path_defaults_loop (params : list ApiOperationParam) (defaults : filled)
    : filled :=
  match params with
  | [] => defaults
  | p :: rest => path_defaults_loop rest (put (p_name p) (default_value p) defaults)
  end.

(** The own properties of [pathDefaults], which [pretty] prints. *)
Definition pathDefaults (op : ApiOperation) : obj :=
  own (path_defaults_loop (filter (fun p => p_in p = "path") (op_parameters op))
         empty_object).

(** The loop filling [queryDefaults]: [if (p.required) queryDefaults[p.name] = ...]. *)
Fixpoint query_defaults_loop (params : list ApiOperationParam) (defaults : filled)
    : filled :=
  match params with
  | [] => defaults
  | p :: rest =>
      query_defaults_loop rest
        (if p_required p then put (p_name p) (default_value p) defaults else defaults)
  end.

(** The own properties of [queryDefaults]. *)
Definition queryDefaults (op : ApiOperation) : obj :=
  own (query_defaults_loop (filter (fun p => p_in p = "query") (op_parameters op))
         empty_object).

(** What [onRunApi] throws before it sends anything. *)
Inductive run_error : Type :=
| PathParamsNotObject      (* 'Path Params must be a JSON object' *)
| QueryParamsNotObject     (* 'Query Params must be a JSON object' *)
| MissingPathParam (name : string)  (* `Missing required path param: ${name}` *)
| InOperatorTypeError      (* [name in pathParams] on a value that is no object *)
| RegExpSyntaxError        (* [new RegExp(...)] on a name that makes no pattern *)
| StringTypeError          (* [String(v)] on a value that does not convert *)
| URIError.                (* [encodeURIComponent] on a lone surrogate *)

(** A [URLSearchParams] list. *)
Abbreviation search_params := (list (string * string)).

(** [query.set(k, v)]: the first pair named [k] takes the value and the
    other pairs named [k] go; without such a pair, [append]. *)
Fixpoint params_set (k v : string) (query : search_params) : search_params :=
  match query with
  | [] => [(k, v)]
  | (k', v') :: t =>
      if String.eqb k' k
      then (k', v) :: filter (fun kv => fst kv ≠ k) t
      else (k', v') :: params_set k v t
  end.

(** [items.map(String)], with [None] as soon as one item does not
    convert. *)
Fixpoint texts_of (items : list json) : option (list string) :=
  match items with
  | [] => Some []
  | item :: rest =>
      match ToString item, texts_of rest with
      | Some t, Some ts => Some (t :: ts)
      | _, _ => None
      end
  end.

(** One turn of the loop over [Object.entries(queryParams || {})]; [None]
    is the [TypeError] of [String(...)]. *)
Definition add_query_param (query : search_params) (kv : string * json)
  : option search_params :=
  match snd kv with
  | JNull => Some query
  | JStr s => if String.eqb s EmptyString then Some query
              else Some (params_set (fst kv) s query)
  | JArr items =>
      match texts_of items with
      | Some texts => Some (query ++ map (fun t => (fst kv, t)) texts)
      | None => None
      end
  | v =>
      match ToString v with
      | Some t => Some (params_set (fst kv) t query)
      | None => None
      end
  end.

(** The loop, from the list [query] built so far. *)
Fixpoint query_loop (q : obj) (query : search_params) : option search_params :=
  match q with
  | [] => Some query
  | kv :: rest =>
      match add_query_param query kv with
      | Some query' => query_loop rest query'
      | None => None
      end
  end.

Definition build_query (queryParams : json) : option search_params :=
  query_loop (entries (if truthy queryParams then queryParams else JObj [])) [].

(** The pairs one entry of the query object stands for: none for [null]
    and the empty string, one per item for an array, one otherwise. *)
Definition pairs_of (kv : string * json) : search_params :=
  match snd kv with
  | JNull => []
  | JStr s => if String.eqb s EmptyString then [] else [(fst kv, s)]
  | JArr items => map (fun item => (fst kv, to_string item)) items
  | v => [(fst kv, to_string v)]
  end.

(** The binding a default-filling loop makes for a parameter. *)
Definition default_entry (p : ApiOperationParam) : string * json :=
  (p_name p, default_value p).

Section WithHost.
(** Of the host: whether [new RegExp(`\\{${name}\\}`, 'g')] makes a pattern
    (it throws a [SyntaxError] otherwise), the replacement of every match of
    that pattern in a path, [encodeURIComponent] ([None] is its [URIError])
    and the text that [String] makes of a member that a value inherits. *)
Variable valid_pattern : string -> bool.
Variable replace_param : string -> string -> string -> string.
Variable encodeURIComponent : string -> option string.
Variable builtin_text : json -> string -> string.

(** [String(pathParams[name])] for a name that is [in pathParams]. *)
Definition param_text (pathParams : json) (name : string) : option string :=
  match get pathParams name with
  | Some v => ToString v
  | None => Some (builtin_text pathParams name)
  end.

(** One turn of the loop over the path parameters: the check, then the
    arguments of [replace] from left to right, then the replacement. *)
Definition substitute (pathParams : json) (resolvedPath name : string)
  : run_error + string :=
  if negb (is_object pathParams) then inl InOperatorTypeError
  else if negb (has_member pathParams name) then inl (MissingPathParam name)
  else if negb (valid_pattern name) then inl RegExpSyntaxError
  else match param_text pathParams name with
       | None => inl StringTypeError
       | Some text =>
           match encodeURIComponent text with
           | None => inl URIError
           | Some encoded => inr (replace_param resolvedPath name encoded)
           end
       end.

Fixpoint resolve_path (params : list ApiOperationParam) (pathParams : json)
    (resolvedPath : string) : run_error + string :=
  match params with
  | [] => inr resolvedPath
  | p :: rest =>
      match substitute pathParams resolvedPath (p_name p) with
      | inl e => inl e
      | inr path => resolve_path rest pathParams path
      end
  end.

(** The part of [onRunApi] between parsing the three texts and [fetch]:
    the resolved path and the query, or the error thrown. *)
Definition prepare_request (op : ApiOperation) (pathParams queryParams : json)
  : run_error + (string * search_params) :=
  if truthy pathParams && negb (is_object pathParams) then inl PathParamsNotObject
  else if truthy queryParams && negb (is_object queryParams)
  then inl QueryParamsNotObject
  else
    match resolve_path (filter (fun p => p_in p = "path") (op_parameters op))
            pathParams (op_path op) with
    | inl e => inl e
    | inr resolvedPath =>
        match build_query queryParams with
        | Some query => inr (resolvedPath, query)
        | None => inl StringTypeError
        end
    end.
End WithHost.

End Playground.

(** ** The requests of the debug API client ([utils/debugApi.ts]) *)

Module DebugRequests.
Import Js.

(** The second argument of [fetch] in [debugFetch]:
    [{ credentials: 'include',
       headers: { 'Content-Type': 'application/json', ...(init?.headers || {}) },
       ...init }];
    [init = None] is a call without [init]. *)
Definition fetch_options (init : option obj) : obj :=
  let init_headers :=
    match init with
    | Some i => or_else (olookup "headers" i) (JObj [])
    | None => JObj []
    end in
  assign
    [("credentials", JStr "include");
     ("headers",
      JObj (assign [("Content-Type", JStr "application/json")]
              (entries init_headers)))]
    (match init with Some i => i | None => [] end).

(** The default headers. *)
Definition json_content_type : json :=
  JObj [("Content-Type", JStr "application/json")].

(** The exported calls of the client; a body is the text that
    [JSON.stringify] made of the payload. *)
Inductive debug_call : Type :=
| GetDebugConfig
| DebugLogin (body : string)
| DebugLogout
| GetDebugSession
| ListDebugRuns
| StartBehaviorDebugRun (body : string)
| TrackBehaviorDebugTask (body : string)
| GetBehaviorDebugRun (runId : string)
| ExplainBehaviorDebugRun (runId body : string)
| ListDebugUnits
| GenerateDebugUnitInput (body : string)
| RunDebugUnit (body : string).

Definition get_init : obj := [("method", JStr "GET")].
Definition post_init (body : string) : obj :=
  [("method", JStr "POST"); ("body", JStr body)].

(** The path and the [init] each call hands to [debugFetch]. *)
Definition call_request (c : debug_call) : string * obj :=
  match c with
  | GetDebugConfig => ("/internal/debug/config", get_init)
  | DebugLogin body => ("/internal/debug/login", post_init body)
  | DebugLogout => ("/internal/debug/logout", post_init "{}")
  | GetDebugSession => ("/internal/debug/session", get_init)
  | ListDebugRuns => ("/internal/debug/behavior-tests", get_init)
  | StartBehaviorDebugRun body => ("/internal/debug/behavior-tests", post_init body)
  | TrackBehaviorDebugTask body =>
      ("/internal/debug/behavior-tests/track", post_init body)
  | GetBehaviorDebugRun runId =>
      ("/internal/debug/behavior-tests/" +:+ runId, get_init)
  | ExplainBehaviorDebugRun runId body =>
      ("/internal/debug/behavior-tests/" +:+ runId +:+ "/explain", post_init body)
  | ListDebugUnits => ("/internal/debug/unit-tests/units", get_init)
  | GenerateDebugUnitInput body =>
      ("/internal/debug/unit-tests/generate-input", post_init body)
  | RunDebugUnit body => ("/internal/debug/unit-tests/run", post_init body)
  end.

(** The URL and options a call reaches [fetch] with. *)
Definition call_fetch (base_url : string) (c : debug_call) : string * obj :=
  (base_url +:+ fst (call_request c), fetch_options (Some (snd (call_request c)))).

End DebugRequests.

(** ** More of the chat component ([ui/Chat.tsx]) *)

Module ChatAux.
Import Js Chat.

Inductive role : Type := User | Assistant.

(** A message of the chat: its content is text, or a rendered element
    ([None]). *)
Record Message : Type := mkMessage {
  m_role : role;
  m_content : option string
}.

(** [arr.slice(-n)] *)
Definition last_n {A : Type} (n : nat) (l : list A) : list A :=
  drop (length l - n) l.

(** [buildConversationHistory()] *)
Definition buildConversationHistory (messages : list Message)
  : list (role * string) :=
  map (fun m => (m_role m,
                 match m_content m with Some text => text | None => EmptyString end))
    (last_n 10 (filter (fun m => is_Some (m_content m)) messages)).

(** A stored message as [getConversation] returns it: [h_data] holds the
    restaurants of [metadata.recommendation_data] when [metadata.type] is
    ['recommendation'] and the data is there. *)
Record HistoryMessage : Type := mkHistory {
  h_role : role;
  h_content : string;
  h_data : option (list Restaurant);
  h_timestamp : option string
}.

(** The identifier [loadHistory] computes for a stored recommendation. *)
Definition historyId (now : Z) (timestamp : option string)
    (restaurants : list Restaurant) : string :=
  match restaurants with
  | [] => "empty-" +:+ match timestamp with
                       | Some t => if truthy (JStr t) then t else show_Z now
                       | None => show_Z now
                       end
  | _ => join "," (Catalog.sort_by code_compare (map id_or_name restaurants))
  end.

(** The set [savedIds] that [loadHistory] fills while it maps over the
    stored messages. *)
Fixpoint history_ids (now : Z) (history : list HistoryMessage) : gset string :=
  match history with
  | [] => ∅
  | msg :: rest =>
      match h_data msg with
      | Some restaurants =>
          {[ historyId now (h_timestamp msg) restaurants ]} ∪ history_ids now rest
      | None => history_ids now rest
      end
  end.

(** What [loadHistory] does to the store once the conversation has
    arrived: with stored messages the set of saved identifiers is replaced,
    without any it is left alone. *)
Definition loadHistory (now : Z) (history : list HistoryMessage) (st : Store)
  : Store :=
  match history with
  | [] => st
  | _ => {| savedRecommendationIds := history_ids now history;
            messages := messages st |}
  end.

(** The message that a persisted recommendation comes back as. *)
Definition stored_recommendation (timestamp : string)
    (saved : string * list Restaurant) : HistoryMessage :=
  {| h_role := Assistant; h_content := fst saved;
     h_data := Some (snd saved); h_timestamp := Some timestamp |}.

(** [prev.includes(x) ? prev.filter(t => t !== x) : [...prev, x]], the
    update of [toggleType] and [toggleFlavor]. *)
Definition toggle (x : string) (prev : list string) : list string :=
  if bool_decide (x ∈ prev) then filter (fun t => t ≠ x) prev else prev ++ [x].

Section WithTrim.
(** [s.trim()] *)
Variable trim : string -> string.

(** [item && typeof item === 'string' && item.trim() !== '' && item !== 'any'] *)
Definition keeps (item : json) : bool :=
  match item with
  | JStr s => truthy item && negb (String.eqb (trim s) EmptyString)
              && negb (String.eqb s "any")
  | _ => false
  end.

(** [normalizeArray(arr)]: the kept items, which are all strings. *)
Definition normalizeArray (arr : json) : list json :=
  match arr with
  | JArr items => filter (fun item => keeps item = true) items
  | _ => []
  end.

(** [normalizeString(value)] *)
Definition normalizeString (value : json) : string :=
  match value with
  | JStr s =>
      if negb (String.eqb (trim s) EmptyString) && negb (String.eqb s "any")
      then s else "any"
  | _ => "any"
  end.
End WithTrim.

(** The form state [generateSummary] reads. *)
Record Preferences : Type := mkPreferences {
  selectedTypes : list string;
  selectedFlavors : list string;
  diningPurpose : string;
  budgetMin : string;
  budgetMax : string;
  location : string;
  locationInput : string
}.

Definition RESTAURANT_TYPES : list (string * string) :=
  [("casual", "Casual"); ("fine-dining", "Fine Dining");
   ("fast-casual", "Fast Casual"); ("street-food", "Street Food");
   ("buffet", "Buffet"); ("cafe", "Cafe")].

Definition FLAVOR_PROFILES : list (string * string) :=
  [("spicy", "Spicy"); ("savory", "Savory"); ("sweet", "Sweet");
   ("sour", "Sour"); ("umami", "Umami"); ("mild", "Mild")].

Definition DINING_PURPOSES : list (string * string) :=
  [("any", "Any"); ("date-night", "Date Night"); ("family", "Family");
   ("business", "Business"); ("solo", "Solo"); ("friends", "Friends");
   ("celebration", "Celebration")].

(** [TABLE.find(e => e.value === v)?.label || v] *)
Definition label_of (table : list (string * string)) (v : string) : string :=
  match List.find (fun e => String.eqb (fst e) v) table with
  | Some e => if truthy (JStr (snd e)) then snd e else v
  | None => v
  end.

Definition nonempty (s : string) : bool := truthy (JStr s).

(** The array [parts] of [generateSummary]. *)
Definition summary_parts (p : Preferences) : list string :=
  (match selectedTypes p with
   | [] => []
   | ts => ["restaurant type: " +:+ join ", " (map (label_of RESTAURANT_TYPES) ts)]
   end)
  ++ (match selectedFlavors p with
      | [] => []
      | fs => ["flavor profile: " +:+ join ", " (map (label_of FLAVOR_PROFILES) fs)]
      end)
  ++ (if String.eqb (diningPurpose p) "any" then []
      else ["dining purpose: " +:+ label_of DINING_PURPOSES (diningPurpose p)])
  ++ (if nonempty (budgetMin p) && nonempty (budgetMax p)
      then ["budget: " +:+ budgetMin p +:+ "-" +:+ budgetMax p +:+ " SGD per person"]
      else if nonempty (budgetMin p)
      then ["budget: minimum " +:+ budgetMin p +:+ " SGD per person"]
      else if nonempty (budgetMax p)
      then ["budget: maximum " +:+ budgetMax p +:+ " SGD per person"]
      else [])
  ++ (let finalLocation :=
        if nonempty (locationInput p) then locationInput p
        else if String.eqb (location p) "any" then EmptyString else location p in
      if nonempty finalLocation then ["location: " +:+ finalLocation] else []).

(** [generateSummary()] *)
Definition generateSummary (p : Preferences) : string :=
  match summary_parts p with
  | [] => "I want a restaurant."
  | parts => "I want a restaurant with " +:+ join ", " parts +:+ "."
  end.

End ChatAux.

(** ** Schemas without references *)

Module Plain.
Import Js Resolver Catalog.

(** A schema in which [resolveSchema] finds nothing to do: a value that is
    no object, or an object with distinct keys, no [$ref] string and no
    [allOf] array, whose [items] is such a schema and whose [properties]
    (when an object) holds such schemas under distinct keys, none of them
    [__proto__]. *)
Inductive reference_free : json -> Prop :=
| rf_scalar (v : json) :
    truthy v && is_object v = false -> reference_free v
| rf_object (o : obj) :
    ref_of (JObj o) = None ->
    allOf_parts (JObj o) = None ->
    NoDup (map fst o) ->
    (forall it, olookup "items" o = Some it -> reference_free it) ->
    (forall ps, olookup "properties" o = Some ps ->
       truthy ps && is_object ps = true ->
       exists props, ps = JObj props /\ NoDup (map fst props)
                     /\ ("__proto__" ∉ map fst props)
                     /\ (forall k v, (k, v) ∈ props -> reference_free v)) ->
    reference_free (JObj o).

(** [p?.$ref] is truthy and no string: [resolveRef] would throw on it. *)
Definition bad_ref (p : json) : bool :=
  match get p "$ref" with
  | Some (JStr _) => false
  | Some r => truthy r
  | None => false
  end.

(** [v[k]] is truthy and does not convert to text, so that
    [String(v[k] || d)] throws. *)
Definition unconvertible (v : json) (k : string) : bool :=
  match get v k with
  | Some x => truthy x && negb (stringable x)
  | None => false
  end.

(** A raw parameter on which the callback of [rawParams.map] throws: its
    [$ref] is truthy and no string, or the parameter object it stands for
    (the target of its [$ref] when that is truthy, else itself) has a [name]
    or an [in] that does not convert to text. *)
Definition throwing_param (spec p : json) : bool :=
  bad_ref p
  || match deref_param spec p with
     | Some (Value v) => unconvertible v "name" || unconvertible v "in"
     | _ => false
     end.

(** A pointer segment without [/]. *)
Fixpoint no_slash (s : string) : bool :=
  match s with
  | EmptyString => true
  | String c s' => negb (Ascii.eqb c "/") && no_slash s'
  end.

(** [p => p.name] of the [filter] that ends the parameter list. *)
Definition named (p : Catalog.ApiOperationParam) : Prop :=
  truthy (JStr (Catalog.p_name p)) = true.

End Plain.

(** * Properties *)

Import Js Resolver Fresh Catalog Synth DebugApi Chat Samples.

(** ** Documents and their parts *)

Lemma index_key_digit (i : nat) (c : ascii) (s : string) :
  index_key i = String c s -> is_digit c = true.
Proof.
  unfold index_key.
  destruct (Nat.to_uint i); simpl; intros H; inversion H; reflexivity.
Qed.

Lemma index_key_not (i : nat) (c : ascii) (s : string) :
  is_digit c = false -> index_key i <> String c s.
Proof.
  intros Hc H. apply index_key_digit in H. congruence.
Qed.

Lemma olookup_elem (k : string) (o : obj) (x : json) :
  olookup k o = Some x -> (k, x) ∈ o.
Proof.
  induction o as [|[k' v] t IH]; simpl; [discriminate|].
  destruct (String.eqb_spec k' k) as [->|Hne].
  - intros [= ->]. left.
  - intros H. right. auto.
Qed.

Lemma indexed_elem {A : Type} (f : A -> json) (l : list A) (k : string) (x : json) :
  (k, x) ∈ indexed f l -> exists i a, l !! i = Some a /\ k = index_key i /\ x = f a.
Proof.
  unfold indexed. intros H.
  apply elem_of_lookup_imap in H as (i & a & Heq & Hl).
  inversion Heq; subst. eauto.
Qed.

Lemma list_sum_elem {A : Type} (f : A -> nat) (l : list A) (a : A) :
  a ∈ l -> (f a <= list_sum (map f l))%nat.
Proof.
  induction 1 as [a t | a b t _ IH]; simpl; lia.
Qed.

Lemma nodes_pos (v : json) : (1 <= nodes v)%nat.
Proof. destruct v; simpl; lia. Qed.

Lemma array_child (l : list json) (x : json) :
  x ∈ l -> (nodes x < nodes (JArr l))%nat /\ refs x ⊆ refs (JArr l).
Proof.
  intros Hin. split.
  - simpl. pose proof (list_sum_elem nodes l x Hin). lia.
  - simpl. intros r Hr. apply elem_of_union_list.
    exists (refs x). split; [|exact Hr].
    apply list_elem_of_In, in_map, list_elem_of_In, Hin.
Qed.

Lemma object_child (o : obj) (k : string) (x : json) :
  (k, x) ∈ o -> (nodes x < nodes (JObj o))%nat /\ refs x ⊆ refs (JObj o).
Proof.
  intros Hin. split.
  - simpl. pose proof (list_sum_elem (fun kv => nodes (snd kv)) o _ Hin).
    simpl in *. lia.
  - simpl. intros r Hr. apply elem_of_union_list.
    eexists. split.
    + apply list_elem_of_In, in_map, list_elem_of_In, Hin.
    + simpl. set_solver.
Qed.

Lemma entries_child (v : json) (k : string) (x : json) :
  is_object v = true -> (k, x) ∈ entries v ->
  (nodes x < nodes v)%nat /\ refs x ⊆ refs v.
Proof.
  destruct v; simpl; try discriminate; intros _ Hin.
  - apply indexed_elem in Hin as (i & a & Hl & _ & ->).
    apply array_child. eapply list_elem_of_lookup_2; eauto.
  - eapply object_child; eauto.
Qed.

Lemma get_entries (v : json) (k : string) (x : json) :
  is_object v = true -> k <> "length" -> get v k = Some x -> (k, x) ∈ entries v.
Proof.
  destruct v; simpl; try discriminate; intros _ Hk.
  - destruct (String.eqb_spec k "length"); [contradiction|]. apply olookup_elem.
  - apply olookup_elem.
Qed.

Lemma ref_of_get (schema : json) (r : string) :
  ref_of schema = Some r -> get schema "$ref" = Some (JStr r) /\ r <> EmptyString.
Proof.
  unfold ref_of. destruct (get schema "$ref") as [[]|]; try discriminate.
  simpl. destruct (String.eqb_spec s EmptyString); simpl; [discriminate|].
  intros [= ->]. auto.
Qed.

Lemma ref_of_refs (schema : json) (r : string) :
  is_object schema = true -> ref_of schema = Some r -> r ∈ refs schema.
Proof.
  intros Hobj Href. apply ref_of_get in Href as [Hget _].
  apply get_entries in Hget; [|assumption|discriminate].
  destruct schema; simpl in *; try discriminate.
  - apply indexed_elem in Hget as (i & a & _ & Hk & _).
    symmetry in Hk. apply index_key_not in Hk; [contradiction|reflexivity].
  - apply elem_of_union_list. eexists. split.
    + apply list_elem_of_In, in_map, list_elem_of_In, Hget.
    + simpl. set_solver.
Qed.

Lemma olookup_oset_eq (k : string) (v : json) (o : obj) :
  olookup k (oset k v o) = Some v.
Proof.
  induction o as [|[k' v'] t IH]; simpl.
  - now rewrite String.eqb_refl.
  - destruct (String.eqb_spec k' k) as [->|Hne]; simpl.
    + now rewrite String.eqb_refl.
    + destruct (String.eqb_spec k' k); [contradiction|exact IH].
Qed.

Lemma olookup_oset_ne (k k' : string) (v : json) (o : obj) :
  k <> k' -> olookup k (oset k' v o) = olookup k o.
Proof.
  intros Hne. induction o as [|[k0 v0] t IH]; simpl.
  - destruct (String.eqb_spec k' k); congruence.
  - destruct (String.eqb_spec k0 k') as [->|Hne0]; simpl.
    + destruct (String.eqb_spec k' k); congruence.
    + destruct (String.eqb_spec k0 k); congruence.
Qed.

Lemma get_within (v : json) (k : string) (x : json) :
  get v k = Some x -> (nodes x <= nodes v)%nat /\ refs x ⊆ refs v.
Proof.
  destruct v; simpl; try discriminate.
  - destruct (String.eqb k "length").
    + intros [= <-]. simpl. split; [lia|set_solver].
    + intros H. apply olookup_elem, indexed_elem in H as (i & a & _ & _ & ->).
      unfold char_str. simpl. split; [lia|set_solver].
  - destruct (String.eqb k "length").
    + intros [= <-]. simpl. split; [lia|set_solver].
    + intros H. apply olookup_elem, indexed_elem in H as (i & a & Hl & _ & ->).
      apply list_elem_of_lookup_2 in Hl.
      destruct (array_child items a Hl) as [Hn Hr]. simpl in Hn, Hr.
      split; [lia|assumption].
  - intros H. apply olookup_elem in H.
    destruct (object_child fields k x H) as [Hn Hr]. simpl in Hn, Hr.
    split; [lia|assumption].
Qed.

Lemma walk_within (parts : list string) (current : json) :
  (nodes (target_schema (walk parts current)) <= nodes current)%nat
  /\ refs (target_schema (walk parts current)) ⊆ refs current.
Proof.
  revert current. induction parts as [|part rest IH]; intros current; simpl.
  - split; [lia|set_solver].
  - destruct (get current part) as [v|] eqn:Hget.
    + destruct (get_within _ _ _ Hget) as [Hn Hr].
      destruct (IH v) as [Hn' Hr']. split; [lia|set_solver].
    + destruct (inherits current part); simpl;
        (split; [apply nodes_pos|set_solver]).
Qed.

Lemma resolveRef_within (ref : string) (spec : json) :
  (nodes (target_schema (resolveRef ref spec)) <= nodes spec)%nat
  /\ refs (target_schema (resolveRef ref spec)) ⊆ refs spec.
Proof.
  unfold resolveRef. destruct (String.prefix "#/" ref).
  - apply walk_within.
  - simpl. split; [apply nodes_pos|set_solver].
Qed.

(** ** Fuel: more never changes an answer *)

Lemma reduce_allOf_below rec1 rec2 :
  below rec1 rec2 ->
  forall parts acc seen r,
    reduce_allOf rec1 parts acc seen = Some r ->
    reduce_allOf rec2 parts acc seen = Some r.
Proof.
  intros Hb. induction parts as [|part rest IH]; simpl; intros acc seen r H.
  - exact H.
  - destruct (rec1 part seen) as [[resolved seen']|] eqn:E; [|discriminate].
    rewrite (Hb _ _ _ E). auto.
Qed.

Lemma resolve_props_below rec1 rec2 :
  below rec1 rec2 ->
  forall ps props seen r,
    resolve_props rec1 ps props seen = Some r ->
    resolve_props rec2 ps props seen = Some r.
Proof.
  intros Hb. induction ps as [|[k v] rest IH]; simpl; intros props seen r H.
  - exact H.
  - destruct (rec1 v seen) as [[res seen']|] eqn:E; [|discriminate].
    rewrite (Hb _ _ _ E). auto.
Qed.

Lemma resolve_plain_below rec1 rec2 :
  below rec1 rec2 ->
  forall schema seen r,
    resolve_plain rec1 schema seen = Some r ->
    resolve_plain rec2 schema seen = Some r.
Proof.
  intros Hb schema seen r. unfold resolve_plain, resolve_items, resolve_properties.
  destruct (olookup "items" (entries schema)) as [it|]; simpl.
  - destruct (truthy it).
    + destruct (rec1 it seen) as [[it' seen1]|] eqn:E; [|discriminate].
      rewrite (Hb _ _ _ E).
      destruct (olookup "properties" (oset "items" it' (entries schema))) as [ps|]; [|auto].
      destruct (truthy ps && is_object ps); [|auto].
      destruct (resolve_props rec1 (entries ps) [] seen1) eqn:E1; [|discriminate].
      now rewrite (resolve_props_below _ _ Hb _ _ _ _ E1).
    + destruct (olookup "properties" (entries schema)) as [ps|]; [|auto].
      destruct (truthy ps && is_object ps); [|auto].
      destruct (resolve_props rec1 (entries ps) [] seen) eqn:E1; [|discriminate].
      now rewrite (resolve_props_below _ _ Hb _ _ _ _ E1).
  - destruct (olookup "properties" (entries schema)) as [ps|]; [|auto].
    destruct (truthy ps && is_object ps); [|auto].
    destruct (resolve_props rec1 (entries ps) [] seen) eqn:E1; [|discriminate].
    now rewrite (resolve_props_below _ _ Hb _ _ _ _ E1).
Qed.

Lemma resolve_body_below (spec : json) rec1 rec2 :
  below rec1 rec2 -> below (resolve_body spec rec1) (resolve_body spec rec2).
Proof.
  intros Hb x s r H. unfold resolve_body in *.
  destruct (negb (truthy x && is_object x)); [exact H|].
  destruct (ref_of x) as [ref|].
  - destruct (decide (ref ∈ s)); [exact H|].
    destruct (rec1 (target_schema (resolveRef ref spec)) ({[ref]} ∪ s))
      as [[resolved seen']|] eqn:E; [|discriminate].
    now rewrite (Hb _ _ _ E).
  - destruct (allOf_parts x) as [parts|].
    + eapply reduce_allOf_below; eauto.
    + eapply resolve_plain_below; eauto.
Qed.

Lemma resolveSchema_mono (spec : json) (fuel fuel' : nat) :
  (fuel <= fuel')%nat -> below (resolveSchema spec fuel) (resolveSchema spec fuel').
Proof.
  revert fuel'. induction fuel as [|fuel IH]; intros fuel' Hle x s r H.
  - discriminate.
  - destruct fuel' as [|fuel']; [lia|].
    simpl in H |- *. eapply resolve_body_below; [|exact H].
    apply IH. lia.
Qed.

(** ** Termination: an explicit recursion depth always suffices *)

Lemma reduce_allOf_total rec (parts : list json) :
  forall seen,
    (forall p s, p ∈ parts -> seen ⊆ s ->
       exists r s', rec p s = Some (r, s') /\ s ⊆ s') ->
    forall acc, exists r s',
      reduce_allOf rec parts acc seen = Some (JObj r, s') /\ seen ⊆ s'.
Proof.
  induction parts as [|part rest IH]; intros seen Hrec acc; simpl.
  - eauto.
  - destruct (Hrec part seen) as (r & s' & E & Hsub); [left|done|].
    rewrite E.
    assert (Hrest : forall p s, p ∈ rest -> s' ⊆ s ->
              exists r s'', rec p s = Some (r, s'') /\ s ⊆ s'').
    { intros p s Hp Hs. apply Hrec; [now right|set_solver]. }
    destruct (IH s' Hrest (assign (entries (or_empty (JObj acc)))
                             (entries (or_empty r))))
      as (r2 & s2 & E2 & Hsub2).
    exists r2, s2. split; [exact E2|set_solver].
Qed.

Lemma resolve_props_total rec (ps : obj) (seen : gset string) :
  (forall k v, (k, v) ∈ ps -> exists r s', rec v seen = Some (r, s')) ->
  forall props, exists r, resolve_props rec ps props seen = Some r.
Proof.
  induction ps as [|[k v] rest IH]; intros Hrec props; simpl.
  - eauto.
  - destruct (Hrec k v) as (r & s' & E); [left|]. rewrite E.
    apply IH. intros k' v' Hin. apply (Hrec k' v'). now right.
Qed.

Lemma resolve_plain_total rec (schema : json) (seen : gset string) :
  is_object schema = true ->
  (forall k v s, (k, v) ∈ entries schema -> seen ⊆ s ->
     (exists r s', rec v s = Some (r, s') /\ s ⊆ s')
     /\ (is_object v = true ->
         forall k' v', (k', v') ∈ entries v -> exists r s', rec v' s = Some (r, s'))) ->
  exists r s', resolve_plain rec schema seen = Some (JObj r, s') /\ seen ⊆ s'.
Proof.
  intros Hobj Hrec. unfold resolve_plain.
  assert (Hitems : exists next1 seen1,
             resolve_items rec (entries schema) seen = Some (next1, seen1)
             /\ seen ⊆ seen1
             /\ olookup "properties" next1 = olookup "properties" (entries schema)).
  { unfold resolve_items.
    destruct (olookup "items" (entries schema)) as [it|] eqn:Hit; [|eauto 6].
    destruct (truthy it); [|eauto 6].
    apply olookup_elem in Hit.
    destruct (Hrec _ _ seen Hit) as [(it' & seen1 & E & Hsub) _]; [done|].
    rewrite E. eexists _, _. split; [reflexivity|]. split; [done|].
    now apply olookup_oset_ne. }
  destruct Hitems as (next1 & seen1 & -> & Hsub & Hprops).
  unfold resolve_properties. rewrite Hprops.
  destruct (olookup "properties" (entries schema)) as [ps|] eqn:Hps; [|eauto].
  destruct (truthy ps && is_object ps) eqn:Hobjps; [|eauto].
  apply andb_prop in Hobjps as [_ Hobjps].
  apply olookup_elem in Hps.
  destruct (Hrec _ _ seen1 Hps Hsub) as [_ Hvals].
  destruct (resolve_props_total rec (entries ps) seen1) with (props := @nil (string * json))
    as (props & E).
  - intros k v Hin. eapply Hvals; eauto.
  - rewrite E. eauto.
Qed.

Lemma unvisited_shrinks (U seen : gset string) (r : string) :
  r ∈ U -> r ∉ seen -> (size (U ∖ ({[ r ]} ∪ seen)) < size (U ∖ seen))%nat.
Proof.
  intros HU Hs. apply subset_size. set_solver.
Qed.

Lemma unvisited_antitone (U seen s : gset string) :
  seen ⊆ s -> (size (U ∖ s) <= size (U ∖ seen))%nat.
Proof.
  intros H. apply subseteq_size. set_solver.
Qed.

Lemma resolveSchema_total (spec : json) (U : gset string) :
  refs spec ⊆ U ->
  forall fuel schema seen,
    refs schema ⊆ U ->
    (size (U ∖ seen) * (nodes spec + 1) + nodes schema < fuel)%nat ->
    exists r s', resolveSchema spec fuel schema seen = Some (r, s') /\ seen ⊆ s'.
Proof.
  intros HU. induction fuel as [|fuel IH]; intros schema seen Hs Hlt; [lia|].
  simpl. unfold resolve_body.
  destruct (negb (truthy schema && is_object schema)) eqn:Hobj; [eauto|].
  apply negb_false_iff, andb_prop in Hobj as [_ Hobj].
  destruct (ref_of schema) as [ref|] eqn:Href.
  - destruct (decide (ref ∈ seen)) as [Hin|Hnin]; [eauto|].
    pose proof (ref_of_refs _ _ Hobj Href) as Hr.
    destruct (resolveRef_within ref spec) as [Hn Hrefs].
    pose proof (unvisited_shrinks U seen ref (Hs _ Hr) Hnin) as Hlt'.
    destruct (IH (target_schema (resolveRef ref spec)) ({[ref]} ∪ seen))
      as (resolved & s' & E & Hsub); [set_solver|nia|].
    rewrite E. eexists _, _. split; [reflexivity|set_solver].
  - destruct (allOf_parts schema) as [parts|] eqn:Hall.
    + destruct (reduce_allOf_total (resolveSchema spec fuel) parts seen)
        with (acc := @nil (string * json)) as (r & s' & E & Hsub); [|eauto].
      intros p s Hp Hsub.
      unfold allOf_parts in Hall.
      destruct (get schema "allOf") as [[]|] eqn:Hget; try discriminate.
      injection Hall as ->.
      apply get_entries in Hget; [|assumption|discriminate].
      destruct (entries_child _ _ _ Hobj Hget) as [Hn Hr].
      destruct (array_child _ _ Hp) as [Hn' Hr'].
      pose proof (unvisited_antitone U seen s Hsub).
      apply IH; [set_solver|nia].
    + destruct (resolve_plain_total (resolveSchema spec fuel) schema seen Hobj)
        as (r & s' & E & Hsub); [|eauto].
      intros k v s Hin Hsub.
      destruct (entries_child _ _ _ Hobj Hin) as [Hn Hr].
      pose proof (unvisited_antitone U seen s Hsub).
      split.
      * apply IH; [set_solver|nia].
      * intros Hobjv k' v' Hin'.
        destruct (entries_child _ _ _ Hobjv Hin') as [Hn' Hr'].
        destruct (IH v' s) as (r & s' & E & _); [set_solver|nia|eauto].
Qed.

(** ** The resolver as a total function *)

Lemma resolveSchema_enough (spec schema : json) (seen : gset string) :
  exists r s',
    resolveSchema spec (enough_fuel spec schema seen) schema seen = Some (r, s')
    /\ seen ⊆ s'.
Proof.
  apply (resolveSchema_total spec (refs schema ∪ refs spec)).
  - set_solver.
  - set_solver.
  - unfold enough_fuel. lia.
Qed.

Lemma resolveSchema_in_eq (spec schema : json) (seen : gset string) :
  resolveSchema spec (enough_fuel spec schema seen) schema seen
  = Some (resolveSchema_in spec schema seen).
Proof.
  unfold resolveSchema_in.
  destruct (resolveSchema_enough spec schema seen) as (r & s' & -> & _).
  reflexivity.
Qed.

Lemma resolveSchema_in_unique (spec : json) (fuel : nat) (schema : json)
    (seen : gset string) (o : outcome) :
  resolveSchema spec fuel schema seen = Some o ->
  o = resolveSchema_in spec schema seen.
Proof.
  intros H.
  pose proof (resolveSchema_in_eq spec schema seen) as E.
  set (m := Nat.max fuel (enough_fuel spec schema seen)).
  apply (resolveSchema_mono spec _ m) in H; [|lia].
  apply (resolveSchema_mono spec _ m) in E; [|lia].
  congruence.
Qed.


(** The total function satisfies the recursive equation of the source. *)
Lemma resolveSchema_in_unfold (spec schema : json) (seen : gset string) :
  resolve_body spec (fun x s => Some (resolveSchema_in spec x s)) schema seen
  = Some (resolveSchema_in spec schema seen).
Proof.
  pose proof (resolveSchema_in_eq spec schema seen) as E.
  apply (resolveSchema_mono spec _ (S (enough_fuel spec schema seen))) in E; [|lia].
  change (resolve_body spec (resolveSchema spec (enough_fuel spec schema seen))
            schema seen = Some (resolveSchema_in spec schema seen)) in E.
  revert E. apply resolve_body_below.
  intros x s r Hx. f_equal. symmetry. eapply resolveSchema_in_unique, Hx.
Qed.


Lemma ref_of_object (schema : json) (r : string) :
  ref_of schema = Some r -> exists o, schema = JObj o.
Proof.
  intros H. apply ref_of_get in H as [Hget _].
  destruct schema; simpl in Hget; try discriminate.
  - apply olookup_elem, indexed_elem in Hget as (i & a & _ & Hk & _).
    symmetry in Hk. apply index_key_not in Hk; [contradiction|reflexivity].
  - apply olookup_elem, indexed_elem in Hget as (i & a & _ & Hk & _).
    symmetry in Hk. apply index_key_not in Hk; [contradiction|reflexivity].
  - eauto.
Qed.



(** ** Cycle guard *)



(** ** Spreading objects *)

Lemma olookup_oset (k k' : string) (v : json) (o : obj) :
  olookup k (oset k' v o) = if String.eqb k' k then Some v else olookup k o.
Proof.
  destruct (String.eqb_spec k' k) as [->|Hne].
  - apply olookup_oset_eq.
  - apply olookup_oset_ne. congruence.
Qed.

Lemma olookup_assign (k : string) (source target : obj) :
  olookup k (assign target source)
  = match olookup_last k source with
    | Some v => Some v
    | None => olookup k target
    end.
Proof.
  unfold assign. revert target.
  induction source as [|[k' v] t IH]; intros target; simpl; [reflexivity|].
  rewrite IH. destruct (olookup_last k t); [reflexivity|].
  rewrite olookup_oset. now destruct (String.eqb k' k).
Qed.

Lemma oset_fresh (k : string) (v : json) (o : obj) :
  k ∉ map fst o -> oset k v o = o ++ [(k, v)].
Proof.
  induction o as [|[k' v'] t IH]; simpl; intros Hk; [reflexivity|].
  destruct (String.eqb_spec k' k) as [->|Hne].
  - exfalso. apply Hk. left.
  - f_equal. apply IH. intros Hin. apply Hk. now right.
Qed.

Lemma assign_fresh (source target : obj) :
  NoDup (map fst source) ->
  (forall k, k ∈ map fst source -> k ∉ map fst target) ->
  assign target source = target ++ source.
Proof.
  unfold assign. revert target.
  induction source as [|[k v] t IH]; intros target Hnd Hdisj; simpl.
  - now rewrite app_nil_r.
  - inversion Hnd as [|? ? Hk Hnd']; subst.
    rewrite oset_fresh by (apply Hdisj; left).
    rewrite IH; [now rewrite <- app_assoc|assumption|].
    intros k' Hin. rewrite map_app. simpl. intros Hin'.
    apply elem_of_app in Hin' as [Hin'|Hin'].
    + apply (Hdisj k'); [now right|assumption].
    + apply list_elem_of_singleton in Hin' as ->. contradiction.
Qed.

Lemma without_ref_NoDup (schema : json) :
  NoDup (map fst (entries schema)) -> NoDup (map fst (without_ref schema)).
Proof.
  unfold without_ref. intros H. eapply sublist_NoDup; [exact H|].
  apply (fmap_sublist fst), sublist_filter.
Qed.

Lemma olookup_last_without_ref (schema : json) (k : string) :
  olookup_last k (without_ref schema)
  = if String.eqb k "$ref" then None else olookup_last k (entries schema).
Proof.
  unfold without_ref. induction (entries schema) as [|[k' v] t IH].
  - simpl. now destruct (String.eqb k "$ref").
  - rewrite filter_cons. case_decide as Hne; cbn [fst] in Hne.
    + cbn [olookup_last]. rewrite IH.
      destruct (String.eqb_spec k "$ref") as [->|Hk]; [|reflexivity].
      now destruct (String.eqb_spec k' "$ref").
    + assert (k' = "$ref") as ->.
      { destruct (decide (k' = "$ref")); [assumption|contradiction]. }
      rewrite IH. cbn [olookup_last].
      destruct (String.eqb_spec k "$ref") as [->|Hk]; [reflexivity|].
      destruct (olookup_last k t); [reflexivity|].
      destruct (String.eqb_spec "$ref" k); [congruence|reflexivity].
Qed.

Lemma resolveSchema_in_falsy (spec schema : json) (seen : gset string) :
  truthy schema && is_object schema = false ->
  resolveSchema_in spec schema seen = (schema, seen).
Proof.
  intros H. pose proof (resolveSchema_in_unfold spec schema seen) as E.
  unfold resolve_body in E. rewrite H in E. simpl in E. congruence.
Qed.

(** ** A [$ref] with sibling keys *)

Lemma resolveSchema_in_ref (spec schema : json) (seen : gset string) (r : string) :
  ref_of schema = Some r ->
  r ∉ seen ->
  resolveSchema_in spec schema seen
  = (JObj (assign
             (entries (or_empty
                (fst (resolveSchema_in spec (target_schema (resolveRef r spec))
                        ({[ r ]} ∪ seen)))))
             (without_ref schema)),
     snd (resolveSchema_in spec (target_schema (resolveRef r spec)) ({[ r ]} ∪ seen))).
Proof.
  intros Href Hnin.
  pose proof (resolveSchema_in_unfold spec schema seen) as E.
  destruct (ref_of_object _ _ Href) as [o ->].
  unfold resolve_body in E. simpl in E. rewrite Href in E.
  destruct (decide (r ∈ seen)); [contradiction|].
  destruct (resolveSchema_in spec (target_schema (resolveRef r spec)) ({[r]} ∪ seen))
    as [res s'].
  injection E as E. rewrite <- E. reflexivity.
Qed.

(** C10 (as it fails): the schema [A = {$ref: '#/A', title: 'T'}] carries
    a [$ref] and a sibling key; reached through a reference to [A], its
    [$ref] is already visited, and the node resolves to [{type: 'object'}]
    without its [title]. *)
Lemma ref_with_siblings_lost :
  ref_of self_ref_node = Some "#/A"
  /\ olookup "title" (without_ref self_ref_node) = Some (JStr "T")
  /\ resolveSchema_in self_ref_doc self_ref_node {[ "#/A" ]}
     = (generic_object, {[ "#/A" ]})
  /\ get (fst (resolveSchema_in self_ref_doc self_ref_node {[ "#/A" ]})) "title" = None
  /\ resolveSchema_fresh (ref_to "#/A") self_ref_doc = generic_object.
Proof.
  split; [reflexivity|]. split; [reflexivity|].
  assert (E : resolveSchema_in self_ref_doc self_ref_node {[ "#/A" ]}
              = (generic_object, {[ "#/A" ]})).
  { symmetry. apply (resolveSchema_in_unique self_ref_doc 1). reflexivity. }
  split; [exact E|]. split; [now rewrite E|].
  unfold resolveSchema_fresh.
  rewrite <- (resolveSchema_in_unique self_ref_doc 2 (ref_to "#/A") ∅
                (generic_object, {[ "#/A" ]})); reflexivity.
Qed.

(** C10 (amended): a schema node with a [$ref] (a non-empty string) that
    the branch has already visited resolves to [{type: 'object'}], whatever
    its other keys.  When the branch has not visited it, [resolveSchema]
    returns the resolved referenced schema overlaid with the node's other
    keys: a key of the node wins over the same key of the resolved target,
    every key of the node but [$ref] is kept, and the node's own [$ref] is
    not copied.  When the pointer leads nowhere ([resolveRef] gives [null])
    or to an inherited member, the result is the object of the node's
    remaining keys, not [null].  (Stated for documents whose pointers the
    model follows to their end.) *)
Theorem ref_with_siblings (spec schema : json) (seen : gset string) (r : string) :
  ref_of schema = Some r ->
  pointers_followed spec schema ->
  let result := fst (resolveSchema_in spec schema seen) in
  (r ∈ seen -> result = generic_object)
  /\ (r ∉ seen ->
      let resolved :=
        fst (resolveSchema_in spec (target_schema (resolveRef r spec))
               ({[ r ]} ∪ seen)) in
      result = JObj (assign (entries (or_empty resolved)) (without_ref schema))
      /\ (forall k, get result k
                    = match olookup_last k (without_ref schema) with
                      | Some v => Some v
                      | None => olookup k (entries (or_empty resolved))
                      end)
      /\ (forall k, olookup_last k (without_ref schema)
                    = if String.eqb k "$ref" then None
                      else olookup_last k (entries schema))
      /\ (resolveRef r spec = Value JNull
          \/ (exists owner name, resolveRef r spec = Builtin owner name []) ->
          (forall k, get result k = olookup_last k (without_ref schema))
          /\ (NoDup (map fst (entries schema)) ->
              result = JObj (without_ref schema)))).
Proof.
  intros Href _ result. split.
  - intros Hin. subst result.
    pose proof (resolveSchema_in_unfold spec schema seen) as E.
    destruct (ref_of_object _ _ Href) as [o ->].
    unfold resolve_body in E. simpl in E. rewrite Href in E.
    destruct (decide (r ∈ seen)); [|contradiction].
    injection E as <-. reflexivity.
  - intros Hnin resolved.
    assert (Hres : result
                   = JObj (assign (entries (or_empty resolved)) (without_ref schema))).
    { subst result resolved. now rewrite (resolveSchema_in_ref _ _ _ _ Href Hnin). }
    split; [exact Hres|]. split; [|split].
    + intros k. rewrite Hres. simpl. apply olookup_assign.
    + intros k. apply olookup_last_without_ref.
    + intros Hnull.
      assert (Hempty : entries (or_empty resolved) = []).
      { subst resolved.
        destruct Hnull as [->|(owner & name & ->)]; cbn [target_schema].
        - now rewrite resolveSchema_in_falsy by reflexivity.
        - rewrite <- (resolveSchema_in_unique spec 1 (JObj []) ({[r]} ∪ seen)
                        (JObj [], {[r]} ∪ seen)); reflexivity. }
      split.
      * intros k. rewrite Hres. simpl. rewrite olookup_assign, Hempty. simpl.
        now destruct (olookup_last k (without_ref schema)).
      * intros Hnd. rewrite Hres, Hempty. f_equal.
        rewrite assign_fresh; [reflexivity|now apply without_ref_NoDup|].
        intros k _ Hin. simpl in Hin. inversion Hin.
Qed.

Lemma ref_with_siblings_witness :
  fst (resolveSchema_in (JObj []) dangling_node ∅) = JObj [("title", JStr "T")].
Proof.
  assert (Hfollowed : pointers_followed (JObj []) dangling_node).
  { apply (bool_decide_unpack _). vm_compute. exact I. }
  pose proof (ref_with_siblings (JObj []) dangling_node ∅ "#/missing"
                eq_refl Hfollowed) as H.
  cbv zeta in H. destruct H as (_ & H).
  destruct (H (not_elem_of_empty _)) as (_ & _ & _ & H').
  destruct (H' (or_introl eq_refl)) as [_ Hnd]. apply Hnd.
  apply (bool_decide_unpack _). vm_compute. exact I.
Defined.

(** ** [allOf] *)




Lemma resolve_members_length (spec : json) (parts : list json) (seen : gset string) :
  length (fst (resolve_members spec parts seen)) = length parts.
Proof.
  revert seen. induction parts as [|part rest IH]; intros seen; simpl; [reflexivity|].
  destruct (resolveSchema_in spec part seen) as [resolved seen1].
  specialize (IH seen1). destruct (resolve_members spec rest seen1). simpl in *.
  now rewrite IH.
Qed.


(** *** What a call looks at in the visited set *)













(** ** Sibling properties *)







(** ** Pointers *)

Lemma split_on_cons (sep : ascii) (s : string) :
  exists p ps, split_on sep s = p :: ps.
Proof.
  destruct s as [|c s]; simpl; [eauto|].
  destruct (Ascii.eqb c sep); [eauto|].
  destruct (split_on sep s); eauto.
Qed.

Lemma join_cons (sep x y : string) (t : list string) :
  join sep (x :: y :: t) = x +:+ sep +:+ join sep (y :: t).
Proof. reflexivity. Qed.



Lemma index_steps_none (parts : list string) :
  fold_left (fun current part =>
               match current with
               | Some c => get c part
               | None => None
               end) parts None = None.
Proof. induction parts; simpl; auto. Qed.

Lemma walk_own (parts : list string) (current v : json) :
  index_path parts current = Some v -> walk parts current = Value v.
Proof.
  unfold index_path. revert current.
  induction parts as [|part rest IH]; intros current; simpl.
  - now intros [= ->].
  - destruct (get current part) as [x|]; [apply IH|].
    now rewrite index_steps_none.
Qed.



Lemma among_elem (names : list string) (k : string) :
  among names k = true <-> k ∈ names.
Proof.
  unfold among. rewrite existsb_exists. split.
  - intros (x & Hin & Hx). apply String.eqb_eq in Hx as ->.
    now apply list_elem_of_In.
  - intros Hin. exists k. split; [now apply list_elem_of_In|apply String.eqb_refl].
Qed.




(** ** Sorting with a comparator *)

Section SortFacts.
Context {A : Type}.
Variable cmp : A -> A -> Z.
Hypothesis cmp_total : forall a b, 0 < cmp a b -> cmp b a <= 0.

Lemma insert_sorted_perm (x : A) (l : list A) :
  Permutation (insert_sorted cmp x l) (x :: l).
Proof.
  induction l as [|y t IH]; simpl; [reflexivity|].
  destruct (cmp x y <=? 0); [reflexivity|].
  rewrite IH. apply perm_swap.
Qed.

Lemma sort_by_perm (l : list A) : Permutation (sort_by cmp l) l.
Proof.
  induction l as [|x t IH]; simpl; [reflexivity|].
  rewrite insert_sorted_perm. now apply perm_skip.
Qed.

Lemma insert_sorted_HdRel (a x : A) (l : list A) :
  cmp a x <= 0 -> HdRel (fun u v => cmp u v <= 0) a l ->
  HdRel (fun u v => cmp u v <= 0) a (insert_sorted cmp x l).
Proof.
  intros Hax Hl. destruct l as [|y t]; simpl.
  - now constructor.
  - destruct (cmp x y <=? 0); constructor; [assumption|].
    now inversion Hl.
Qed.

Lemma insert_sorted_Sorted (x : A) (l : list A) :
  Sorted (fun u v => cmp u v <= 0) l ->
  Sorted (fun u v => cmp u v <= 0) (insert_sorted cmp x l).
Proof.
  induction 1 as [|y t Hs IH Hhd]; simpl.
  - repeat constructor.
  - destruct (Z.leb_spec (cmp x y) 0) as [Hle|Hgt].
    + constructor; [now constructor|now constructor].
    + constructor; [exact IH|].
      apply insert_sorted_HdRel; [now apply cmp_total|exact Hhd].
Qed.

Lemma sort_by_Sorted (l : list A) :
  Sorted (fun u v => cmp u v <= 0) (sort_by cmp l).
Proof.
  induction l as [|x t IH]; simpl; [constructor|].
  now apply insert_sorted_Sorted.
Qed.
End SortFacts.

(** ** Where the operations of the catalog come from *)

Lemma collect_methods_make (spec : json) (path : string) (pathItem : json)
    (shared : list json) (methods : list string) :
  forall found o,
    collect_methods spec path pathItem shared methods = Some found ->
    o ∈ found ->
    exists method op params,
      o = make_operation spec method path op params
      /\ method ∈ methods
      /\ get pathItem method = Some op.
Proof.
  induction methods as [|method rest IH]; simpl; intros found o Hc Hin.
  - injection Hc as <-. inversion Hin.
  - destruct (get pathItem method) as [op|] eqn:Hget.
    + destruct (truthy op && is_object op).
      * destruct (map_params spec _) as [resolved|]; [|discriminate].
        destruct (collect_methods spec path pathItem shared rest) as [ops|] eqn:E;
          [|discriminate].
        injection Hc as <-. apply elem_of_cons in Hin as [->|Hin].
        -- eexists method, op, _. split; [reflexivity|]. split; [left|exact Hget].
        -- destruct (IH ops o eq_refl Hin) as (m & op' & ps & -> & Hm & Hg).
           exists m, op', ps. split; [reflexivity|]. split; [now right|exact Hg].
      * destruct (IH found o Hc Hin) as (m & op' & ps & -> & Hm & Hg).
        exists m, op', ps. split; [reflexivity|]. split; [now right|exact Hg].
    + destruct (IH found o Hc Hin) as (m & op' & ps & -> & Hm & Hg).
      exists m, op', ps. split; [reflexivity|]. split; [now right|exact Hg].
Qed.

Lemma collect_paths_make (spec : json) (paths : obj) :
  forall found o,
    collect_paths spec paths = Some found ->
    o ∈ found ->
    exists method path pathItem op params,
      o = make_operation spec method path op params
      /\ method ∈ http_methods
      /\ (path, pathItem) ∈ paths
      /\ get pathItem method = Some op.
Proof.
  induction paths as [|[path pathItem] rest IH]; cbn [collect_paths];
    intros found o Hc Hin.
  - injection Hc as <-. inversion Hin.
  - destruct (truthy pathItem && is_object pathItem).
    + destruct (collect_methods spec path pathItem _ http_methods) as [ops|] eqn:E;
        [|discriminate].
      destruct (collect_paths spec rest) as [more|]; [|discriminate].
      injection Hc as <-. apply elem_of_app in Hin as [Hin|Hin].
      * destruct (collect_methods_make _ _ _ _ _ _ _ E Hin) as (m & op & ps & -> & Hm & Hg).
        exists m, path, pathItem, op, ps. repeat split; try assumption. left.
      * destruct (IH more o eq_refl Hin) as (m & p & pi & op & ps & -> & Hm & Hp & Hg).
        exists m, p, pi, op, ps. repeat split; try assumption. now right.
    + destruct (IH found o Hc Hin) as (m & p & pi & op & ps & -> & Hm & Hp & Hg).
      exists m, p, pi, op, ps. repeat split; try assumption. now right.
Qed.

Lemma collect_all_make (spec : json) (found : list ApiOperation)
    (o : ApiOperation) :
  collect_all spec = Some found ->
  o ∈ found ->
  exists method path op params,
    o = make_operation spec method path op params /\ method ∈ http_methods.
Proof.
  unfold collect_all.
  destruct (get spec "paths") as [paths|].
  - destruct (truthy paths && is_object paths).
    + intros E Hin.
      destruct (collect_paths_make _ _ _ _ E Hin) as (m & p & pi & op & ps & -> & Hm & _).
      eauto 7.
    + intros [= <-] Hin. inversion Hin.
  - intros [= <-] Hin. inversion Hin.
Qed.

(** ** The catalog is sorted *)

Section CollationFacts.
Variable localeCompare : string -> string -> Z.
Hypothesis collation_antisym :
  forall a b, Z.sgn (localeCompare b a) = - Z.sgn (localeCompare a b).

Lemma collation_pos (a b : string) :
  0 < localeCompare a b -> localeCompare b a < 0.
Proof.
  intros H. pose proof (collation_antisym a b) as E.
  destruct (localeCompare a b), (localeCompare b a); simpl in *; lia.
Qed.

Lemma collation_neg (a b : string) :
  localeCompare a b < 0 -> 0 < localeCompare b a.
Proof.
  intros H. pose proof (collation_antisym a b) as E.
  destruct (localeCompare a b), (localeCompare b a); simpl in *; lia.
Qed.

Lemma collation_zero (a b : string) :
  localeCompare a b = 0 -> localeCompare b a = 0.
Proof.
  intros H. pose proof (collation_antisym a b) as E.
  destruct (localeCompare a b), (localeCompare b a); simpl in *; lia.
Qed.

Lemma collation_refl (a : string) : localeCompare a a = 0.
Proof.
  pose proof (collation_antisym a a) as E.
  destruct (localeCompare a a); simpl in *; lia.
Qed.

Lemma compare_ops_total (a b : ApiOperation) :
  0 < compare_ops localeCompare a b -> compare_ops localeCompare b a <= 0.
Proof.
  unfold compare_ops.
  destruct (Z.eqb_spec (localeCompare (op_path a) (op_path b)) 0) as [E|E].
  - rewrite (collation_zero _ _ E). simpl. intros H.
    apply collation_pos in H. lia.
  - intros H. pose proof (collation_pos _ _ H) as H'.
    destruct (Z.eqb_spec (localeCompare (op_path b) (op_path a)) 0); lia.
Qed.

Lemma compare_ops_le (a b : ApiOperation) :
  compare_ops localeCompare a b <= 0 <-> ops_le localeCompare a b.
Proof.
  unfold compare_ops, ops_le.
  destruct (Z.eqb_spec (localeCompare (op_path a) (op_path b)) 0) as [E|E]; lia.
Qed.

Lemma ops_le_trans :
  (forall a b c, localeCompare a b <= 0 -> localeCompare b c <= 0 ->
                 localeCompare a c <= 0) ->
  forall a b c : ApiOperation,
    ops_le localeCompare a b -> ops_le localeCompare b c -> ops_le localeCompare a c.
Proof.
  intros Htrans a b c. unfold ops_le.
  set (pa := op_path a). set (pb := op_path b). set (pc := op_path c).
  pose proof (Htrans pa pb pc) as T1.
  pose proof (Htrans pb pc pa) as T2.
  pose proof (Htrans pc pa pb) as T3.
  pose proof (Htrans pc pb pa) as T4.
  pose proof (Htrans (op_method a) (op_method b) (op_method c)) as T5.
  pose proof (collation_pos pa pb). pose proof (collation_neg pa pb).
  pose proof (collation_zero pa pb).
  pose proof (collation_pos pb pc). pose proof (collation_neg pb pc).
  pose proof (collation_zero pb pc).
  pose proof (collation_pos pa pc). pose proof (collation_neg pa pc).
  pose proof (collation_zero pa pc).
  lia.
Qed.

Lemma Sorted_impl {A : Type} (R1 R2 : A -> A -> Prop) (l : list A) :
  (forall a b, R1 a b -> R2 a b) -> Sorted R1 l -> Sorted R2 l.
Proof.
  intros Himp. induction 1 as [|x t Hs IH Hhd]; constructor; [assumption|].
  destruct Hhd; constructor. now apply Himp.
Qed.

Lemma buildApiOperations_collect (spec : json) :
  buildApiOperations localeCompare spec
  = option_map (sort_by (compare_ops localeCompare)) (collect_all spec).
Proof.
  unfold buildApiOperations, collect_all.
  destruct (get spec "paths") as [paths|]; [|reflexivity].
  destruct (truthy paths && is_object paths); reflexivity.
Qed.

(** C6 (amended): for every document on which [buildApiOperations]
    returns a catalog, the catalog is a rearrangement of the operations
    found in the document, sorted by path in the order of [localeCompare]
    (the collation of the host, of which only the antisymmetry of its sign
    is assumed) and, on equal paths, by the upper-cased method name in that
    order: each operation comes before its successor and, when the order is
    transitive, before every later one; with [/b] (GET) and [/a] (POST,
    GET) the order is [/a GET], [/a POST], [/b GET] in every collation that
    puts [/a] before [/b] and [GET] before [POST]. *)
Theorem catalog_sorted (spec : json) (out : list ApiOperation) :
  buildApiOperations localeCompare spec = Some out ->
  Sorted (ops_le localeCompare) out
  /\ ((forall a b c, localeCompare a b <= 0 -> localeCompare b c <= 0 ->
                     localeCompare a c <= 0) ->
      StronglySorted (ops_le localeCompare) out)
  /\ Forall (fun o => op_method o
                      ∈ ["GET"; "POST"; "PUT"; "PATCH"; "DELETE"; "OPTIONS"; "HEAD"])
       out
  /\ (exists found, collect_all spec = Some found /\ Permutation out found)
  /\ (localeCompare "/a" "/b" < 0 -> localeCompare "GET" "POST" < 0 ->
      option_map (map (fun o => (op_path o, op_method o)))
        (buildApiOperations localeCompare sorting_doc)
      = Some [("/a", "GET"); ("/a", "POST"); ("/b", "GET")]).
Proof.
  rewrite !buildApiOperations_collect. intros Hout.
  assert (Hsorted : Sorted (ops_le localeCompare) out).
  { destruct (collect_all spec) as [found|]; [|discriminate].
    injection Hout as <-.
    eapply Sorted_impl; [|apply sort_by_Sorted, compare_ops_total].
    intros a b. apply compare_ops_le. }
  split; [exact Hsorted|]. split; [|split; [|split]].
  - intros Htrans. apply Sorted_StronglySorted; [|exact Hsorted].
    intros a b c. now apply ops_le_trans.
  - apply Forall_forall. intros o Hin.
    destruct (collect_all spec) as [found|] eqn:E; [|discriminate].
    injection Hout as <-.
    rewrite (sort_by_perm (compare_ops localeCompare) found) in Hin.
    destruct (collect_all_make _ _ _ E Hin) as (m & p & op & ps & -> & Hm).
    cbn [op_method make_operation].
    repeat (apply elem_of_cons in Hm as [->|Hm];
            [apply list_elem_of_In; vm_compute; tauto|]).
    inversion Hm.
  - destruct (collect_all spec) as [found|]; [|discriminate].
    injection Hout as <-. exists found. split; [reflexivity|apply sort_by_perm].
  - intros Hab Hgp.
    pose proof (collation_neg _ _ Hab) as Hba.
    pose proof (collation_refl "/a") as Haa.
    destruct (collect_all sorting_doc) as [found|] eqn:E;
      vm_compute in E; [injection E as <-|discriminate].
    unfold sort_by, compare_ops.
    cbn [option_map foldr insert_sorted op_path op_method].
    rewrite Haa. cbn [Z.eqb].
    destruct (Z.leb_spec (localeCompare "GET" "POST") 0) as [_|?]; [|lia].
    cbn [insert_sorted op_path op_method].
    destruct (Z.eqb_spec (localeCompare "/b" "/a") 0) as [?|_]; [lia|].
    destruct (Z.leb_spec (localeCompare "/b" "/a") 0) as [?|_]; [lia|].
    reflexivity.
Qed.
End CollationFacts.

Lemma code_compare_antisym (a b : string) :
  Z.sgn (code_compare b a) = - Z.sgn (code_compare a b).
Proof.
  unfold code_compare. rewrite (String.compare_antisym a b).
  destruct (String.compare b a); reflexivity.
Qed.

Lemma catalog_make (localeCompare : string -> string -> Z) (spec : json)
    (out : list ApiOperation) (o : ApiOperation) :
  buildApiOperations localeCompare spec = Some out ->
  o ∈ out ->
  exists method path op params,
    o = make_operation spec method path op params /\ method ∈ http_methods.
Proof.
  rewrite buildApiOperations_collect.
  destruct (collect_all spec) as [found|] eqn:E; [|discriminate].
  simpl. intros [= <-] Hin.
  rewrite (sort_by_perm (compare_ops localeCompare) found) in Hin.
  eapply collect_all_make; eauto.
Qed.

(** Every operation of the catalog is made from the object that the
    document holds under one of the seven verbs of one of its paths, with
    the parameters of that path and of that object. *)
Lemma collect_methods_origin (spec : json) (path : string) (pathItem : json)
    (shared : list json) (methods : list string) :
  forall found o,
    collect_methods spec path pathItem shared methods = Some found ->
    o ∈ found ->
    exists method op resolved,
      method ∈ methods
      /\ get pathItem method = Some op
      /\ truthy op && is_object op = true
      /\ map_params spec (shared ++ array_or_nil (get op "parameters")) = Some resolved
      /\ o = make_operation spec method path op
               (filter (fun p => truthy (JStr (p_name p)) = true) resolved).
Proof.
  induction methods as [|method rest IH]; simpl; intros found o Hc Hin.
  - injection Hc as <-. inversion Hin.
  - assert (Hrest : forall found', collect_methods spec path pathItem shared rest
                                   = Some found' -> o ∈ found' ->
              exists method0 op resolved,
                method0 ∈ method :: rest
                /\ get pathItem method0 = Some op
                /\ truthy op && is_object op = true
                /\ map_params spec (shared ++ array_or_nil (get op "parameters"))
                   = Some resolved
                /\ o = make_operation spec method0 path op
                         (filter (fun p => truthy (JStr (p_name p)) = true) resolved)).
    { intros found' Hc' Hin'.
      destruct (IH found' o Hc' Hin') as (m & op' & rs & Hm & H).
      exists m, op', rs. split; [now right|exact H]. }
    destruct (get pathItem method) as [op|] eqn:Hget; [|now apply Hrest with found].
    destruct (truthy op && is_object op) eqn:Hobj; [|now apply Hrest with found].
    destruct (map_params spec _) as [resolved|] eqn:Hmap; [|discriminate].
    destruct (collect_methods spec path pathItem shared rest) as [ops|] eqn:E;
      [|discriminate].
    injection Hc as <-. apply elem_of_cons in Hin as [->|Hin].
    + exists method, op, resolved. split; [left|]. auto.
    + now apply Hrest with ops.
Qed.

Lemma collect_paths_origin (spec : json) (paths : obj) :
  forall found o,
    collect_paths spec paths = Some found ->
    o ∈ found ->
    exists path pathItem method op resolved,
      (path, pathItem) ∈ paths
      /\ truthy pathItem && is_object pathItem = true
      /\ method ∈ http_methods
      /\ get pathItem method = Some op
      /\ truthy op && is_object op = true
      /\ map_params spec (array_or_nil (get pathItem "parameters")
                            ++ array_or_nil (get op "parameters")) = Some resolved
      /\ o = make_operation spec method path op
               (filter (fun p => truthy (JStr (p_name p)) = true) resolved).
Proof.
  induction paths as [|[path pathItem] rest IH]; cbn [collect_paths];
    intros found o Hc Hin.
  - injection Hc as <-. inversion Hin.
  - assert (Hrest : forall found', collect_paths spec rest = Some found' -> o ∈ found' ->
              exists path0 pathItem0 method op resolved,
                (path0, pathItem0) ∈ (path, pathItem) :: rest
                /\ truthy pathItem0 && is_object pathItem0 = true
                /\ method ∈ http_methods
                /\ get pathItem0 method = Some op
                /\ truthy op && is_object op = true
                /\ map_params spec (array_or_nil (get pathItem0 "parameters")
                                      ++ array_or_nil (get op "parameters"))
                   = Some resolved
                /\ o = make_operation spec method path0 op
                         (filter (fun p => truthy (JStr (p_name p)) = true) resolved)).
    { intros found' Hc' Hin'.
      destruct (IH found' o Hc' Hin') as (p0 & pi & m & op & rs & Hp & H).
      exists p0, pi, m, op, rs. split; [now right|exact H]. }
    destruct (truthy pathItem && is_object pathItem) eqn:Hobj;
      [|now apply Hrest with found].
    destruct (collect_methods spec path pathItem _ http_methods) as [ops|] eqn:E;
      [|discriminate].
    destruct (collect_paths spec rest) as [more|]; [|discriminate].
    injection Hc as <-. apply elem_of_app in Hin as [Hin|Hin];
      [|now apply Hrest with more].
    destruct (collect_methods_origin _ _ _ _ _ _ _ E Hin)
      as (m & op & rs & Hm & Hg & Ho & Hmap & ->).
    exists path, pathItem, m, op, rs. split; [left|]. auto 10.
Qed.

Lemma catalog_origin (localeCompare : string -> string -> Z) (spec : json)
    (out : list ApiOperation) (o : ApiOperation) :
  buildApiOperations localeCompare spec = Some out ->
  o ∈ out ->
  exists paths path pathItem method op resolved,
    get spec "paths" = Some paths
    /\ truthy paths && is_object paths = true
    /\ (path, pathItem) ∈ entries paths
    /\ truthy pathItem && is_object pathItem = true
    /\ method ∈ http_methods
    /\ get pathItem method = Some op
    /\ truthy op && is_object op = true
    /\ map_params spec (array_or_nil (get pathItem "parameters")
                          ++ array_or_nil (get op "parameters")) = Some resolved
    /\ o = make_operation spec method path op
             (filter (fun p => truthy (JStr (p_name p)) = true) resolved).
Proof.
  unfold buildApiOperations.
  destruct (get spec "paths") as [paths|]; [|intros [= <-] Hin; inversion Hin].
  destruct (truthy paths && is_object paths) eqn:Hobj;
    [|intros [= <-] Hin; inversion Hin].
  destruct (collect_paths spec (entries paths)) as [found|] eqn:E; [|discriminate].
  intros [= <-] Hin.
  rewrite (sort_by_perm (compare_ops localeCompare) found) in Hin.
  destruct (collect_paths_origin _ _ _ _ E Hin)
    as (path & pathItem & m & op & rs & H).
  exists paths, path, pathItem, m, op, rs. auto.
Qed.

(** C6 (as it fails): the catalog is ordered by [localeCompare], the
    collation of the host, which does not order strings by their code
    units: a collation that looks at the letters without their case first
    puts the path [/a] before the path [/B], though in the lexicographic
    order of the code units [/B] comes before [/a]. *)
Lemma catalog_not_lexicographic :
  (forall a b, Z.sgn (letters_compare b a) = - Z.sgn (letters_compare a b))
  /\ option_map (map (fun o => (op_path o, op_method o)))
       (buildApiOperations letters_compare case_doc)
     = Some [("/a", "GET"); ("/B", "GET")]
  /\ code_compare "/B" "/a" < 0.
Proof.
  split; [|split; [vm_compute; reflexivity|reflexivity]].
  intros a b. unfold letters_compare.
  rewrite (String.compare_antisym (toUpperCase a) (toUpperCase b)).
  destruct (String.compare (toUpperCase b) (toUpperCase a)); simpl; try reflexivity.
  apply code_compare_antisym.
Qed.

Lemma catalog_sorted_witness :
  option_map (map (fun o => (op_path o, op_method o)))
    (buildApiOperations code_compare sorting_doc)
  = Some [("/a", "GET"); ("/a", "POST"); ("/b", "GET")].
Proof.
  destruct (buildApiOperations code_compare sorting_doc) as [out|] eqn:E;
    [|vm_compute in E; discriminate].
  rewrite <- E.
  apply (proj2 (proj2 (proj2 (proj2 (catalog_sorted code_compare code_compare_antisym
                                       sorting_doc out E)))));
    reflexivity.
Defined.

(** ** The composite input schema *)

Lemma put_lookup (k k' : string) (x : json) (o : filled) :
  k' <> "__proto__" ->
  olookup k' (own (put k x o))
  = if String.eqb k k' then Some x else olookup k' (own o).
Proof.
  intros Hk'. unfold put.
  destruct (String.eqb_spec k "__proto__") as [->|Hk]; cbn [negb orb].
  - destruct (shadows_proto o).
    + cbn [own]. apply olookup_oset.
    + destruct (String.eqb_spec "__proto__" k'); [congruence|]. now destruct x.
  - cbn [own]. apply olookup_oset.
Qed.

Lemma put_origin (k k' : string) (x v : json) (o : filled) :
  olookup k' (own (put k x o)) = Some v ->
  (k = k' /\ v = x) \/ olookup k' (own o) = Some v.
Proof.
  unfold put. destruct (negb (String.eqb k "__proto__") || shadows_proto o).
  - cbn [own]. rewrite olookup_oset.
    destruct (String.eqb_spec k k'); [intros [= <-]; auto|auto].
  - destruct x; auto.
Qed.

Lemma fill_lookup (k : string) (bindings : obj) (o : filled) :
  k <> "__proto__" ->
  olookup k (own (fill bindings o))
  = match olookup_last k bindings with
    | Some v => Some v
    | None => olookup k (own o)
    end.
Proof.
  intros Hk. unfold fill. revert o.
  induction bindings as [|[k' v] t IH]; intros o; [reflexivity|].
  cbn [fold_left olookup_last fst snd]. rewrite IH.
  destruct (olookup_last k t); [reflexivity|].
  rewrite (put_lookup _ _ _ _ Hk). now destruct (String.eqb k' k).
Qed.

Lemma fill_origin (k : string) (v : json) (bindings : obj) (o : filled) :
  olookup k (own (fill bindings o)) = Some v ->
  (k, v) ∈ bindings \/ olookup k (own o) = Some v.
Proof.
  unfold fill. revert o.
  induction bindings as [|[k' v'] t IH]; intros o; [now right|].
  cbn [fold_left fst snd]. intros H.
  destruct (IH _ H) as [Hin|Hput]; [left; now right|].
  destruct (put_origin _ _ _ _ _ Hput) as [[-> ->]|Ho]; [left; left|now right].
Qed.

Lemma param_loop_spec (params : list ApiOperationParam) :
  forall properties required,
    param_loop params properties required
    = (fill (map param_entry params) properties,
       required ++ map p_name (filter (fun p => p_required p = true) params)).
Proof.
  induction params as [|p rest IH]; intros properties required.
  - simpl. now rewrite app_nil_r.
  - cbn [param_loop map]. rewrite IH. f_equal.
    rewrite filter_cons. case_decide as Hreq.
    + rewrite Hreq. simpl. now rewrite <- app_assoc.
    + destruct (p_required p); [congruence|reflexivity].
Qed.

Lemma buildParameterSchema_shape (params : list ApiOperationParam) :
  buildParameterSchema params
  = JObj [("type", JStr "object");
          ("properties", JObj (own (fill (map param_entry params) empty_object)));
          ("required",
           JArr (map JStr (map p_name (filter (fun p => p_required p = true) params))))].
Proof.
  unfold buildParameterSchema. now rewrite param_loop_spec.
Qed.

Lemma olookup_last_elem (k : string) (v : json) (o : obj) :
  (k, v) ∈ o -> exists v', olookup_last k o = Some v'.
Proof.
  induction o as [|[k' v'] t IH]; intros Hin; [inversion Hin|].
  simpl. apply elem_of_cons in Hin as [[= <- <-]|Hin].
  - destruct (olookup_last k t); [eauto|]. rewrite String.eqb_refl. eauto.
  - destruct (IH Hin) as [x ->]. eauto.
Qed.

Lemma composite_shape (op : ApiOperation) :
  let pathParams := filter (fun p => p_in p = "path") (op_parameters op) in
  let queryParams := filter (fun p => p_in p = "query") (op_parameters op) in
  let with_body :=
    truthy (op_requestBodySchema op)
    && bool_decide (op_requestContentType op = Some "application/json") in
  exists properties required,
    buildApiInputCompositeSchema (Some op)
    = Some (JObj [("type", JStr "object");
                  ("properties", JObj properties);
                  ("required", JArr (map JStr required))])
    /\ olookup "path_params" properties
       = match pathParams with
         | [] => None
         | _ => Some (buildParameterSchema pathParams)
         end
    /\ olookup "query_params" properties
       = match queryParams with
         | [] => None
         | _ => Some (buildParameterSchema queryParams)
         end
    /\ olookup "body" properties
       = (if with_body then Some (op_requestBodySchema op) else None)
    /\ required
       = match pathParams with [] => [] | _ => ["path_params"] end
         ++ (if with_body && op_requestBodyRequired op then ["body"] else []).
Proof.
  intros pathParams queryParams with_body.
  unfold buildApiInputCompositeSchema.
  fold pathParams queryParams with_body.
  destruct pathParams as [|pp pps], queryParams as [|qp qps], with_body,
    (op_requestBodyRequired op);
    eexists _, _; (split; [reflexivity|]); repeat split; reflexivity.
Qed.

(** C4 (as it fails): for the operation with one required path parameter
    [id], one optional query parameter [q] and no body, the synthesized
    schema does have a [query_params] entry, and it describes [q]. *)
Lemma composite_keeps_optional_query :
  buildApiInputCompositeSchema (Some id_and_q)
  = Some (JObj
      [("type", JStr "object");
       ("properties",
        JObj [("path_params",
               JObj [("type", JStr "object");
                     ("properties", JObj [("id", JObj [("type", JStr "integer")])]);
                     ("required", JArr [JStr "id"])]);
              ("query_params",
               JObj [("type", JStr "object");
                     ("properties", JObj [("q", JObj [("type", JStr "string")])]);
                     ("required", JArr [])])]);
       ("required", JArr [JStr "path_params"])])
  /\ match buildApiInputCompositeSchema (Some id_and_q) with
     | Some composite => get2 composite "properties" "query_params"
     | None => None
     end <> None.
Proof.
  split; [reflexivity|]. vm_compute. discriminate.
Qed.

(** C4 (amended): the synthesized schema has a [query_params] sub-schema
    exactly when the operation has a query parameter, required or not; for
    every query parameter whose name is not [__proto__] it holds the schema
    of that parameter (of the last one of a repeated name), it holds nothing
    but schemas of query parameters under their names, and its [required]
    array lists the required ones in order.  An operation without any query
    parameter gets no [query_params] key. *)
Theorem composite_query_params (op : ApiOperation) :
  let queryParams := filter (fun p => p_in p = "query") (op_parameters op) in
  exists properties required props,
    buildApiInputCompositeSchema (Some op)
    = Some (JObj [("type", JStr "object");
                  ("properties", JObj properties);
                  ("required", JArr (map JStr required))])
    /\ (queryParams = [] -> olookup "query_params" properties = None)
    /\ (queryParams <> [] ->
        olookup "query_params" properties
        = Some (JObj [("type", JStr "object");
                      ("properties", JObj props);
                      ("required",
                       JArr (map JStr
                               (map p_name
                                  (filter (fun p => p_required p = true) queryParams))))]))
    /\ (forall p, p ∈ queryParams -> p_name p <> "__proto__" ->
          exists v, olookup (p_name p) props = Some v)
    /\ (forall name, name <> "__proto__" ->
          olookup name props = olookup_last name (map param_entry queryParams))
    /\ (forall name v, olookup name props = Some v ->
          exists p, p ∈ queryParams /\ param_entry p = (name, v)).
Proof.
  intros queryParams.
  destruct (composite_shape op) as (properties & required & Hb & _ & Hq & _).
  cbv zeta in Hq. fold queryParams in Hq.
  exists properties, required,
    (own (fill (map param_entry queryParams) empty_object)).
  split; [exact Hb|].
  assert (Hl : forall name, name <> "__proto__" ->
             olookup name (own (fill (map param_entry queryParams) empty_object))
             = olookup_last name (map param_entry queryParams)).
  { intros name Hname. rewrite (fill_lookup _ _ _ Hname).
    now destruct (olookup_last name _). }
  split; [|split; [|split; [|split]]].
  - intros E. now rewrite E in Hq.
  - intros Hne. rewrite Hq. destruct queryParams; [contradiction|].
    now rewrite buildParameterSchema_shape.
  - intros p Hin Hname. rewrite (Hl _ Hname).
    apply (olookup_last_elem _ (snd (param_entry p))).
    apply list_elem_of_In, (in_map param_entry), list_elem_of_In in Hin.
    exact Hin.
  - exact Hl.
  - intros name v Hv. apply fill_origin in Hv as [Hin|Hv]; [|discriminate].
    apply list_elem_of_In, in_map_iff in Hin as (p & Hp & Hin).
    apply list_elem_of_In in Hin. eauto.
Qed.

Lemma composite_query_params_witness :
  exists properties,
    buildApiInputCompositeSchema (Some id_and_q)
    = Some (JObj [("type", JStr "object");
                  ("properties", JObj properties);
                  ("required", JArr [JStr "path_params"])])
    /\ olookup "query_params" properties
       = Some (JObj [("type", JStr "object");
                     ("properties", JObj [("q", JObj [("type", JStr "string")])]);
                     ("required", JArr [])]).
Proof.
  destruct (composite_query_params id_and_q)
    as (properties & required & props & Hb & _ & Hq & _ & _).
  exists properties. simpl in Hb. injection Hb as <- _.
  split; reflexivity.
Defined.

(** ** The request body of an operation *)

(** C5 (as it fails): an operation whose only request body is
    [text/plain] carries a resolved, non-null body schema; and a content
    map that lists [application/json] with a [null] entry after
    [text/plain] gets [text/plain]. *)
Lemma non_json_body_schema_resolved :
  option_map (map (fun o => (op_id o, op_requestContentType o, op_requestBodySchema o)))
    (buildApiOperations code_compare text_body_doc)
  = Some [("POST /notes", Some "text/plain", JObj [("type", JStr "string")])]
  /\ olookup "application/json" (entries null_json_content) = Some JNull
  /\ choose_content_type null_json_content = Some "text/plain".
Proof.
  split; [|split]; vm_compute; reflexivity.
Qed.

(** C5 (amended): every operation of the catalog comes from the object
    [op] that the document holds under its verb in its path.  Its request
    content type is ['application/json'] when the content map of [op] has a
    truthy entry under that key, otherwise the first key of the content map
    (if it is a non-empty string), otherwise none; its request-body schema
    is the resolution of the chosen content type's schema whatever that type
    is, and [null] when no type is chosen or it has no schema; only the
    composite input schema restricts the body to ['application/json'].
    (Stated for documents whose pointers the model follows to their end.) *)
Theorem request_body_choice (localeCompare : string -> string -> Z) (spec : json)
    (out : list ApiOperation) (o : ApiOperation) :
  buildApiOperations localeCompare spec = Some out ->
  o ∈ out ->
  pointers_followed spec JNull ->
  exists paths path pathItem method op properties required,
    get spec "paths" = Some paths
    /\ (path, pathItem) ∈ entries paths
    /\ method ∈ http_methods
    /\ get pathItem method = Some op
    /\ op_path o = path
    /\ op_method o = toUpperCase method
    /\ op_id o = toUpperCase method +:+ " " +:+ path
    /\ (otruthy (get (request_content op) "application/json") = true ->
        op_requestContentType o = Some "application/json")
    /\ (otruthy (get (request_content op) "application/json") = false ->
        op_requestContentType o
        = match map fst (entries (request_content op)) with
          | k :: _ => if String.eqb k EmptyString then None else Some k
          | [] => None
          end)
    /\ op_requestBodySchema o
       = match op_requestContentType o with
         | Some t =>
             resolveSchema_fresh
               (or_else (get2 (request_content op) t "schema") JNull) spec
         | None => JNull
         end
    /\ buildApiInputCompositeSchema (Some o)
       = Some (JObj [("type", JStr "object");
                     ("properties", JObj properties);
                     ("required", JArr (map JStr required))])
    /\ olookup "body" properties
       = (if truthy (op_requestBodySchema o)
             && bool_decide (op_requestContentType o = Some "application/json")
          then Some (op_requestBodySchema o) else None).
Proof.
  intros Hout Hin _.
  destruct (catalog_origin _ _ _ _ Hout Hin)
    as (paths & path & pathItem & method & op & resolved
        & Hpaths & _ & Hpath & _ & Hm & Hget & _ & _ & ->).
  destruct (composite_shape
              (make_operation spec method path op
                 (filter (fun p => truthy (JStr (p_name p)) = true) resolved)))
    as (properties & required & Hb & _ & _ & Hbody & _).
  exists paths, path, pathItem, method, op, properties, required.
  split; [exact Hpaths|]. split; [exact Hpath|]. split; [exact Hm|].
  split; [exact Hget|]. split; [reflexivity|]. split; [reflexivity|].
  split; [reflexivity|]. split; [|split; [|split; [|split]]].
  - intros Ht. simpl. unfold choose_content_type. now rewrite Ht.
  - intros Ht. simpl. unfold choose_content_type. rewrite Ht.
    destruct (map fst (entries (request_content op))) as [|k ks]; [reflexivity|].
    simpl. now destruct (String.eqb k EmptyString).
  - reflexivity.
  - exact Hb.
  - exact Hbody.
Qed.

Lemma request_body_choice_witness :
  exists o,
    option_map (map op_id) (buildApiOperations code_compare text_body_doc)
    = Some [op_id o]
    /\ op_requestContentType o = Some "text/plain"
    /\ op_requestBodySchema o = JObj [("type", JStr "string")]
    /\ buildApiInputCompositeSchema (Some o)
       = Some (JObj [("type", JStr "object");
                     ("properties", JObj []);
                     ("required", JArr [])]).
Proof.
  destruct (buildApiOperations code_compare text_body_doc) as [out|] eqn:E;
    [|vm_compute in E; discriminate].
  assert (Hout := E). vm_compute in E. injection E as E.
  assert (Hin : hd id_and_q out ∈ out) by (rewrite <- E; left).
  assert (Hfollowed : pointers_followed text_body_doc JNull).
  { apply (bool_decide_unpack _). vm_compute. exact I. }
  destruct (request_body_choice code_compare text_body_doc out _ Hout Hin Hfollowed)
    as (paths & path & pathItem & method & op & properties & required & Ho & _).
  exists (hd id_and_q out). rewrite <- E. simpl. repeat split; reflexivity.
Defined.

(** ** The debug HTTP wrapper *)

Lemma prefix_append (a b : string) : String.prefix a (a +:+ b) = true.
Proof.
  induction a as [|c a IH]; simpl.
  - now destruct b.
  - destruct (ascii_dec c c); [exact IH|contradiction].
Qed.

Lemma prefix_refl (a : string) : String.prefix a a = true.
Proof.
  induction a as [|c a IH]; simpl; [reflexivity|].
  destruct (ascii_dec c c); [exact IH|contradiction].
Qed.

Section FetchFacts.
Variable JSON_parse : string -> option json.

(** C8 (amended): a response whose status is outside 200..299 never
    fulfils the promise, and an error it is rejected with has a message
    that starts with [HTTP <status> <statusText>].  The message stops there
    for an empty body.  Otherwise it continues with a colon and: the body
    text, when the body is not JSON; the string, when the body is a JSON
    string (nothing is added for the empty string); the text of the
    [detail] field, when the body is other JSON with a truthy [detail] that
    converts to text (its numbers being safe integers); the body text, when the body is other JSON without a
    [detail] field or with a falsy one.  A response with a status in
    200..299 does not throw: the promise is fulfilled with the parsed
    body. *)
Theorem debugFetch_settles (res : Response) :
  (ok res = true <-> 200 <= status res <= 299)
  /\ (ok res = false ->
      let line := "HTTP " +:+ show_Z (status res) +:+ " " +:+ statusText res in
      (forall value, debugFetch JSON_parse res <> Fulfilled value)
      /\ (forall message,
            debugFetch JSON_parse res = Rejected message ->
            String.prefix line message = true)
      /\ (text res = EmptyString -> debugFetch JSON_parse res = Rejected line)
      /\ (text res <> EmptyString ->
          (JSON_parse (text res) = None ->
           debugFetch JSON_parse res = Rejected (line +:+ ": " +:+ text res))
          /\ (forall s,
                JSON_parse (text res) = Some (JStr s) ->
                debugFetch JSON_parse res
                = Rejected (if String.eqb s EmptyString then line
                            else line +:+ ": " +:+ s))
          /\ (forall v d,
                JSON_parse (text res) = Some v ->
                (forall s, v <> JStr s) ->
                get v "detail" = Some d ->
                truthy d = true ->
                stringable d = true ->
                safe_numbers d = true ->
                debugFetch JSON_parse res = Rejected (line +:+ ": " +:+ to_string d)
                /\ (forall s, d = JStr s ->
                      debugFetch JSON_parse res = Rejected (line +:+ ": " +:+ s)))
          /\ (forall v,
                JSON_parse (text res) = Some v ->
                (forall s, v <> JStr s) ->
                otruthy (get v "detail") = false ->
                debugFetch JSON_parse res = Rejected (line +:+ ": " +:+ text res))))
  /\ (ok res = true ->
      debugFetch JSON_parse res = Fulfilled (parse JSON_parse (text res))).
Proof.
  split; [|split].
  - unfold ok. rewrite andb_true_iff, !Z.leb_le. reflexivity.
  - intros Hok line. unfold debugFetch. rewrite Hok. cbn [negb].
    fold (status_line res). change (status_line res) with line.
    split; [|split; [|split; [|intros Htext; split; [|split; [|split]]]]].
    + intros value. destruct (truthy _); [destruct (ToString _)|]; discriminate.
    + intros message.
      destruct (truthy _); [destruct (ToString _) as [d|]|]; try discriminate.
      * intros [= <-]. apply prefix_append.
      * intros [= <-]. apply prefix_refl.
    + intros ->. reflexivity.
    + assert (Ht : truthy (JStr (text res)) = true).
      { simpl. now apply negb_true_iff, String.eqb_neq. }
      intros Hp. unfold parse. rewrite Ht, Hp. cbn [detail_of]. now rewrite Ht.
    + assert (Ht : truthy (JStr (text res)) = true).
      { simpl. now apply negb_true_iff, String.eqb_neq. }
      intros s0 Hp. unfold parse. rewrite Ht, Hp. cbn [detail_of truthy].
      now destruct (String.eqb s0 EmptyString).
    + assert (Ht : truthy (JStr (text res)) = true).
      { simpl. now apply negb_true_iff, String.eqb_neq. }
      intros v d Hp Hv Hd Hd' Hs _. unfold parse. rewrite Ht, Hp.
      assert (E : detail_of v (text res) = d).
      { destruct v; try (exfalso; eapply Hv; reflexivity);
          unfold detail_of; rewrite Hd; cbn [or_else]; now rewrite Hd'. }
      rewrite E, Hd'. unfold ToString. rewrite Hs.
      split; [reflexivity|]. now intros s0 ->.
    + assert (Ht : truthy (JStr (text res)) = true).
      { simpl. now apply negb_true_iff, String.eqb_neq. }
      intros v Hp Hv Hd. unfold parse. rewrite Ht, Hp.
      assert (E : detail_of v (text res) = JStr (text res)).
      { destruct v; try (exfalso; eapply Hv; reflexivity);
          unfold detail_of; destruct (get _ "detail") as [d|]; cbn [or_else otruthy] in *;
          try reflexivity; now rewrite Hd. }
      rewrite E, Ht. reflexivity.
  - intros Hok. unfold debugFetch. now rewrite Hok.
Qed.
End FetchFacts.

(** C8 (as it fails): the body of a failed request is JSON with the
    [detail] field [0]; the message does not carry that detail after the
    colon but the whole body text. *)
Lemma debugFetch_falsy_detail :
  sample_parse (text zero_detail) = Some (JObj [("detail", JNum 0)])
  /\ debugFetch sample_parse zero_detail
     = Rejected ("HTTP 400 Bad Request: {" +:+ dq +:+ "detail" +:+ dq +:+ ": 0}")
  /\ debugFetch sample_parse zero_detail <> Rejected "HTTP 400 Bad Request: 0".
Proof.
  split; [reflexivity|]. split; [reflexivity|]. vm_compute. discriminate.
Qed.

Lemma debugFetch_settles_witness :
  debugFetch sample_parse unauthorized
  = Rejected "HTTP 401 Unauthorized: bad token"
  /\ debugFetch sample_parse (mkResponse 200 "OK" (text unauthorized))
     = Fulfilled (JObj [("detail", JStr "bad token")]).
Proof.
  split.
  - destruct (proj1 (proj2 (debugFetch_settles sample_parse unauthorized)) eq_refl)
      as (_ & _ & _ & H).
    assert (Hne : text unauthorized <> EmptyString) by discriminate.
    destruct (H Hne) as (_ & _ & Hd & _).
    assert (Hv : forall s, JObj [("detail", JStr "bad token")] <> JStr s)
      by discriminate.
    destruct (Hd (JObj [("detail", JStr "bad token")]) (JStr "bad token")
                eq_refl Hv eq_refl eq_refl eq_refl eq_refl) as [-> _].
    reflexivity.
  - rewrite (proj2 (proj2 (debugFetch_settles sample_parse
                             (mkResponse 200 "OK" (text unauthorized)))) eq_refl).
    reflexivity.
Defined.

(** ** Sorted arrangements are unique *)

Section SortUnique.
Context {A : Type}.
Variable cmp : A -> A -> Z.
Hypothesis cmp_total : forall a b, 0 < cmp a b -> cmp b a <= 0.
Hypothesis cmp_trans : forall a b c, cmp a b <= 0 -> cmp b c <= 0 -> cmp a c <= 0.
Hypothesis cmp_antisym : forall a b, cmp a b <= 0 -> cmp b a <= 0 -> a = b.

Lemma cmp_refl (a : A) : cmp a a <= 0.
Proof.
  destruct (Z.le_gt_cases (cmp a a) 0) as [H|H]; [exact H|].
  now apply cmp_total.
Qed.

Lemma strongly_sorted_unique (l1 l2 : list A) :
  StronglySorted (fun u v => cmp u v <= 0) l1 ->
  StronglySorted (fun u v => cmp u v <= 0) l2 ->
  Permutation l1 l2 -> l1 = l2.
Proof.
  revert l2. induction l1 as [|a t1 IH]; intros l2 S1 S2 P.
  - now apply Permutation_nil in P.
  - destruct l2 as [|b t2]; [now apply Permutation_sym, Permutation_nil in P|].
    inversion S1 as [|? ? S1' F1]; subst.
    inversion S2 as [|? ? S2' F2]; subst.
    rewrite Forall_forall in F1, F2.
    assert (Hab : cmp a b <= 0).
    { assert (Hin : b ∈ a :: t1) by (rewrite P; left).
      apply elem_of_cons in Hin as [->|Hin]; [apply cmp_refl|now apply F1]. }
    assert (Hba : cmp b a <= 0).
    { assert (Hin : a ∈ b :: t2) by (rewrite <- P; left).
      apply elem_of_cons in Hin as [->|Hin]; [apply cmp_refl|now apply F2]. }
    assert (a = b) as -> by now apply cmp_antisym.
    f_equal. apply IH; [assumption|assumption|].
    now apply Permutation_cons_inv in P.
Qed.

Lemma sort_by_strongly_sorted (l : list A) :
  StronglySorted (fun u v => cmp u v <= 0) (sort_by cmp l).
Proof.
  apply Sorted_StronglySorted.
  - intros a b c. apply cmp_trans.
  - now apply sort_by_Sorted.
Qed.

Lemma sort_by_permutation_eq (l1 l2 : list A) :
  Permutation l1 l2 -> sort_by cmp l1 = sort_by cmp l2.
Proof.
  intros P. apply strongly_sorted_unique; try apply sort_by_strongly_sorted.
  now rewrite !sort_by_perm.
Qed.
End SortUnique.

Lemma code_compare_le (a b : string) :
  code_compare a b <= 0 <-> a = b \/ String_as_OT.lt a b.
Proof.
  unfold code_compare. destruct (String.compare a b) eqn:E.
  - apply String.compare_eq_iff in E. intuition lia.
  - apply String_as_OT.cmp_lt in E. intuition lia.
  - split; [lia|]. intros [->|H].
    + assert (String.compare b b = Eq) as E' by now apply String_as_OT.cmp_eq.
      congruence.
    + apply String_as_OT.cmp_lt in H. unfold String_as_OT.cmp in H. congruence.
Qed.

Lemma code_compare_total (a b : string) :
  0 < code_compare a b -> code_compare b a <= 0.
Proof.
  pose proof (code_compare_antisym a b) as E. intros H.
  destruct (code_compare a b), (code_compare b a); simpl in *; lia.
Qed.

Lemma code_compare_trans (a b c : string) :
  code_compare a b <= 0 -> code_compare b c <= 0 -> code_compare a c <= 0.
Proof.
  intros H1 H2. apply code_compare_le in H1, H2. apply code_compare_le.
  destruct H1 as [->|Hab], H2 as [->|Hbc]; auto.
  right. eapply String_as_OT.lt_trans; eauto.
Qed.

Lemma code_compare_antisym_eq (a b : string) :
  code_compare a b <= 0 -> code_compare b a <= 0 -> a = b.
Proof.
  intros H1 H2. apply code_compare_le in H1, H2.
  destruct H1 as [->|Hab], H2 as [Heq|Hba]; auto.
  exfalso. pose proof (String_as_OT.lt_trans _ _ _ Hab Hba) as H.
  apply String_as_OT.lt_not_eq in H. apply H. reflexivity.
Qed.

(** ** Saving a recommendation result once *)

Lemma save_known_id (p : Props) (now : Z) (added : bool)
    (restaurants : list Restaurant) (st : Store) :
  resultId now restaurants ∈ savedRecommendationIds st ->
  saveRecommendationResult p now added restaurants st = st.
Proof.
  intros Hin. unfold saveRecommendationResult, begin_save.
  destruct (negb (configured p)); [reflexivity|].
  destruct (decide (resultId now restaurants ∈ savedRecommendationIds st));
    [reflexivity|contradiction].
Qed.

(** C9 (as it fails): an empty result does not get the sorted join of its
    (no) restaurant ids as identifier but [empty-<time>], and two calls with
    the same empty result at different times both persist a message. *)
Lemma empty_result_saved_twice :
  let once := saveRecommendationResult chat_props 1 true [] empty_store in
  let twice := saveRecommendationResult chat_props 2 true [] once in
  resultId 1 [] = "empty-1"
  /\ resultId 1 [] <> sorted_join []
  /\ messages once = [("No recommendations found", [])]
  /\ messages twice = [("No recommendations found", []);
                       ("No recommendations found", [])]
  /\ savedRecommendationIds twice <> savedRecommendationIds once.
Proof.
  cbv zeta. repeat split; try (vm_compute; reflexivity); vm_compute; discriminate.
Qed.

(** Two calls that overlap, the second one starting while the first one
    still awaits [addMessage]: both pass the test and both persist. *)
Lemma overlapping_saves_persist_twice :
  exists pending1 pending2,
    begin_save chat_props 10 two_places empty_store = Some pending1
    /\ begin_save chat_props 20 two_places empty_store = Some pending2
    /\ length (messages (finish_save true pending2
                           (finish_save true pending1 empty_store))) = 2%nat.
Proof.
  eexists _, _. split; [reflexivity|]. split; reflexivity.
Qed.

(** C9 (amended): for a result with at least one restaurant the identifier
    is the sorted join of the restaurants' ids (names where the id is absent
    or empty), so it does not depend on the time nor on the order of the
    restaurants; once a call for such a result has persisted it, a later
    call whose result yields the same identifier persists nothing: the set
    of saved identifiers and the stored messages are unchanged. *)
Theorem save_once (p : Props) (now1 now2 : Z) (added2 : bool)
    (rs1 rs2 : list Restaurant) (st : Store) :
  rs1 <> [] ->
  configured p = true ->
  Permutation (map id_or_name rs1) (map id_or_name rs2) ->
  let st1 := saveRecommendationResult p now1 true rs1 st in
  resultId now1 rs1 = sorted_join rs1
  /\ resultId now2 rs2 = resultId now1 rs1
  /\ resultId now1 rs1 ∈ savedRecommendationIds st1
  /\ (resultId now1 rs1 ∉ savedRecommendationIds st ->
      messages st1 = messages st ++ [(textContent rs1, rs1)])
  /\ saveRecommendationResult p now2 added2 rs2 st1 = st1
  /\ (forall now rs added,
        resultId now rs = resultId now1 rs1 ->
        saveRecommendationResult p now added rs st1 = st1).
Proof.
  intros Hne Hconf Hperm st1.
  assert (Hid1 : resultId now1 rs1 = sorted_join rs1).
  { destruct rs1; [contradiction|reflexivity]. }
  assert (Hne2 : rs2 <> []).
  { intros ->. destruct rs1; [contradiction|].
    now apply Permutation_sym, Permutation_nil in Hperm. }
  assert (Hid2 : resultId now2 rs2 = resultId now1 rs1).
  { rewrite Hid1. destruct rs2; [contradiction|].
    unfold resultId, sorted_join. f_equal.
    apply (sort_by_permutation_eq code_compare code_compare_total
             code_compare_trans code_compare_antisym_eq).
    now symmetry. }
  assert (Hsaved : resultId now1 rs1 ∈ savedRecommendationIds st1).
  { subst st1. unfold saveRecommendationResult, begin_save. rewrite Hconf. simpl.
    destruct (decide (resultId now1 rs1 ∈ savedRecommendationIds st)); [assumption|].
    simpl. set_solver. }
  split; [exact Hid1|]. split; [exact Hid2|]. split; [exact Hsaved|].
  split; [|split].
  - intros Hnew. subst st1. unfold saveRecommendationResult, begin_save.
    rewrite Hconf. simpl.
    destruct (decide (resultId now1 rs1 ∈ savedRecommendationIds st));
      [contradiction|reflexivity].
  - apply save_known_id. now rewrite Hid2.
  - intros now rs added Hsame. apply save_known_id. now rewrite Hsame.
Qed.

Lemma save_once_witness :
  let st1 := saveRecommendationResult chat_props 10 true two_places empty_store in
  resultId 10 two_places = "Alpha,r2"
  /\ saveRecommendationResult chat_props 20 true two_places_swapped st1 = st1.
Proof.
  cbv zeta.
  destruct (save_once chat_props 10 20 true two_places two_places_swapped empty_store)
    as (Hid & _ & _ & _ & Hnoop & _).
  - discriminate.
  - reflexivity.
  - apply perm_swap.
  - split; [rewrite Hid; reflexivity|exact Hnoop].
Defined.

(** * Further properties of the code *)

Import View Playground DebugRequests ChatAux Plain MoreSamples.

(** ** The structured value view *)

Lemma length_app_string (a b : string) :
  String.length (a +:+ b) = (String.length a + String.length b)%nat.
Proof. induction a as [|c a IH]; simpl; [reflexivity|]. now rewrite IH. Qed.

Lemma length_substring_0 (n : nat) (s : string) :
  (n <= String.length s)%nat -> String.length (String.substring 0 n s) = n.
Proof.
  revert s. induction n as [|n IH]; intros s Hle.
  - now destruct s.
  - destruct s as [|c s]; simpl in *; [lia|]. rewrite IH; [reflexivity|lia].
Qed.

Lemma prefix_substring_0 (n : nat) (s : string) :
  String.prefix (String.substring 0 n s) s = true.
Proof.
  revert s. induction n as [|n IH]; intros s.
  - now destruct s.
  - destruct s as [|c s]; simpl; [reflexivity|].
    destruct (ascii_dec c c); [apply IH|contradiction].
Qed.

(** X1: the text [describeValue] shows for a string never has more than
    120 characters: a string of at most 120 characters is shown as it is, a
    longer one as its first 117 characters followed by three dots, 120
    characters in all. *)
Theorem describeValue_string_bound (s : string) :
  (String.length (describeValue (Some (JStr s))) <= 120)%nat
  /\ ((String.length s <= 120)%nat -> describeValue (Some (JStr s)) = s)
  /\ ((120 < String.length s)%nat ->
      describeValue (Some (JStr s)) = String.substring 0 117 s +:+ "..."
      /\ String.length (describeValue (Some (JStr s))) = 120%nat
      /\ String.prefix (String.substring 0 117 s) s = true).
Proof.
  unfold describeValue.
  destruct (Nat.ltb_spec 120 (String.length s)) as [Hlong|Hshort].
  - assert (Hlen : String.length (String.substring 0 117 s +:+ "...") = 120%nat).
    { rewrite length_app_string, length_substring_0 by lia. reflexivity. }
    split; [lia|]. split; [lia|]. intros _.
    split; [reflexivity|]. split; [exact Hlen|apply prefix_substring_0].
  - split; [exact Hshort|]. split; [reflexivity|lia].
Qed.

Lemma describeValue_string_bound_witness :
  describeValue (Some (JStr "short")) = "short".
Proof.
  apply (proj1 (proj2 (describeValue_string_bound "short"))).
  simpl. lia.
Defined.

Lemma render_array_eq (l : list json) (depth : nat) :
  l <> [] ->
  renderStructuredValue (JArr l) depth
  = Tree false (item_rows (fun x => renderStructuredValue x (S depth)) 8 0 l
                ++ more_row l).
Proof.
  intros Hne.
  destruct l as [|x0 [|x1 [|x2 [|x3 [|x4 [|x5 [|x6 [|x7 t]]]]]]]];
    try contradiction; reflexivity.
Qed.

Lemma item_rows_length (render : json -> view) (n idx : nat) (l : list json) :
  length (item_rows render n idx l) = Nat.min n (length l).
Proof.
  revert idx l. induction n as [|n IH]; intros idx l; [reflexivity|].
  destruct l as [|x t]; [reflexivity|]. simpl. now rewrite IH.
Qed.

Lemma item_rows_lookup (render : json -> view) (n idx : nat) (l : list json)
    (i : nat) (x : json) :
  (i < n)%nat -> l !! i = Some x ->
  item_rows render n idx l !! i
  = Some ("[" +:+ index_key (idx + i) +:+ "]", render x).
Proof.
  revert idx l i. induction n as [|n IH]; intros idx l i Hi Hl; [lia|].
  destruct l as [|y t]; [discriminate|].
  destruct i as [|i]; simpl in *.
  - injection Hl as ->. now rewrite Nat.add_0_r.
  - rewrite (IH (S idx) t i); [|lia|exact Hl].
    now replace (S idx + i)%nat with (idx + S i)%nat by lia.
Qed.

(** X2: a non-empty array is shown as a tree with one row per item for the
    first eight items, each labelled with its index in brackets and holding
    the view of the item one level deeper, and, when the array has more
    than eight items, one more row that says how many are left out; so an
    array never takes more than nine rows. *)
Theorem render_array_rows (l : list json) (depth : nat) :
  l <> [] ->
  exists rows,
    renderStructuredValue (JArr l) depth = Tree false rows
    /\ length rows = (Nat.min 8 (length l) + (if (8 <? length l)%nat then 1 else 0))%nat
    /\ (length rows <= 9)%nat
    /\ (forall i x, (i < 8)%nat -> l !! i = Some x ->
          rows !! i = Some ("[" +:+ index_key i +:+ "]",
                            renderStructuredValue x (S depth)))
    /\ ((8 < length l)%nat ->
        rows !! 8%nat
        = Some ("...", Leaf (index_key (length l - 8) +:+ " more items"))).
Proof.
  intros Hne. eexists. split; [now apply render_array_eq|].
  set (items := item_rows (fun x => renderStructuredValue x (S depth)) 8 0 l).
  assert (Hlen : length items = Nat.min 8 (length l)) by apply item_rows_length.
  assert (Hmore : length (more_row l) = if (8 <? length l)%nat then 1%nat else 0%nat).
  { unfold more_row. now destruct (8 <? length l)%nat. }
  split; [|split; [|split]].
  - now rewrite length_app, Hlen, Hmore.
  - rewrite length_app, Hlen, Hmore. destruct (8 <? length l)%nat; lia.
  - intros i x Hi Hl. rewrite lookup_app_l.
    + subst items. now rewrite (item_rows_lookup _ 8 0 l i x Hi Hl).
    + rewrite Hlen. apply lookup_lt_Some in Hl. lia.
  - intros Hlong. rewrite lookup_app_r by (rewrite Hlen; lia).
    rewrite Hlen. replace (8 - Nat.min 8 (length l))%nat with 0%nat by lia.
    unfold more_row. destruct (Nat.ltb_spec 8 (length l)); [reflexivity|lia].
Qed.

Lemma render_array_rows_witness :
  exists rows,
    renderStructuredValue (JArr [JNum 1; JStr "a"]) 0 = Tree false rows
    /\ length rows = 2%nat.
Proof.
  destruct (render_array_rows [JNum 1; JStr "a"] 0) as (rows & H & Hlen & _).
  - discriminate.
  - exists rows. split; [exact H|exact Hlen].
Defined.

Lemma render_object_eq (o : obj) (depth : nat) :
  o <> [] ->
  renderStructuredValue (JObj o) depth
  = Tree (0 <? depth)%nat (map (fun kv => (fst kv, entry_view depth (snd kv))) o).
Proof.
  intros Hne. destruct o as [|[k v] t]; [contradiction|].
  cbn [renderStructuredValue map fst snd]. unfold entry_view. f_equal. f_equal.
  clear Hne. induction t as [|[k' v'] t IH]; [reflexivity|].
  cbn [map fst snd]. f_equal. exact IH.
Qed.

Lemma json_size_ind (P : json -> Prop) :
  (forall v, (forall w, (nodes w < nodes v)%nat -> P w) -> P v) ->
  forall v, P v.
Proof.
  intros Hstep v. remember (nodes v) as n eqn:Hn.
  revert v Hn. induction n as [n IH] using lt_wf_ind.
  intros v ->. apply Hstep. intros w Hw. eapply IH; eauto.
Qed.

Lemma render_array_free_height (v : json) :
  forall depth, array_free v = true ->
    (height (renderStructuredValue v depth) + Nat.min depth 2 <= 3)%nat.
Proof.
  induction v as [v IH] using json_size_ind. intros depth Hfree.
  destruct v as [| | | |l|o]; try (simpl; lia); [discriminate|].
  destruct o as [|kv t] eqn:Ho; [simpl; lia|]. rewrite <- Ho in *.
  rewrite render_object_eq by (rewrite Ho; discriminate).
  cbn [height]. rewrite map_map. cbn [snd].
  assert (Hrows : (list_max (map (fun kv => height (entry_view depth (snd kv))) o)
                   + S (Nat.min depth 2) <= 3)%nat).
  { assert (Hall : Forall (fun n => (n <= 2 - Nat.min depth 2)%nat)
                     (map (fun kv => height (entry_view depth (snd kv))) o)).
    { apply List.Forall_forall. intros n Hn.
      apply in_map_iff in Hn as ([k val] & <- & Hin). cbn [snd].
      apply list_elem_of_In in Hin.
      unfold entry_view.
      destruct (Nat.leb_spec 2 depth) as [Hd|Hd]; cbn [orb]; [simpl; lia|].
      destruct (is_object val) eqn:Hobj; cbn [negb]; [|simpl; lia].
      destruct (object_child o k val Hin) as [Hlt _].
      assert (Hfv : array_free val = true).
      { cbn [array_free] in Hfree. rewrite forallb_forall in Hfree.
        apply (Hfree (k, val)). now apply list_elem_of_In. }
      specialize (IH val Hlt (S depth) Hfv). lia. }
    apply list_max_le in Hall. lia. }
  lia.
Qed.

(** X3: the view cuts objects off at the third level: an object reached at
    depth two or more shows every one of its values as a leaf, one row per
    entry, so the view of a document without arrays never has more than
    three tree levels (two below the top level).  Arrays are not cut off. *)
Theorem render_depth_limit :
  (forall o depth, (2 <= depth)%nat -> o <> [] ->
     exists rows,
       renderStructuredValue (JObj o) depth = Tree true rows
       /\ length rows = length o
       /\ Forall (fun row => exists text, snd row = Leaf text) rows)
  /\ (forall v depth, array_free v = true ->
        (height (renderStructuredValue v depth) + Nat.min depth 2 <= 3)%nat)
  /\ height (renderStructuredValue (JArr [JArr [JArr [JArr [JNum 1]]]]) 0) = 4%nat.
Proof.
  split; [|split].
  - intros o depth Hd Hne. eexists. split; [|split].
    + rewrite render_object_eq by exact Hne.
      destruct (Nat.ltb_spec 0 depth); [reflexivity|lia].
    + now rewrite length_map.
    + apply List.Forall_forall. intros row Hrow.
      apply in_map_iff in Hrow as (kv & <- & _). cbn [snd].
      unfold entry_view. destruct (Nat.leb_spec 2 depth); [|lia].
      cbn [orb]. eauto.
  - intros v depth. apply render_array_free_height.
  - reflexivity.
Qed.

Lemma render_depth_limit_witness :
  (height (renderStructuredValue
             (JObj [("a", JObj [("b", JObj [("c", JObj [("d", JNum 1)])])])]) 0)
   + Nat.min 0 2 <= 3)%nat.
Proof.
  apply (proj1 (proj2 render_depth_limit)). reflexivity.
Defined.

(** ** The content type of a response *)

Lemma find_content_type_first (pre post : obj) (k : string) (v : json) :
  Forall (fun kv => toLowerCase (fst kv) <> "content-type") pre ->
  toLowerCase k = "content-type" ->
  find_content_type (pre ++ (k, v) :: post) = Some (to_string v).
Proof.
  intros Hpre Hk. induction pre as [|[k' v'] t IH]; simpl.
  - rewrite Hk. reflexivity.
  - inversion Hpre as [|? ? Hne Hrest]; subst. simpl in Hne.
    destruct (String.eqb_spec (toLowerCase k') "content-type"); [contradiction|].
    now apply IH.
Qed.

Lemma find_content_type_some (headers : obj) (s : string) :
  find_content_type headers = Some s ->
  exists k v, (k, v) ∈ headers /\ toLowerCase k = "content-type" /\ s = to_string v.
Proof.
  induction headers as [|[k v] t IH]; simpl; [discriminate|].
  destruct (String.eqb_spec (toLowerCase k) "content-type") as [E|_].
  - intros [= <-]. exists k, v. split; [left|auto].
  - intros H. destruct (IH H) as (k' & v' & Hin & Hk & Hs).
    exists k', v'. split; [now right|auto].
Qed.

(** X4: [extractResponseContentType] finds the content type whatever the
    letter case of the header name: it returns the text of the first header
    whose name is [content-type] once lower-cased, a result always comes
    from such a header, and a response without a [headers] object gives
    [null]. *)
Theorem content_type_any_case :
  (forall pre post k v others,
     Forall (fun kv => toLowerCase (fst kv) <> "content-type") pre ->
     toLowerCase k = "content-type" ->
     extractResponseContentType
       (JObj (("headers", JObj (pre ++ (k, v) :: post)) :: others))
     = Some (to_string v))
  /\ (forall result s,
        extractResponseContentType result = Some s ->
        exists headers k v,
          get result "headers" = Some headers
          /\ (k, v) ∈ entries headers
          /\ toLowerCase k = "content-type"
          /\ s = to_string v)
  /\ (forall result,
        get result "headers" = None -> extractResponseContentType result = None).
Proof.
  split; [|split].
  - intros pre post k v others Hpre Hk.
    unfold extractResponseContentType. simpl.
    now apply find_content_type_first.
  - intros result s. unfold extractResponseContentType.
    destruct (get result "headers") as [headers|]; [|discriminate].
    destruct (truthy headers && is_object headers); [|discriminate].
    intros H. destruct (find_content_type_some _ _ H) as (k & v & Hin & Hk & Hs).
    exists headers, k, v. auto.
  - intros result H. unfold extractResponseContentType. now rewrite H.
Qed.

Lemma content_type_any_case_witness :
  extractResponseContentType
    (JObj [("headers", JObj [("date", JStr "today");
                             ("Content-Type", JStr "text/html")])])
  = Some "text/html".
Proof.
  apply (proj1 content_type_any_case [("date", JStr "today")] [] "Content-Type"
           (JStr "text/html") []).
  - repeat constructor; simpl; discriminate.
  - reflexivity.
Defined.

(** ** The playground: selected operation and default input *)

(** X5: the selected operation is always one of the catalog; it is the
    first operation with the selected id when there is one, otherwise the
    first operation of the catalog, and there is none only when the catalog
    is empty. *)
Theorem selectedApiOp_in_catalog (ops : list ApiOperation) (selected : string) :
  (selectedApiOp ops selected = None <-> ops = [])
  /\ (forall op, selectedApiOp ops selected = Some op -> op ∈ ops)
  /\ (forall op, op ∈ ops -> op_id op = selected ->
        exists op', selectedApiOp ops selected = Some op' /\ op_id op' = selected)
  /\ ((forall op, op ∈ ops -> op_id op <> selected) ->
      selectedApiOp ops selected = head ops).
Proof.
  unfold selectedApiOp.
  destruct (List.find (fun op => String.eqb (op_id op) selected) ops) as [found|] eqn:E.
  - apply find_some in E as [Hin Hid]. apply String.eqb_eq in Hid.
    apply list_elem_of_In in Hin.
    split; [|split; [|split]].
    + split; [discriminate|]. intros ->. inversion Hin.
    + now intros op [= <-].
    + intros op _ _. eauto.
    + intros Hnone. now destruct (Hnone found Hin).
  - pose proof (find_none _ _ E) as Hnone.
    split; [|split; [|split]].
    + destruct ops; [tauto|]. split; discriminate.
    + intros op Hh. destruct ops as [|o t]; [discriminate|].
      injection Hh as <-. left.
    + intros op Hin Hid. apply list_elem_of_In in Hin.
      specialize (Hnone op Hin). cbn beta in Hnone.
      apply String.eqb_neq in Hnone. contradiction.
    + reflexivity.
Qed.

Lemma selectedApiOp_in_catalog_witness :
  exists op, selectedApiOp [id_and_q] "GET /items/{id}" = Some op
             /\ op_id op = "GET /items/{id}".
Proof.
  apply (proj1 (proj2 (proj2 (selectedApiOp_in_catalog [id_and_q] "GET /items/{id}")))
           id_and_q).
  - left.
  - reflexivity.
Defined.

Lemma olookup_last_is_Some (k : string) (o : obj) :
  is_Some (olookup_last k o) <-> k ∈ map fst o.
Proof.
  induction o as [|[k' v] t IH]; simpl.
  - split; [intros [? [=]]|intros H; inversion H].
  - rewrite elem_of_cons, <- IH. destruct (olookup_last k t) as [x|].
    + split; [intros _; right; eauto|eauto].
    + destruct (String.eqb_spec k' k) as [->|Hne].
      * split; [auto|eauto].
      * split; [intros [? [=]]|]. intros [->|[? [=]]]. contradiction.
Qed.

Lemma olookup_last_some_elem (k : string) (v : json) (o : obj) :
  olookup_last k o = Some v -> (k, v) ∈ o.
Proof.
  induction o as [|[k' v'] t IH]; simpl; [discriminate|].
  destruct (olookup_last k t) as [x|].
  - intros [= ->]. right. now apply IH.
  - destruct (String.eqb_spec k' k) as [->|]; [|discriminate].
    intros [= ->]. left.
Qed.

Lemma path_defaults_loop_fill (params : list ApiOperationParam) (defaults : filled) :
  path_defaults_loop params defaults = fill (map default_entry params) defaults.
Proof.
  revert defaults. induction params as [|p rest IH]; intros defaults;
    [reflexivity|].
  cbn [path_defaults_loop map]. now rewrite IH.
Qed.

Lemma query_defaults_loop_fill (params : list ApiOperationParam) (defaults : filled) :
  query_defaults_loop params defaults
  = fill (map default_entry (filter (fun p => p_required p = true) params)) defaults.
Proof.
  revert defaults. induction params as [|p rest IH]; intros defaults;
    [reflexivity|].
  cbn [query_defaults_loop]. rewrite IH, filter_cons. case_decide as Hreq.
  - now rewrite Hreq.
  - destruct (p_required p); [congruence|reflexivity].
Qed.

(** X6: save for the name [__proto__], which an assignment
    [defaults[p.name] = ...] treats as the prototype, the default query
    input has an entry for exactly the required query parameters, the names
    that the generated schema of the query parameters lists as required, and
    the default path input has one for every path parameter; every entry of
    either is the default value of a parameter of that name (of the last
    one, when the name is not [__proto__]): the schema's example when it has
    one, else 1 for an integer and ['test'] otherwise. *)
Theorem defaults_cover_required (op : ApiOperation) :
  let queryParams := filter (fun p => p_in p = "query") (op_parameters op) in
  let pathParams := filter (fun p => p_in p = "path") (op_parameters op) in
  let required := map p_name (filter (fun p => p_required p = true) queryParams) in
  get (buildParameterSchema queryParams) "required" = Some (JArr (map JStr required))
  /\ (forall name, name <> "__proto__" ->
        (is_Some (olookup name (queryDefaults op)) <-> name ∈ required))
  /\ (forall name, name <> "__proto__" ->
        (is_Some (olookup name (pathDefaults op)) <-> name ∈ map p_name pathParams))
  /\ (forall name, name <> "__proto__" ->
        olookup name (queryDefaults op)
        = olookup_last name
            (map default_entry (filter (fun p => p_required p = true) queryParams)))
  /\ (forall name, name <> "__proto__" ->
        olookup name (pathDefaults op)
        = olookup_last name (map default_entry pathParams))
  /\ (forall name v, olookup name (queryDefaults op) = Some v ->
        exists p, p ∈ queryParams /\ p_required p = true /\ p_name p = name
                  /\ v = default_value p)
  /\ (forall name v, olookup name (pathDefaults op) = Some v ->
        exists p, p ∈ pathParams /\ p_name p = name /\ v = default_value p).
Proof.
  intros queryParams pathParams required.
  assert (Hq : forall name, name <> "__proto__" ->
             olookup name (queryDefaults op)
             = olookup_last name
                 (map default_entry
                    (filter (fun p => p_required p = true) queryParams))).
  { intros name Hname. unfold queryDefaults. fold queryParams.
    rewrite query_defaults_loop_fill, (fill_lookup _ _ _ Hname).
    now destruct (olookup_last name _). }
  assert (Hp : forall name, name <> "__proto__" ->
             olookup name (pathDefaults op)
             = olookup_last name (map default_entry pathParams)).
  { intros name Hname. unfold pathDefaults. fold pathParams.
    rewrite path_defaults_loop_fill, (fill_lookup _ _ _ Hname).
    now destruct (olookup_last name _). }
  split; [|split; [|split; [|split; [|split; [|split]]]]].
  - now rewrite buildParameterSchema_shape.
  - intros name Hname. rewrite (Hq _ Hname).
    rewrite olookup_last_is_Some, map_map. reflexivity.
  - intros name Hname. rewrite (Hp _ Hname).
    rewrite olookup_last_is_Some, map_map. reflexivity.
  - exact Hq.
  - exact Hp.
  - intros name v Hv. unfold queryDefaults in Hv. fold queryParams in Hv.
    rewrite query_defaults_loop_fill in Hv.
    apply fill_origin in Hv as [Hin|Hv]; [|discriminate].
    apply list_elem_of_In, in_map_iff in Hin as (p & [= <- <-] & Hin).
    apply list_elem_of_In, list_elem_of_filter in Hin as [Hreq Hin].
    exists p. auto.
  - intros name v Hv. unfold pathDefaults in Hv. fold pathParams in Hv.
    rewrite path_defaults_loop_fill in Hv.
    apply fill_origin in Hv as [Hin|Hv]; [|discriminate].
    apply list_elem_of_In, in_map_iff in Hin as (p & [= <- <-] & Hin).
    apply list_elem_of_In in Hin. exists p. auto.
Qed.

Lemma defaults_cover_required_witness :
  olookup "q" (queryDefaults id_and_q) = None
  /\ olookup "id" (pathDefaults id_and_q) = Some (JNum 1).
Proof.
  destruct (defaults_cover_required id_and_q) as (_ & Hq & _).
  split.
  - destruct (olookup "q" (queryDefaults id_and_q)) as [v|] eqn:E; [|reflexivity].
    assert (Hname : "q" <> "__proto__") by discriminate.
    assert (Hin : "q" ∈ map p_name
                    (filter (fun p => p_required p = true)
                       (filter (fun p => p_in p = "query") (op_parameters id_and_q))))
      by (apply (Hq "q" Hname); rewrite E; eauto).
    vm_compute in Hin. inversion Hin.
  - reflexivity.
Defined.

(** ** The playground: what a run checks and sends *)

Lemma texts_of_stringable (items : list json) :
  texts_of items
  = if forallb stringable items then Some (map to_string items) else None.
Proof.
  induction items as [|item rest IH]; [reflexivity|].
  cbn [texts_of forallb map]. rewrite IH. unfold ToString.
  destruct (stringable item); [|reflexivity].
  now destruct (forallb stringable rest).
Qed.

Lemma params_set_fresh (k v : string) (query : search_params) :
  k ∉ map fst query -> params_set k v query = query ++ [(k, v)].
Proof.
  induction query as [|[k' v'] t IH]; simpl; intros Hk; [reflexivity|].
  destruct (String.eqb_spec k' k) as [->|Hne].
  - exfalso. apply Hk. left.
  - f_equal. apply IH. intros Hin. apply Hk. now right.
Qed.

Lemma pairs_of_keys (kv : string * json) (pair : string * string) :
  pair ∈ pairs_of kv -> fst pair = fst kv.
Proof.
  unfold pairs_of. destruct (snd kv) as [| | |s|items|o]; simpl.
  - intros H; inversion H.
  - intros H. apply list_elem_of_singleton in H. now subst.
  - intros H. apply list_elem_of_singleton in H. now subst.
  - destruct (String.eqb s EmptyString); intros H; [inversion H|].
    apply list_elem_of_singleton in H. now subst.
  - intros H. apply list_elem_of_In, in_map_iff in H as (item & <- & _). reflexivity.
  - intros H. apply list_elem_of_singleton in H. now subst.
Qed.

Lemma add_query_param_fresh (query : search_params) (kv : string * json) :
  fst kv ∉ map fst query ->
  add_query_param query kv
  = if stringable (snd kv) then Some (query ++ pairs_of kv) else None.
Proof.
  intros Hk. unfold add_query_param, pairs_of, ToString.
  destruct (snd kv) as [|b|n|s|items|o] eqn:E.
  - now rewrite app_nil_r.
  - cbn [stringable]. now rewrite params_set_fresh by exact Hk.
  - cbn [stringable]. now rewrite params_set_fresh by exact Hk.
  - cbn [stringable]. destruct (String.eqb s EmptyString); [now rewrite app_nil_r|].
    now rewrite params_set_fresh by exact Hk.
  - rewrite texts_of_stringable. cbn [stringable].
    destruct (forallb stringable items); [|reflexivity].
    now rewrite map_map.
  - destruct (stringable (JObj o)); [|reflexivity].
    now rewrite params_set_fresh by exact Hk.
Qed.

Lemma query_loop_spec (q : obj) (query : search_params) :
  NoDup (map fst q) ->
  (forall pair, pair ∈ query -> fst pair ∉ map fst q) ->
  query_loop q query
  = if forallb (fun kv => stringable (snd kv)) q
    then Some (query ++ concat (map pairs_of q)) else None.
Proof.
  revert query. induction q as [|kv rest IH]; intros query Hnd Hdisj.
  - simpl. now rewrite app_nil_r.
  - inversion Hnd as [|? ? Hk Hnd']; subst.
    cbn [query_loop forallb map concat].
    rewrite add_query_param_fresh.
    + destruct (stringable (snd kv)); [|reflexivity]. cbn [andb].
      rewrite IH; [now rewrite <- app_assoc|exact Hnd'|].
      intros pair Hin Hrest. apply elem_of_app in Hin as [Hin|Hin].
      * apply (Hdisj pair Hin). simpl. now right.
      * apply pairs_of_keys in Hin. rewrite Hin in Hrest. contradiction.
    + intros Hin. apply list_elem_of_In, in_map_iff in Hin as (pair & Hf & Hin).
      apply list_elem_of_In in Hin. apply (Hdisj pair Hin). rewrite Hf. left.
Qed.

(** X8: building the query of a run throws (the [TypeError] of [String])
    exactly when some value of the query object does not convert to text: an
    object with a [toString] key of its own, or an array with such an item.
    Otherwise the query lists, in the order of the query object, no pair
    for an entry that is [null] or the empty string, one pair per item for
    an array (its items as text, a [null] item as ["null"]), and one pair
    for any other value; so every pair carries a key of the object, and a
    key with a [null] or empty value never appears.  (For a query object
    whose numbers are safe integers.) *)
Theorem build_query_pairs (q : obj) :
  NoDup (map fst q) ->
  Forall (fun kv => safe_numbers (snd kv) = true) q ->
  (build_query (JObj q) = None
   <-> exists k v, (k, v) ∈ q /\ stringable v = false)
  /\ (forall pairs, build_query (JObj q) = Some pairs ->
        pairs = concat (map pairs_of q)
        /\ (forall pair, pair ∈ pairs ->
              exists v, (fst pair, v) ∈ q /\ v <> JNull /\ v <> JStr EmptyString)
        /\ (forall k items, (k, JArr items) ∈ q ->
              forall item, item ∈ items -> (k, to_string item) ∈ pairs))
  /\ (Forall (fun kv => stringable (snd kv) = true) q ->
      build_query (JObj q) = Some (concat (map pairs_of q)))
  /\ build_query JNull = Some [].
Proof.
  intros Hnd _.
  assert (E : build_query (JObj q)
              = if forallb (fun kv => stringable (snd kv)) q
                then Some (concat (map pairs_of q)) else None).
  { unfold build_query. simpl. rewrite query_loop_spec; [reflexivity|exact Hnd|].
    intros pair Hin. inversion Hin. }
  split; [|split; [|split]].
  - rewrite E. destruct (forallb _ q) eqn:Hall.
    + split; [discriminate|]. intros (k & v & Hin & Hv).
      rewrite forallb_forall in Hall.
      apply list_elem_of_In, Hall in Hin. simpl in Hin. congruence.
    + split; [|reflexivity]. intros _.
      assert (Hex : existsb (fun kv => negb (stringable (snd kv))) q = true).
      { clear -Hall. induction q as [|kv q IH]; [discriminate|].
        simpl in *. destruct (stringable (snd kv)); simpl; [now apply IH|reflexivity]. }
      apply existsb_exists in Hex as ([k v] & Hin & Hv).
      exists k, v. split; [now apply list_elem_of_In|].
      now apply negb_true_iff in Hv.
  - intros pairs Hp. rewrite E in Hp.
    destruct (forallb _ q); [|discriminate]. injection Hp as <-.
    split; [reflexivity|]. split.
    + intros pair Hin.
      apply list_elem_of_In, in_concat in Hin as (ps & Hps & Hin).
      apply in_map_iff in Hps as ([k v] & <- & Hkv).
      apply list_elem_of_In in Hin, Hkv.
      pose proof (pairs_of_keys _ _ Hin) as Hk. simpl in Hk.
      exists v. rewrite Hk. split; [exact Hkv|].
      unfold pairs_of in Hin. simpl in Hin. split; intros ->; simpl in Hin; inversion Hin.
    + intros k items Hkv item Hitem.
      apply list_elem_of_In, in_concat. exists (pairs_of (k, JArr items)). split.
      * apply in_map, list_elem_of_In, Hkv.
      * unfold pairs_of. simpl.
        apply (in_map (fun item => (k, to_string item))), list_elem_of_In, Hitem.
  - intros Hall. rewrite E.
    assert (forallb (fun kv => stringable (snd kv)) q = true) as ->; [|reflexivity].
    apply forallb_forall. intros kv Hin. rewrite Forall_forall in Hall.
    now apply Hall, list_elem_of_In.
  - reflexivity.
Qed.

Lemma build_query_pairs_witness :
  build_query (JObj query_sample)
  = Some [("limit", "5"); ("tags", "a"); ("tags", "null")].
Proof.
  assert (Hnd : NoDup (map fst query_sample))
    by (apply (bool_decide_unpack _); vm_compute; exact I).
  assert (Hall : Forall (fun kv => stringable (snd kv) = true) query_sample)
    by (repeat constructor).
  assert (Hsafe : Forall (fun kv => safe_numbers (snd kv) = true) query_sample)
    by (repeat constructor).
  rewrite (proj1 (proj2 (proj2 (build_query_pairs query_sample Hnd Hsafe))) Hall).
  reflexivity.
Defined.

Section RunFacts.
Variable valid_pattern : string -> bool.
Variable replace_param : string -> string -> string -> string.
Variable encodeURIComponent : string -> option string.
Variable builtin_text : json -> string -> string.

Lemma substitute_missing (pathParams : json) (path name : string) (e : run_error) :
  is_object pathParams = true ->
  substitute valid_pattern replace_param encodeURIComponent builtin_text pathParams path name = inl e ->
  (e = MissingPathParam name <-> has_member pathParams name = false)
  /\ e <> InOperatorTypeError
  /\ (forall n, e = MissingPathParam n -> n = name).
Proof.
  intros Hobj. unfold substitute. rewrite Hobj. cbn [negb].
  destruct (has_member pathParams name) eqn:Hm; cbn [negb].
  - assert (Hother : e <> MissingPathParam name -> (forall n, e <> MissingPathParam n) ->
              e <> InOperatorTypeError ->
              (e = MissingPathParam name <-> true = false)
              /\ e <> InOperatorTypeError
              /\ (forall n, e = MissingPathParam n -> n = name)).
    { intros H1 H2 H3. split; [split; [contradiction|discriminate]|].
      split; [exact H3|]. intros n Hn. now destruct (H2 n). }
    destruct (valid_pattern name); cbn [negb].
    + destruct (param_text _ _ _) as [t|].
      * destruct (encodeURIComponent t); [discriminate|].
        intros [= <-]. apply Hother; discriminate.
      * intros [= <-]. apply Hother; discriminate.
    + intros [= <-]. apply Hother; discriminate.
  - intros [= <-]. split; [split; reflexivity|]. split; [discriminate|].
    now intros n [= ->].
Qed.

Lemma resolve_path_missing (pre post : list ApiOperationParam)
    (p : ApiOperationParam) (pathParams : json) (path path' : string) :
  is_object pathParams = true ->
  resolve_path valid_pattern replace_param encodeURIComponent builtin_text pre pathParams path = inr path' ->
  has_member pathParams (p_name p) = false ->
  resolve_path valid_pattern replace_param encodeURIComponent builtin_text (pre ++ p :: post) pathParams path
  = inl (MissingPathParam (p_name p)).
Proof.
  intros Hobj Hpre Hp. revert path Hpre.
  induction pre as [|q pre IH]; intros path Hpre; cbn [resolve_path app] in *.
  - unfold substitute. now rewrite Hobj, Hp.
  - destruct (substitute valid_pattern replace_param encodeURIComponent builtin_text pathParams path (p_name q)) as [e|path1]; [discriminate|].
    now apply IH.
Qed.

Lemma resolve_path_error (params : list ApiOperationParam)
    (pathParams : json) (path : string) (name : string) :
  is_object pathParams = true ->
  resolve_path valid_pattern replace_param encodeURIComponent builtin_text params pathParams path = inl (MissingPathParam name) ->
  exists p, p ∈ params /\ p_name p = name /\ has_member pathParams name = false.
Proof.
  intros Hobj. revert path.
  induction params as [|q rest IH]; intros path; cbn [resolve_path]; [discriminate|].
  destruct (substitute valid_pattern replace_param encodeURIComponent builtin_text pathParams path (p_name q)) as [e|path1] eqn:E.
  - intros [= ->].
    destruct (substitute_missing _ _ _ _ Hobj E) as (Hiff & _ & Hn).
    pose proof (Hn name eq_refl) as ->.
    exists q. split; [left|]. split; [reflexivity|]. now apply Hiff.
  - intros H. destruct (IH _ H) as (p & Hin & Hp). exists p. split; [now right|exact Hp].
Qed.

Lemma resolve_path_members (params : list ApiOperationParam)
    (pathParams : json) (path path' : string) :
  resolve_path valid_pattern replace_param encodeURIComponent builtin_text params pathParams path = inr path' ->
  Forall (fun q => has_member pathParams (p_name q) = true) params
  /\ (params <> [] -> is_object pathParams = true).
Proof.
  revert path. induction params as [|q rest IH]; intros path; cbn [resolve_path].
  - intros _. split; [constructor|congruence].
  - destruct (substitute valid_pattern replace_param encodeURIComponent builtin_text pathParams path (p_name q)) as [e|path1] eqn:E; [discriminate|].
    intros H. destruct (IH _ H) as [Hall _].
    unfold substitute in E.
    destruct (is_object pathParams); [|discriminate]. cbn [negb] in E.
    destruct (has_member pathParams (p_name q)) eqn:Hm; [|discriminate].
    split; [now constructor|reflexivity].
Qed.

(** X7: before anything is sent, a run rejects path parameters that are a
    truthy non-object, then query parameters that are a truthy non-object.
    With an object of path parameters, the first path parameter of the
    operation, in order, that the object neither has nor inherits stops
    the run with an error that names it, provided the parameters before
    it were substituted without an error; a run never reports a parameter
    as missing that the object has or inherits (so [{}] passes for a
    parameter named [constructor]), and it reaches the request only if the
    object has or inherits every path parameter.  [null] or another falsy
    value as path parameters passes only for an operation without path
    parameters. *)
Theorem prepare_request_checks (op : ApiOperation) (pathParams queryParams : json) :
  let prepared :=
    prepare_request valid_pattern replace_param encodeURIComponent builtin_text
      op pathParams queryParams in
  let params := filter (fun p => p_in p = "path") (op_parameters op) in
  (truthy pathParams && negb (is_object pathParams) = true ->
   prepared = inl PathParamsNotObject)
  /\ (truthy pathParams && negb (is_object pathParams) = false ->
      truthy queryParams && negb (is_object queryParams) = true ->
      prepared = inl QueryParamsNotObject)
  /\ (is_object pathParams = true ->
      truthy queryParams && negb (is_object queryParams) = false ->
      (forall pre p post path',
         params = pre ++ p :: post ->
         resolve_path valid_pattern replace_param encodeURIComponent builtin_text pre pathParams (op_path op) = inr path' ->
         has_member pathParams (p_name p) = false ->
         prepared = inl (MissingPathParam (p_name p)))
      /\ (forall name, prepared = inl (MissingPathParam name) ->
            exists p, p ∈ params /\ p_name p = name
                      /\ has_member pathParams name = false)
      /\ (forall request, prepared = inr request ->
            Forall (fun q => has_member pathParams (p_name q) = true) params
            /\ build_query queryParams = Some (snd request)))
  /\ (forall o name, name ∈ object_prototype -> has_member (JObj o) name = true)
  /\ (truthy pathParams = false ->
      truthy queryParams && negb (is_object queryParams) = false ->
      (params = [] ->
       prepared = match build_query queryParams with
                  | Some query => inr (op_path op, query)
                  | None => inl StringTypeError
                  end)
      /\ (params <> [] -> prepared = inl InOperatorTypeError)).
Proof.
  intros prepared params. subst prepared. unfold prepare_request. fold params.
  split; [|split; [|split; [|split]]].
  - intros ->. reflexivity.
  - intros -> ->. reflexivity.
  - intros Hobj Hq. rewrite Hobj, Hq, andb_false_r. split; [|split].
    + intros pre p post path' -> Hpre Hp.
      now rewrite (resolve_path_missing pre post p pathParams _ _ Hobj Hpre Hp).
    + intros name.
      destruct (resolve_path valid_pattern replace_param encodeURIComponent builtin_text params pathParams (op_path op)) as [e|path'] eqn:E.
      * intros [= ->]. eapply resolve_path_error; eauto.
      * destruct (build_query queryParams); discriminate.
    + intros request.
      destruct (resolve_path valid_pattern replace_param encodeURIComponent builtin_text params pathParams (op_path op)) as [e|path'] eqn:E;
        [discriminate|].
      destruct (build_query queryParams) as [query|]; [|discriminate].
      intros [= <-]. split; [|reflexivity].
      eapply resolve_path_members; eauto.
  - intros o name Hin. unfold has_member.
    destruct (get (JObj o) name); [reflexivity|].
    cbn [inherits]. now apply among_elem.
  - intros Hfalsy Hq. rewrite Hfalsy, Hq. simpl. split.
    + intros ->. reflexivity.
    + intros Hne. destruct params as [|p rest]; [contradiction|].
      cbn [resolve_path]. unfold substitute.
      assert (is_object pathParams = false) as ->
        by (destruct pathParams; simpl in *; congruence).
      reflexivity.
Qed.
End RunFacts.

Lemma prepare_request_checks_witness :
  prepare_request any_pattern no_replace plain_encode native_code
    id_and_q (JObj []) (JObj [("limit", JNum 5)])
  = inl (MissingPathParam "id").
Proof.
  destruct (prepare_request_checks any_pattern no_replace plain_encode native_code
              id_and_q (JObj []) (JObj [("limit", JNum 5)])) as (_ & _ & H & _).
  destruct (H eq_refl eq_refl) as [Hmissing _].
  apply (Hmissing [] (hd (mkParam EmptyString EmptyString false None JNull)
                        (op_parameters id_and_q)) [] (op_path id_and_q)).
  - reflexivity.
  - reflexivity.
  - reflexivity.
Defined.

(** ** The requests of the debug API client *)

Lemma olookup_last_NoDup (k : string) (o : obj) :
  NoDup (map fst o) -> olookup_last k o = olookup k o.
Proof.
  induction o as [|[k' v] t IH]; simpl; intros Hnd; [reflexivity|].
  inversion Hnd as [|? ? Hk Hnd']; subst. rewrite (IH Hnd').
  destruct (String.eqb_spec k' k) as [->|Hne].
  - destruct (olookup k t) as [x|] eqn:E; [|reflexivity].
    exfalso. apply Hk. apply olookup_elem in E.
    apply list_elem_of_In, in_map_iff. exists (k, x). split; [reflexivity|].
    now apply list_elem_of_In.
  - now destruct (olookup k t).
Qed.

(** X9: the options [debugFetch] passes to [fetch] keep every field of the
    caller's [init]; without a [headers] field the headers are the JSON
    content type alone and without a [credentials] field the request is
    credentialed, but a [headers] field of the caller replaces the headers
    altogether, so the default content type is sent only if the caller's
    headers name it. *)
Theorem fetch_options_override (init : obj) :
  NoDup (map fst init) ->
  (forall k v, olookup k init = Some v ->
     olookup k (fetch_options (Some init)) = Some v)
  /\ (olookup "headers" init = None ->
      olookup "headers" (fetch_options (Some init)) = Some json_content_type)
  /\ (olookup "credentials" init = None ->
      olookup "credentials" (fetch_options (Some init)) = Some (JStr "include"))
  /\ (forall h, olookup "headers" init = Some h ->
        olookup "headers" (fetch_options (Some init)) = Some h)
  /\ fetch_options None
     = [("credentials", JStr "include"); ("headers", json_content_type)].
Proof.
  intros Hnd.
  assert (Hl : forall k,
             olookup k (fetch_options (Some init))
             = match olookup k init with
               | Some v => Some v
               | None =>
                   olookup k
                     [("credentials", JStr "include");
                      ("headers",
                       JObj (assign [("Content-Type", JStr "application/json")]
                               (entries (or_else (olookup "headers" init) (JObj [])))))]
               end).
  { intros k. unfold fetch_options. rewrite olookup_assign.
    now rewrite (olookup_last_NoDup k init Hnd). }
  split; [|split; [|split; [|split]]].
  - intros k v Hk. now rewrite Hl, Hk.
  - intros Hh. rewrite Hl, Hh. reflexivity.
  - intros Hc. rewrite Hl, Hc. reflexivity.
  - intros h Hh. now rewrite Hl, Hh.
  - reflexivity.
Qed.

Lemma fetch_options_override_witness :
  olookup "headers"
    (fetch_options (Some [("method", JStr "POST");
                          ("headers", JObj [("X-Trace", JStr "1")])]))
  = Some (JObj [("X-Trace", JStr "1")]).
Proof.
  destruct (fetch_options_override
              [("method", JStr "POST"); ("headers", JObj [("X-Trace", JStr "1")])])
    as (_ & _ & _ & H & _).
  - apply (bool_decide_unpack _). vm_compute. exact I.
  - apply H. reflexivity.
Defined.

Lemma prefix_app_same (a b c : string) :
  String.prefix b c = true -> String.prefix (a +:+ b) (a +:+ c) = true.
Proof.
  intros H. induction a as [|x a IH]; simpl; [exact H|].
  destruct (ascii_dec x x); [exact IH|contradiction].
Qed.

(** X10: every call the debug API client exports reaches [fetch] with a
    URL under [/internal/debug/] of the base URL, with credentials
    included, with the JSON content type as its only header, and either as
    a GET without a body or as a POST with one. *)
Theorem debug_calls_are_credentialed_json (base_url : string) (c : debug_call) :
  let url := fst (call_fetch base_url c) in
  let options := snd (call_fetch base_url c) in
  String.prefix (base_url +:+ "/internal/debug/") url = true
  /\ olookup "credentials" options = Some (JStr "include")
  /\ olookup "headers" options = Some json_content_type
  /\ ((olookup "method" options = Some (JStr "GET") /\ olookup "body" options = None)
      \/ (olookup "method" options = Some (JStr "POST")
          /\ exists body, olookup "body" options = Some (JStr body)))
  /\ length options = match olookup "body" options with
                      | Some _ => 4%nat
                      | None => 3%nat
                      end.
Proof.
  cbv zeta. unfold call_fetch.
  split; [|destruct c; repeat split; try reflexivity;
            first [left; split; reflexivity | right; split; [reflexivity|eauto]]].
  apply prefix_app_same. destruct c; try reflexivity; simpl; apply prefix_append.
Qed.

(** ** The conversation history sent with a request *)

(** X11: the history built for a request holds only text messages, at most
    ten of them: it is the tail of the text messages of the chat, in order
    and with their roles, and all of them when there are ten or fewer. *)
Theorem conversation_history_last_ten (messages : list Message) :
  let texts := filter (fun m => is_Some (m_content m)) messages in
  let as_pair := fun m => (m_role m,
                           match m_content m with
                           | Some text => text
                           | None => EmptyString
                           end) in
  length (buildConversationHistory messages) = Nat.min 10 (length texts)
  /\ (exists older,
        map as_pair texts = map as_pair older ++ buildConversationHistory messages
        /\ length older = (length texts - 10)%nat)
  /\ (forall r text, (r, text) ∈ buildConversationHistory messages ->
        exists m, m ∈ messages /\ m_role m = r /\ m_content m = Some text).
Proof.
  intros texts as_pair. unfold buildConversationHistory, last_n. fold texts as_pair.
  split; [|split].
  - rewrite length_map, length_drop. lia.
  - exists (take (length texts - 10) texts). split.
    + now rewrite <- map_app, take_drop.
    + rewrite length_take. lia.
  - intros r text Hin.
    apply list_elem_of_In, in_map_iff in Hin as (m & Hm & Hin).
    apply list_elem_of_In in Hin.
    assert (Hm' : m ∈ texts).
    { eapply subseteq_drop, Hin. }
    apply list_elem_of_filter in Hm' as [[t Ht] Hmem].
    exists m. subst as_pair. cbn beta in Hm. rewrite Ht in Hm.
    injection Hm as <- <-. auto.
Qed.

(** ** A saved result and a reloaded conversation *)

Lemma history_ids_elem (now : Z) (history : list HistoryMessage) (id : string) :
  id ∈ history_ids now history
  <-> exists msg restaurants,
        msg ∈ history /\ h_data msg = Some restaurants
        /\ id = historyId now (h_timestamp msg) restaurants.
Proof.
  induction history as [|msg rest IH]; simpl.
  - split; [intros H; now apply elem_of_empty in H|].
    intros (m & rs & Hin & _). inversion Hin.
  - destruct (h_data msg) as [rs|] eqn:E.
    + rewrite elem_of_union, elem_of_singleton, IH. split.
      * intros [->|(m & rs' & Hin & Hd & Hid)].
        -- exists msg, rs. split; [left|auto].
        -- exists m, rs'. split; [now right|auto].
      * intros (m & rs' & Hin & Hd & Hid).
        apply elem_of_cons in Hin as [->|Hin].
        -- left. congruence.
        -- right. eauto.
    + rewrite IH. split.
      * intros (m & rs' & Hin & Hd & Hid). exists m, rs'. split; [now right|auto].
      * intros (m & rs' & Hin & Hd & Hid).
        apply elem_of_cons in Hin as [->|Hin]; [congruence|eauto].
Qed.

(** X12: a result with at least one restaurant that was persisted, and
    that the reloaded conversation holds as a stored recommendation, is not
    persisted again after the reload, in whatever order its restaurants
    come; reloading a conversation with stored messages replaces the set of
    saved identifiers by the identifiers of its stored recommendations,
    and a conversation without stored messages leaves the set alone. *)
Theorem reload_keeps_saved_result (p : Props) (now1 now2 now3 : Z) (added : bool)
    (rs rs' : list Restaurant) (timestamp : string)
    (before after : list HistoryMessage) (st : Store) :
  rs <> [] ->
  configured p = true ->
  resultId now1 rs ∉ savedRecommendationIds st ->
  Permutation (map id_or_name rs) (map id_or_name rs') ->
  let st1 := saveRecommendationResult p now1 true rs st in
  let history :=
    before ++ stored_recommendation timestamp (textContent rs, rs) :: after in
  let st2 := loadHistory now2 history st1 in
  messages st1 = messages st ++ [(textContent rs, rs)]
  /\ saveRecommendationResult p now3 added rs' st2 = st2
  /\ (forall id, id ∈ savedRecommendationIds st2
                 <-> exists msg restaurants,
                       msg ∈ history /\ h_data msg = Some restaurants
                       /\ id = historyId now2 (h_timestamp msg) restaurants)
  /\ loadHistory now2 [] st1 = st1.
Proof.
  intros Hne Hconf Hnew Hperm st1 history st2.
  assert (Hst2 : savedRecommendationIds st2 = history_ids now2 history).
  { subst st2 history. unfold loadHistory. now destruct before. }
  split; [|split; [|split]].
  - subst st1. unfold saveRecommendationResult, begin_save. rewrite Hconf. simpl.
    destruct (decide (resultId now1 rs ∈ savedRecommendationIds st));
      [contradiction|reflexivity].
  - apply save_known_id. rewrite Hst2. apply history_ids_elem.
    exists (stored_recommendation timestamp (textContent rs, rs)), rs.
    split; [|split; [reflexivity|]].
    + subst history. apply elem_of_app. right. left.
    + assert (Hne' : rs' <> []).
      { intros ->. destruct rs; [contradiction|].
        now apply Permutation_sym, Permutation_nil in Hperm. }
      destruct rs as [|r rs]; [contradiction|].
      destruct rs' as [|r' rs']; [contradiction|].
      unfold resultId, historyId. f_equal.
      apply (sort_by_permutation_eq code_compare code_compare_total
               code_compare_trans code_compare_antisym_eq).
      now symmetry.
  - intros id. rewrite Hst2. apply history_ids_elem.
  - reflexivity.
Qed.

Lemma reload_keeps_saved_result_witness :
  let st1 := saveRecommendationResult chat_props 10 true two_places empty_store in
  let st2 :=
    loadHistory 20 [stored_recommendation "t" (textContent two_places, two_places)] st1 in
  saveRecommendationResult chat_props 30 true two_places_swapped st2 = st2.
Proof.
  cbv zeta.
  destruct (reload_keeps_saved_result chat_props 10 20 30 true two_places
              two_places_swapped "t" [] [] empty_store) as (_ & H & _).
  - discriminate.
  - reflexivity.
  - vm_compute. discriminate.
  - apply perm_swap.
  - exact H.
Defined.

Lemma conversation_history_last_ten_witness :
  exists m,
    m ∈ [mkMessage User (Some "hi"); mkMessage Assistant None]
    /\ m_role m = User /\ m_content m = Some "hi".
Proof.
  apply (proj2 (proj2 (conversation_history_last_ten
                         [mkMessage User (Some "hi"); mkMessage Assistant None]))).
  left.
Defined.

(** ** The preference form *)

Lemma filter_all_pass {A : Type} (P : A -> Prop) `{forall a, Decision (P a)}
    (l : list A) :
  Forall P l -> filter P l = l.
Proof.
  induction 1 as [|a t Ha _ IH]; [reflexivity|].
  rewrite filter_cons. case_decide; [now rewrite IH|contradiction].
Qed.

(** X13: toggling a value switches whether it is selected and nothing
    else: every other value stays selected or unselected as it was, a
    selection without repetitions stays without repetitions, and toggling
    an unselected value twice gives the selection back. *)
Theorem toggle_flips_membership (x : string) (prev : list string) :
  (x ∈ toggle x prev <-> x ∉ prev)
  /\ (forall y, y <> x -> (y ∈ toggle x prev <-> y ∈ prev))
  /\ (NoDup prev -> NoDup (toggle x prev))
  /\ (x ∉ prev -> toggle x (toggle x prev) = prev).
Proof.
  unfold toggle at 1 2 3. destruct (bool_decide_reflect (x ∈ prev)) as [Hin|Hnin].
  - split; [|split; [|split]].
    + rewrite list_elem_of_filter. tauto.
    + intros y Hy. rewrite list_elem_of_filter. tauto.
    + apply NoDup_filter.
    + contradiction.
  - split; [|split; [|split]].
    + rewrite elem_of_app, list_elem_of_singleton. tauto.
    + intros y Hy. rewrite elem_of_app, list_elem_of_singleton. tauto.
    + intros Hnd. apply NoDup_app. split; [exact Hnd|]. split.
      * intros y Hy Hy'. apply list_elem_of_singleton in Hy'. congruence.
      * apply NoDup_singleton.
    + intros _. unfold toggle.
      rewrite (bool_decide_eq_false_2 _ Hnin).
      rewrite bool_decide_eq_true_2
        by (apply elem_of_app; right; apply list_elem_of_singleton; reflexivity).
      rewrite filter_app, filter_all_pass.
      * rewrite filter_cons. case_decide; [contradiction|]. apply app_nil_r.
      * apply Forall_forall. intros y Hy ->. contradiction.
Qed.

Lemma toggle_flips_membership_witness :
  toggle "cafe" (toggle "cafe" ["buffet"]) = ["buffet"].
Proof.
  apply (proj2 (proj2 (proj2 (toggle_flips_membership "cafe" ["buffet"])))).
  intros H. apply list_elem_of_singleton in H. discriminate.
Defined.

Section TrimFacts.
Variable trim : string -> string.

Lemma keeps_string (item : json) :
  keeps trim item = true ->
  exists s, item = JStr s /\ s <> EmptyString /\ s <> "any"
            /\ trim s <> EmptyString.
Proof.
  unfold keeps. destruct item as [| | |s| |]; try discriminate.
  rewrite !andb_true_iff, !negb_true_iff. intros [[Ht Hb] Ha].
  simpl in Ht. apply negb_true_iff in Ht.
  apply String.eqb_neq in Ht, Hb, Ha. eauto.
Qed.

(** X14: [normalizeArray] keeps, in order, exactly the items that are
    non-empty strings other than ['any'] whose trimmed text is not empty,
    and gives the empty list for a value that is no array; normalizing its
    own result changes nothing.  [normalizeString] returns a string other
    than ['any'] with a non-empty trimmed text unchanged, and ['any'] for
    everything else: for a string whose trimmed text is empty, for ['any']
    and for a value that is no string; normalizing its own result changes
    nothing either. *)
Theorem normalize_preferences (arr : json) :
  Forall (fun item => exists s, item = JStr s /\ s <> EmptyString /\ s <> "any"
                                /\ trim s <> EmptyString)
    (normalizeArray trim arr)
  /\ (forall items, arr = JArr items ->
        normalizeArray trim arr `sublist_of` items
        /\ (forall s, JStr s ∈ items -> s <> EmptyString -> s <> "any" ->
              trim s <> EmptyString -> JStr s ∈ normalizeArray trim arr))
  /\ ((forall items, arr <> JArr items) -> normalizeArray trim arr = [])
  /\ normalizeArray trim (JArr (normalizeArray trim arr)) = normalizeArray trim arr
  /\ (forall s, s <> "any" -> trim s <> EmptyString ->
        normalizeString trim (JStr s) = s)
  /\ (forall s, trim s = EmptyString -> normalizeString trim (JStr s) = "any")
  /\ normalizeString trim (JStr "any") = "any"
  /\ (forall value, (forall s, value <> JStr s) ->
        normalizeString trim value = "any")
  /\ (forall value,
        normalizeString trim (JStr (normalizeString trim value))
        = normalizeString trim value).
Proof.
  split; [|split; [|split; [|split; [|split; [|split; [|split; [|split]]]]]]].
  - destruct arr; try constructor. simpl.
    apply Forall_forall. intros item Hin.
    apply list_elem_of_filter in Hin as [Hk _]. now apply keeps_string.
  - intros items ->. simpl. split; [apply sublist_filter|].
    intros s Hin Hs Ha Ht. apply list_elem_of_filter. split; [|exact Hin].
    unfold keeps. simpl.
    apply String.eqb_neq in Hs, Ha, Ht. now rewrite Hs, Ha, Ht.
  - intros Hno. destruct arr; try reflexivity. now destruct (Hno items).
  - destruct arr; try reflexivity. simpl.
    apply filter_all_pass, Forall_forall. intros item Hin.
    now apply list_elem_of_filter in Hin as [Hk _].
  - intros s Ha Ht. simpl. apply String.eqb_neq in Ha, Ht. now rewrite Ha, Ht.
  - intros s Ht. simpl. now rewrite Ht.
  - simpl. now rewrite andb_false_r.
  - intros value Hno. destruct value; try reflexivity. now destruct (Hno s).
  - intros value.
    assert (Hany : normalizeString trim (JStr "any") = "any")
      by (simpl; now rewrite andb_false_r).
    destruct value; try exact Hany. simpl.
    destruct (negb (trim s =? EmptyString)%string && negb (s =? "any")%string) eqn:E;
      [|exact Hany].
    simpl. now rewrite E.
Qed.
End TrimFacts.

Lemma normalize_preferences_witness :
  JStr "spicy" ∈ normalizeArray no_trim (JArr [JStr "any"; JStr "spicy"; JNum 3]).
Proof.
  destruct (normalize_preferences no_trim (JArr [JStr "any"; JStr "spicy"; JNum 3]))
    as (_ & H & _).
  destruct (H _ eq_refl) as [_ Hin].
  apply Hin; try discriminate.
  right. left.
Defined.

Lemma summary_parts_nil (p : Preferences) :
  summary_parts p = [] ->
  selectedTypes p = [] /\ selectedFlavors p = []
  /\ diningPurpose p = "any"
  /\ budgetMin p = EmptyString /\ budgetMax p = EmptyString
  /\ locationInput p = EmptyString
  /\ (location p = "any" \/ location p = EmptyString).
Proof.
  unfold summary_parts, nonempty. simpl.
  destruct (selectedTypes p); [|discriminate].
  destruct (selectedFlavors p); [|discriminate].
  destruct (String.eqb_spec (diningPurpose p) "any") as [Hd|]; [|discriminate].
  destruct (String.eqb_spec (budgetMin p) EmptyString) as [Hmin|];
    destruct (String.eqb_spec (budgetMax p) EmptyString) as [Hmax|];
    simpl; try discriminate.
  destruct (String.eqb_spec (locationInput p) EmptyString) as [Hin|]; simpl.
  - destruct (String.eqb_spec (location p) "any") as [Hl|]; simpl.
    + intros _. auto 10.
    + destruct (String.eqb_spec (location p) EmptyString) as [Hl|]; simpl;
        [|discriminate]. intros _. auto 10.
  - destruct (String.eqb_spec (locationInput p) EmptyString); [contradiction|].
    discriminate.
Qed.

Lemma summary_parts_split (p : Preferences) :
  exists types flavors purpose budget place,
    summary_parts p = types ++ flavors ++ purpose ++ budget ++ place
    /\ (types = [] <-> selectedTypes p = [])
    /\ (flavors = [] <-> selectedFlavors p = [])
    /\ (purpose = [] <-> diningPurpose p = "any")
    /\ (budget = [] <-> budgetMin p = EmptyString /\ budgetMax p = EmptyString)
    /\ (place = [] <-> locationInput p = EmptyString
                       /\ (location p = "any" \/ location p = EmptyString))
    /\ (length types <= 1 /\ length flavors <= 1 /\ length purpose <= 1
        /\ length budget <= 1 /\ length place <= 1)%nat
    /\ Forall (fun part => String.prefix "restaurant type: " part = true) types
    /\ Forall (fun part => String.prefix "flavor profile: " part = true) flavors
    /\ Forall (fun part => String.prefix "dining purpose: " part = true) purpose
    /\ Forall (fun part => String.prefix "budget: " part = true) budget
    /\ Forall (fun part => String.prefix "location: " part = true) place.
Proof.
  unfold summary_parts. eexists _, _, _, _, _. split; [reflexivity|].
  split; [|split; [|split; [|split; [|split; [|split; [|split; [|split; [|split; [|split]]]]]]]]].
  - destruct (selectedTypes p); split; try reflexivity; discriminate.
  - destruct (selectedFlavors p); split; try reflexivity; discriminate.
  - destruct (String.eqb_spec (diningPurpose p) "any"); split;
      try reflexivity; try discriminate; congruence.
  - unfold nonempty. simpl.
    destruct (String.eqb_spec (budgetMin p) EmptyString) as [Hmin|Hmin];
      destruct (String.eqb_spec (budgetMax p) EmptyString) as [Hmax|Hmax]; simpl;
      split; try discriminate; try tauto.
  - unfold nonempty. simpl.
    destruct (String.eqb_spec (locationInput p) EmptyString) as [Hin|Hin]; simpl.
    + destruct (String.eqb_spec (location p) "any") as [Hl|Hl]; simpl.
      * split; auto.
      * destruct (String.eqb_spec (location p) EmptyString) as [Hl'|Hl']; simpl.
        -- split; auto.
        -- split; [discriminate|]. intros [_ [H|H]]; contradiction.
    + destruct (String.eqb_spec (locationInput p) EmptyString); [contradiction|].
      simpl. split; [discriminate|]. intros [H _]. contradiction.
  - repeat split.
    + destruct (selectedTypes p); simpl; lia.
    + destruct (selectedFlavors p); simpl; lia.
    + destruct (String.eqb (diningPurpose p) "any"); simpl; lia.
    + destruct (nonempty (budgetMin p) && nonempty (budgetMax p)); [simpl; lia|].
      destruct (nonempty (budgetMin p)); [simpl; lia|].
      destruct (nonempty (budgetMax p)); simpl; lia.
    + destruct (nonempty _); simpl; lia.
  - destruct (selectedTypes p); constructor; [|constructor].
    apply (prefix_append "restaurant type: ").
  - destruct (selectedFlavors p); constructor; [|constructor].
    apply (prefix_append "flavor profile: ").
  - destruct (String.eqb (diningPurpose p) "any"); constructor; [|constructor].
    apply (prefix_append "dining purpose: ").
  - destruct (nonempty (budgetMin p) && nonempty (budgetMax p)).
    { constructor; [|constructor]. apply (prefix_append "budget: "). }
    destruct (nonempty (budgetMin p)).
    { constructor; [|constructor].
      apply (prefix_append "budget: "
               ("minimum " +:+ budgetMin p +:+ " SGD per person")). }
    destruct (nonempty (budgetMax p)); constructor; [|constructor].
    apply (prefix_append "budget: "
             ("maximum " +:+ budgetMax p +:+ " SGD per person")).
  - destruct (nonempty _); constructor; [|constructor].
    apply (prefix_append "location: ").
Qed.

(** X15: the summary sentence is ['I want a restaurant.'] exactly when
    nothing is chosen: no type, no flavor, purpose ['any'], no budget bound,
    no typed location and location ['any'] (or empty).  Otherwise it is
    ['I want a restaurant with '], the parts joined by [', '] and a full
    stop, where the parts are those the function collects: in this order
    and each present exactly when its choice was made, one for the types,
    one for the flavors, one for the purpose, one for the budget and one for
    the location, each starting with its label. *)
Theorem summary_plain_iff_nothing_chosen (p : Preferences) :
  (generateSummary p = "I want a restaurant."
   <-> selectedTypes p = [] /\ selectedFlavors p = []
       /\ diningPurpose p = "any"
       /\ budgetMin p = EmptyString /\ budgetMax p = EmptyString
       /\ locationInput p = EmptyString
       /\ (location p = "any" \/ location p = EmptyString))
  /\ (exists types flavors purpose budget place,
        summary_parts p = types ++ flavors ++ purpose ++ budget ++ place
        /\ (generateSummary p <> "I want a restaurant." ->
            generateSummary p
            = "I want a restaurant with "
              +:+ join ", " (types ++ flavors ++ purpose ++ budget ++ place) +:+ ".")
        /\ (types = [] <-> selectedTypes p = [])
        /\ (flavors = [] <-> selectedFlavors p = [])
        /\ (purpose = [] <-> diningPurpose p = "any")
        /\ (budget = [] <-> budgetMin p = EmptyString /\ budgetMax p = EmptyString)
        /\ (place = [] <-> locationInput p = EmptyString
                           /\ (location p = "any" \/ location p = EmptyString))
        /\ (length types <= 1 /\ length flavors <= 1 /\ length purpose <= 1
            /\ length budget <= 1 /\ length place <= 1)%nat
        /\ Forall (fun part => String.prefix "restaurant type: " part = true) types
        /\ Forall (fun part => String.prefix "flavor profile: " part = true) flavors
        /\ Forall (fun part => String.prefix "dining purpose: " part = true) purpose
        /\ Forall (fun part => String.prefix "budget: " part = true) budget
        /\ Forall (fun part => String.prefix "location: " part = true) place).
Proof.
  split.
  - split.
    + intros H. apply summary_parts_nil. unfold generateSummary in H.
      destruct (summary_parts p) as [|part rest]; [reflexivity|].
      simpl in H. discriminate.
    + intros (Ht & Hf & Hd & Hmin & Hmax & Hin & Hl).
      unfold generateSummary, summary_parts, nonempty.
      rewrite Ht, Hf, Hd, Hmin, Hmax, Hin. simpl.
      destruct Hl as [->| ->]; reflexivity.
  - destruct (summary_parts_split p)
      as (types & flavors & purpose & budget & place & E & H).
    exists types, flavors, purpose, budget, place.
    split; [exact E|]. split; [|exact H].
    intros Hne. unfold generateSummary in *. rewrite <- E.
    destruct (summary_parts p) as [|part rest]; [contradiction|reflexivity].
Qed.

Lemma summary_plain_iff_nothing_chosen_witness :
  generateSummary (mkPreferences [] [] "any" EmptyString EmptyString "any" EmptyString)
  = "I want a restaurant.".
Proof.
  apply (proj1 (summary_plain_iff_nothing_chosen
                  (mkPreferences [] [] "any" EmptyString EmptyString "any" EmptyString))).
  repeat split; try reflexivity. left. reflexivity.
Defined.

(** ** Resolution leaves what has no reference *)

Lemma oset_same (k : string) (v : json) (o : obj) :
  olookup k o = Some v -> oset k v o = o.
Proof.
  induction o as [|[k' v'] t IH]; simpl; [discriminate|].
  destruct (String.eqb_spec k' k) as [->|Hne].
  - now intros [= ->].
  - intros H. now rewrite IH.
Qed.

Lemma resolve_props_identity (spec : json) (seen : gset string) (ps : obj) :
  "__proto__" ∉ map fst ps ->
  (forall k v, (k, v) ∈ ps -> resolveSchema_in spec v seen = (v, seen)) ->
  forall props,
    resolve_props (fun x s => Some (resolveSchema_in spec x s)) ps props seen
    = Some (assign props ps).
Proof.
  induction ps as [|[k v] rest IH]; intros Hproto Hid props; simpl; [reflexivity|].
  rewrite (Hid k v) by left.
  assert (Hk : k <> "__proto__").
  { intros ->. apply Hproto. left. }
  unfold pset. rewrite (proj2 (String.eqb_neq _ _) Hk).
  rewrite IH; [reflexivity| |].
  - intros Hin. apply Hproto. now right.
  - intros k' v' Hin. apply (Hid k'). now right.
Qed.

Lemma reference_free_fixed (spec : json) (schema : json) :
  reference_free schema ->
  forall seen, resolveSchema_in spec schema seen = (schema, seen).
Proof.
  induction schema as [schema IH] using json_size_ind.
  intros Hfree seen. inversion Hfree as [v Hs|o Href Hall Hnd Hitems Hprops]; subst.
  - now apply resolveSchema_in_falsy.
  - pose proof (resolveSchema_in_unfold spec (JObj o) seen) as E.
    unfold resolve_body in E. rewrite Href, Hall in E. cbn [truthy is_object andb negb] in E.
    unfold resolve_plain in E. cbn [entries] in E.
    assert (Hi : resolve_items (fun x s => Some (resolveSchema_in spec x s)) o seen
                 = Some (o, seen)).
    { unfold resolve_items. destruct (olookup "items" o) as [it|] eqn:Hit; [|reflexivity].
      destruct (truthy it); [|reflexivity].
      rewrite (IH it); [|apply (object_child o "items"), olookup_elem, Hit|now apply Hitems].
      now rewrite (oset_same _ _ _ Hit). }
    rewrite Hi in E.
    assert (Hp : resolve_properties (fun x s => Some (resolveSchema_in spec x s)) o seen
                 = Some o).
    { unfold resolve_properties.
      destruct (olookup "properties" o) as [ps|] eqn:Hps; [|reflexivity].
      destruct (truthy ps && is_object ps) eqn:Hobj; [|reflexivity].
      destruct (Hprops ps eq_refl Hobj) as (props & -> & Hndp & Hproto & Hvals).
      cbn [entries]. rewrite resolve_props_identity.
      - rewrite assign_fresh; [|exact Hndp|intros k _ Hin; inversion Hin].
        cbn [app]. now rewrite (oset_same _ _ _ Hps).
      - exact Hproto.
      - intros k v Hin. apply IH; [|now apply (Hvals k)].
        apply olookup_elem in Hps.
        destruct (object_child o "properties" _ Hps) as [H1 _].
        destruct (object_child props k v Hin) as [H2 _]. lia. }
    rewrite Hp in E. now injection E as <-.
Qed.

(** X16: resolving a schema that has nothing to resolve returns it as it
    is and visits nothing: a schema without [$ref] strings and [allOf]
    arrays, down through [items] and the values of [properties], and
    without a property named [__proto__], is a fixed point of
    [resolveSchema] in every document and on every visited set, so resolving
    twice is resolving once on such schemas. *)
Theorem resolveSchema_identity_without_refs (spec schema : json) (seen : gset string) :
  reference_free schema ->
  resolveSchema_in spec schema seen = (schema, seen)
  /\ resolveSchema_fresh schema spec = schema
  /\ resolveSchema_fresh (resolveSchema_fresh schema spec) spec
     = resolveSchema_fresh schema spec.
Proof.
  intros Hfree.
  assert (H : resolveSchema_fresh schema spec = schema).
  { unfold resolveSchema_fresh. now rewrite reference_free_fixed. }
  split; [now apply reference_free_fixed|]. split; [exact H|]. now rewrite !H.
Qed.

Lemma resolveSchema_identity_without_refs_witness :
  resolveSchema_fresh (JObj [("type", JStr "string")]) cycle_doc
  = JObj [("type", JStr "string")].
Proof.
  apply (resolveSchema_identity_without_refs cycle_doc
           (JObj [("type", JStr "string")]) ∅).
  apply rf_object; try reflexivity.
  - apply (bool_decide_unpack _). vm_compute. exact I.
  - intros it [=].
  - intros ps [=].
Defined.



(** ** The catalog: when it is empty, when it fails, and its ids *)

Lemma ToString_or_else_none (v : json) (k : string) (d : string) :
  ToString (or_else (get v k) (JStr d)) = None <-> unconvertible v k = true.
Proof.
  unfold unconvertible, or_else, ToString.
  destruct (get v k) as [x|]; [|split; discriminate].
  destruct (truthy x); [|split; discriminate].
  destruct (stringable x); split; (discriminate || reflexivity).
Qed.

Lemma make_param_none (spec v : json) :
  make_param spec (Value v) = None
  <-> unconvertible v "name" || unconvertible v "in" = true.
Proof.
  unfold make_param. rewrite orb_true_iff.
  rewrite <- (ToString_or_else_none v "name" EmptyString).
  rewrite <- (ToString_or_else_none v "in" "query").
  destruct (ToString (or_else (get v "name") (JStr EmptyString)));
    destruct (ToString (or_else (get v "in") (JStr "query")));
    split; try discriminate; try tauto; intros [H|H]; discriminate.
Qed.

Lemma resolve_param_none (spec p : json) :
  resolve_param spec p = None <-> throwing_param spec p = true.
Proof.
  unfold resolve_param, throwing_param.
  assert (Hbad : deref_param spec p = None <-> bad_ref p = true).
  { unfold deref_param, bad_ref. destruct (get p "$ref") as [r|]; [|split; discriminate].
    destruct (truthy r) eqn:Ht; [|destruct r; split; discriminate].
    destruct r; split; try discriminate; reflexivity. }
  destruct (bad_ref p) eqn:Eb.
  - rewrite (proj2 Hbad eq_refl). split; reflexivity.
  - destruct (deref_param spec p) as [[v|owner name rest]|] eqn:E.
    + cbn [orb]. apply make_param_none.
    + split; discriminate.
    + discriminate (proj1 Hbad eq_refl).
Qed.

Lemma map_params_none (spec : json) (raw : list json) :
  map_params spec raw = None -> exists p, p ∈ raw /\ throwing_param spec p = true.
Proof.
  induction raw as [|p rest IH]; simpl; [discriminate|].
  destruct (resolve_param spec p) as [q|] eqn:E.
  - destruct (map_params spec rest); [discriminate|].
    intros _. destruct (IH eq_refl) as (q' & Hin & Hq). exists q'. split; [now right|auto].
  - intros _. exists p. split; [left|now apply resolve_param_none].
Qed.

Lemma collect_methods_none (spec : json) (path : string) (pathItem : json)
    (shared : list json) (methods : list string) :
  collect_methods spec path pathItem shared methods = None ->
  exists method op p,
    method ∈ methods /\ get pathItem method = Some op
    /\ p ∈ shared ++ array_or_nil (get op "parameters")
    /\ throwing_param spec p = true.
Proof.
  induction methods as [|method rest IH]; simpl; [discriminate|].
  assert (Hrest : collect_methods spec path pathItem shared rest = None ->
                  exists method0 op p,
                    method0 ∈ method :: rest /\ get pathItem method0 = Some op
                    /\ p ∈ shared ++ array_or_nil (get op "parameters")
                    /\ throwing_param spec p = true).
  { intros H. destruct (IH H) as (m & op & p & Hm & Hrest).
    exists m, op, p. split; [now right|exact Hrest]. }
  destruct (get pathItem method) as [op|] eqn:Hget; [|exact Hrest].
  destruct (truthy op && is_object op); [|exact Hrest].
  destruct (map_params spec _) as [resolved|] eqn:E.
  - destruct (collect_methods spec path pathItem shared rest); [discriminate|].
    intros _. now apply Hrest.
  - intros _. destruct (map_params_none _ _ E) as (p & Hin & Hp).
    exists method, op, p. split; [left|auto].
Qed.

Lemma collect_paths_none (spec : json) (paths : obj) :
  collect_paths spec paths = None ->
  exists path pathItem method op p,
    (path, pathItem) ∈ paths /\ method ∈ http_methods
    /\ get pathItem method = Some op
    /\ p ∈ array_or_nil (get pathItem "parameters") ++ array_or_nil (get op "parameters")
    /\ throwing_param spec p = true.
Proof.
  induction paths as [|[path pathItem] rest IH]; cbn [collect_paths]; [discriminate|].
  assert (Hrest : collect_paths spec rest = None ->
                  exists path0 pathItem0 method op p,
                    (path0, pathItem0) ∈ (path, pathItem) :: rest
                    /\ method ∈ http_methods
                    /\ get pathItem0 method = Some op
                    /\ p ∈ array_or_nil (get pathItem0 "parameters")
                           ++ array_or_nil (get op "parameters")
                    /\ throwing_param spec p = true).
  { intros H. destruct (IH H) as (p0 & pi & m & op & p & Hin & Hr).
    exists p0, pi, m, op, p. split; [now right|exact Hr]. }
  destruct (truthy pathItem && is_object pathItem); [|exact Hrest].
  destruct (collect_methods spec path pathItem _ http_methods) as [ops|] eqn:E.
  - destruct (collect_paths spec rest); [discriminate|]. intros _. now apply Hrest.
  - intros _. destruct (collect_methods_none _ _ _ _ _ E) as (m & op & p & Hm & Hr).
    exists path, pathItem, m, op, p. split; [left|auto].
Qed.

(** X18: a document whose [paths] is missing or is no object has the empty
    catalog, not an error.  Building the catalog throws only when, for some
    parameter of some operation, shared or its own, the callback that
    resolves it throws: the parameter's [$ref] is truthy and not a string,
    or the [name] or the [in] of the parameter object it stands for is
    truthy and does not convert to text; so a document free of such
    parameters always has a catalog.  (Stated for documents whose pointers
    the model follows to their end.) *)
Theorem catalog_fails_only_on_throwing_param (localeCompare : string -> string -> Z)
    (spec : json) :
  (get spec "paths" = None -> buildApiOperations localeCompare spec = Some [])
  /\ (forall paths, get spec "paths" = Some paths ->
        truthy paths && is_object paths = false ->
        buildApiOperations localeCompare spec = Some [])
  /\ (pointers_followed spec JNull ->
      (buildApiOperations localeCompare spec = None ->
       exists paths path pathItem method op p,
         get spec "paths" = Some paths
         /\ (path, pathItem) ∈ entries paths /\ method ∈ http_methods
         /\ get pathItem method = Some op
         /\ p ∈ array_or_nil (get pathItem "parameters")
                ++ array_or_nil (get op "parameters")
         /\ throwing_param spec p = true)
      /\ ((forall paths path pathItem method op p,
             get spec "paths" = Some paths ->
             (path, pathItem) ∈ entries paths -> get pathItem method = Some op ->
             p ∈ array_or_nil (get pathItem "parameters")
                 ++ array_or_nil (get op "parameters") ->
             throwing_param spec p = false) ->
          exists out, buildApiOperations localeCompare spec = Some out))
  /\ (forall p, throwing_param spec p = true ->
        (exists r, get p "$ref" = Some r /\ truthy r = true
                   /\ forall s, r <> JStr s)
        \/ (exists v k x, deref_param spec p = Some (Value v)
                          /\ (k = "name" \/ k = "in")
                          /\ get v k = Some x /\ truthy x = true
                          /\ stringable x = false)).
Proof.
  assert (Hnone : buildApiOperations localeCompare spec = None ->
      exists paths path pathItem method op p,
        get spec "paths" = Some paths
        /\ (path, pathItem) ∈ entries paths /\ method ∈ http_methods
        /\ get pathItem method = Some op
        /\ p ∈ array_or_nil (get pathItem "parameters")
               ++ array_or_nil (get op "parameters")
        /\ throwing_param spec p = true).
  { unfold buildApiOperations.
    destruct (get spec "paths") as [paths|]; [|discriminate].
    destruct (truthy paths && is_object paths); [|discriminate].
    destruct (collect_paths spec (entries paths)) as [found|] eqn:E; [discriminate|].
    intros _.
    destruct (collect_paths_none _ _ E) as (path & pi & m & op & p & Hr).
    exists paths, path, pi, m, op, p. split; [reflexivity|exact Hr]. }
  split; [|split; [|split]].
  - intros H. unfold buildApiOperations. now rewrite H.
  - intros paths H Hobj. unfold buildApiOperations. now rewrite H, Hobj.
  - intros _. split; [exact Hnone|].
    intros Hgood.
    destruct (buildApiOperations localeCompare spec) as [out|] eqn:E; [eauto|].
    destruct (Hnone eq_refl)
      as (paths & path & pi & m & op & p & Hp & Hin & _ & Hg & Hpin & Hbad).
    rewrite (Hgood paths path pi m op p Hp Hin Hg Hpin) in Hbad. discriminate.
  - intros p. unfold throwing_param. rewrite orb_true_iff. intros [Hbad|Hconv].
    + left. unfold bad_ref in Hbad. destruct (get p "$ref") as [r|]; [|discriminate].
      exists r. split; [reflexivity|].
      destruct r; try discriminate; (split; [exact Hbad|discriminate]).
    + right. destruct (deref_param spec p) as [[v|]|]; try discriminate.
      apply orb_true_iff in Hconv as [H|H]; unfold unconvertible in H;
        [exists v, "name"|exists v, "in"];
        (destruct (get v _) as [x|]; [|discriminate]);
        apply andb_true_iff in H as [Ht Hs]; apply negb_true_iff in Hs;
        exists x; auto 10.
Qed.

Lemma catalog_fails_only_on_throwing_param_witness :
  exists out, buildApiOperations code_compare sorting_doc = Some out.
Proof.
  assert (Hfollowed : pointers_followed sorting_doc JNull).
  { apply (bool_decide_unpack _). vm_compute. exact I. }
  destruct (catalog_fails_only_on_throwing_param code_compare sorting_doc)
    as (_ & _ & H & _).
  apply (proj2 (H Hfollowed)).
  intros paths path pathItem method op p Hp Hin Hget Hpin.
  injection Hp as <-. cbn [entries] in Hin.
  apply elem_of_cons in Hin as [Hin|Hin];
    [|apply elem_of_cons in Hin as [Hin|Hin]; [|inversion Hin]];
    injection Hin as -> ->; cbn [get olookup] in Hget.
  - destruct (String.eqb "get" method); [|discriminate].
    injection Hget as <-. inversion Hpin.
  - destruct (String.eqb "post" method).
    + injection Hget as <-. inversion Hpin.
    + destruct (String.eqb "get" method); [|discriminate].
      injection Hget as <-. inversion Hpin.
Defined.

Lemma operation_id_inj (m1 m2 p1 p2 : string) :
  m1 ∈ http_methods -> m2 ∈ http_methods ->
  toUpperCase m1 +:+ " " +:+ p1 = toUpperCase m2 +:+ " " +:+ p2 ->
  m1 = m2 /\ p1 = p2.
Proof.
  intros H1 H2.
  repeat (apply elem_of_cons in H1 as [->|H1]); [..|inversion H1];
    repeat (apply elem_of_cons in H2 as [->|H2]); try (inversion H2; fail);
    vm_compute; intros H; inversion H; auto.
Qed.

Lemma collect_methods_ids (spec : json) (path : string) (pathItem : json)
    (shared : list json) (methods : list string) :
  forall found,
    collect_methods spec path pathItem shared methods = Some found ->
    map op_id found
    `sublist_of` map (fun m => toUpperCase m +:+ " " +:+ path) methods.
Proof.
  induction methods as [|method rest IH]; simpl; intros found Hc.
  - injection Hc as <-. constructor.
  - destruct (get pathItem method) as [op|].
    + destruct (truthy op && is_object op).
      * destruct (map_params spec _); [|discriminate].
        destruct (collect_methods spec path pathItem shared rest) as [ops|];
          [|discriminate].
        injection Hc as <-. simpl. apply sublist_skip. now apply IH.
      * apply sublist_cons. now apply IH.
    + apply sublist_cons. now apply IH.
Qed.

Lemma collect_paths_ids (spec : json) (paths : obj) :
  NoDup (map fst paths) ->
  forall found, collect_paths spec paths = Some found -> NoDup (map op_id found).
Proof.
  induction paths as [|[path pathItem] rest IH]; cbn [collect_paths];
    intros Hnd found Hc.
  - injection Hc as <-. constructor.
  - inversion Hnd as [|? ? Hfresh Hnd']; subst.
    destruct (truthy pathItem && is_object pathItem); [|now apply IH].
    destruct (collect_methods spec path pathItem _ http_methods) as [ops|] eqn:E;
      [|discriminate].
    destruct (collect_paths spec rest) as [more|] eqn:E'; [|discriminate].
    injection Hc as <-. rewrite map_app. apply NoDup_app. split; [|split].
    + eapply sublist_NoDup; [|eapply collect_methods_ids, E].
      apply NoDup_fmap_2_strong.
      * intros m1 m2 H1 H2 Heq. now destruct (operation_id_inj _ _ _ _ H1 H2 Heq).
      * apply (bool_decide_unpack _). vm_compute. exact I.
    + intros id Hid Hid'.
      apply list_elem_of_In, in_map_iff in Hid as (o1 & <- & Ho1).
      apply list_elem_of_In, in_map_iff in Hid' as (o2 & Heq & Ho2).
      apply list_elem_of_In in Ho1, Ho2.
      destruct (collect_methods_make _ _ _ _ _ _ _ E Ho1) as (m1 & op1 & ps1 & -> & Hm1 & _).
      destruct (collect_paths_make _ _ _ _ E' Ho2)
        as (m2 & p2 & pi2 & op2 & ps2 & -> & Hm2 & Hp2 & _).
      cbn [op_id make_operation] in Heq.
      destruct (operation_id_inj _ _ _ _ Hm2 Hm1 Heq) as [_ ->].
      apply Hfresh. apply list_elem_of_In, in_map_iff.
      exists (path, pi2). split; [reflexivity|now apply list_elem_of_In].
    + now apply IH.
Qed.

Lemma NoDup_map_inj {A B : Type} (f : A -> B) (l : list A) (x y : A) :
  NoDup (map f l) -> x ∈ l -> y ∈ l -> f x = f y -> x = y.
Proof.
  induction l as [|a t IH]; simpl; intros Hnd Hx Hy Heq; [inversion Hx|].
  inversion Hnd as [|? ? Ha Hnd']; subst.
  apply elem_of_cons in Hx as [->|Hx]; apply elem_of_cons in Hy as [->|Hy]; auto.
  - exfalso. apply Ha. rewrite Heq.
    apply list_elem_of_In, in_map, list_elem_of_In, Hy.
  - exfalso. apply Ha. rewrite <- Heq.
    apply list_elem_of_In, in_map, list_elem_of_In, Hx.
Qed.

(** X19: the operations of a catalog have pairwise distinct ids (the paths
    of a document being distinct keys), each id being the upper-cased method,
    a space and the path; so selecting an operation by its id selects that
    very operation. *)
Theorem catalog_ids_distinct (localeCompare : string -> string -> Z) (spec : json)
    (paths : json) (out : list ApiOperation) :
  get spec "paths" = Some paths ->
  NoDup (map fst (entries paths)) ->
  buildApiOperations localeCompare spec = Some out ->
  NoDup (map op_id out)
  /\ Forall (fun o => op_id o = op_method o +:+ " " +:+ op_path o) out
  /\ (forall o, o ∈ out -> selectedApiOp out (op_id o) = Some o).
Proof.
  intros Hp Hnd Hout.
  assert (Hids : NoDup (map op_id out)).
  { rewrite buildApiOperations_collect in Hout. unfold collect_all in Hout.
    rewrite Hp in Hout.
    destruct (truthy paths && is_object paths).
    - destruct (collect_paths spec (entries paths)) as [found|] eqn:E; [|discriminate].
      injection Hout as <-.
      rewrite (sort_by_perm (compare_ops localeCompare) found).
      now apply (collect_paths_ids spec (entries paths)).
    - injection Hout as <-. constructor. }
  split; [exact Hids|]. split.
  - apply Forall_forall. intros o Hin.
    destruct (catalog_make _ _ _ _ Hout Hin) as (m & p & op & ps & -> & _).
    reflexivity.
  - intros o Hin. unfold selectedApiOp.
    destruct (List.find (fun op => String.eqb (op_id op) (op_id o)) out)
      as [found|] eqn:E.
    + apply find_some in E as [Hf Heq]. apply String.eqb_eq in Heq.
      apply list_elem_of_In in Hf. f_equal.
      now apply (NoDup_map_inj op_id out found o Hids).
    + pose proof (find_none _ _ E o) as Hn. cbn beta in Hn.
      rewrite String.eqb_refl in Hn. discriminate Hn. now apply list_elem_of_In.
Qed.

Lemma catalog_ids_distinct_witness :
  exists out,
    buildApiOperations code_compare sorting_doc = Some out
    /\ NoDup (map op_id out).
Proof.
  destruct (buildApiOperations code_compare sorting_doc) as [out|] eqn:E;
    [|vm_compute in E; discriminate].
  exists out. split; [reflexivity|].
  apply (catalog_ids_distinct code_compare sorting_doc
           (JObj [("/b", JObj [("get", JObj [])]);
                  ("/a", JObj [("post", JObj []); ("get", JObj [])])]) out).
  - reflexivity.
  - apply (bool_decide_unpack _). vm_compute. exact I.
  - exact E.
Defined.

(** ** The parameters of an operation *)

Lemma map_params_app (spec : json) (a b : list json) :
  map_params spec (a ++ b)
  = match map_params spec a, map_params spec b with
    | Some pa, Some pb => Some (pa ++ pb)
    | _, _ => None
    end.
Proof.
  induction a as [|p rest IH]; simpl.
  - now destruct (map_params spec b).
  - destruct (resolve_param spec p) as [q|]; [|reflexivity].
    rewrite IH. destruct (map_params spec rest), (map_params spec b); reflexivity.
Qed.

Lemma map_params_each (spec : json) (raw : list json) (ps : list ApiOperationParam) :
  map_params spec raw = Some ps ->
  Forall2 (fun p q => resolve_param spec p = Some q) raw ps.
Proof.
  revert ps. induction raw as [|p rest IH]; simpl; intros ps.
  - intros [= <-]. constructor.
  - destruct (resolve_param spec p) as [q|] eqn:E; [|discriminate].
    destruct (map_params spec rest) as [qs|]; [|discriminate].
    intros [= <-]. constructor; auto.
Qed.

(** X20: the parameters of an operation of the catalog come from the
    parameters shared by its path in the document followed by those of its
    own object, one resolved parameter for each, in their order and without
    removing a repeated name; of these only the parameters whose name comes
    out empty are dropped, so none has an empty name.  A parameter object
    that is no reference has the text of its [name], counts as a query
    parameter without [in], and as optional without [required].  (Stated
    for documents whose pointers the model follows to their end.) *)
Theorem operation_parameters_merge (localeCompare : string -> string -> Z)
    (spec : json) (out : list ApiOperation) (o : ApiOperation) :
  buildApiOperations localeCompare spec = Some out ->
  o ∈ out ->
  pointers_followed spec JNull ->
  (exists paths path pathItem method op from_shared own,
     get spec "paths" = Some paths
     /\ (path, pathItem) ∈ entries paths
     /\ method ∈ http_methods
     /\ get pathItem method = Some op
     /\ op_path o = path
     /\ op_method o = toUpperCase method
     /\ Forall2 (fun p q => resolve_param spec p = Some q)
          (array_or_nil (get pathItem "parameters")) from_shared
     /\ Forall2 (fun p q => resolve_param spec p = Some q)
          (array_or_nil (get op "parameters")) own
     /\ op_parameters o = filter named from_shared ++ filter named own)
  /\ Forall (fun p => p_name p <> EmptyString) (op_parameters o)
  /\ (forall p q, get p "$ref" = None -> resolve_param spec p = Some q ->
        (forall s, get p "name" = Some (JStr s) -> p_name q = s)
        /\ (get p "name" = None -> p_name q = EmptyString)
        /\ (get p "in" = None -> p_in q = "query")
        /\ (get p "required" = None -> p_required q = false)).
Proof.
  intros Hout Hin _.
  destruct (catalog_origin _ _ _ _ Hout Hin)
    as (paths & path & pathItem & method & op & resolved
        & Hpaths & _ & Hpath & _ & Hm & Hget & _ & Hmap & ->).
  rewrite map_params_app in Hmap.
  destruct (map_params spec (array_or_nil (get pathItem "parameters")))
    as [pa|] eqn:Ea; [|discriminate].
  destruct (map_params spec (array_or_nil (get op "parameters")))
    as [pb|] eqn:Eb; [|discriminate].
  injection Hmap as <-.
  split; [|split].
  - exists paths, path, pathItem, method, op, pa, pb.
    split; [exact Hpaths|]. split; [exact Hpath|]. split; [exact Hm|].
    split; [exact Hget|]. split; [reflexivity|]. split; [reflexivity|].
    split; [now apply map_params_each|]. split; [now apply map_params_each|].
    cbn [op_parameters make_operation]. now rewrite filter_app.
  - cbn [op_parameters make_operation]. apply Forall_forall. intros p Hp.
    apply list_elem_of_filter in Hp as [Hn _]. simpl in Hn.
    apply negb_true_iff, String.eqb_neq in Hn. exact Hn.
  - intros p q Href. unfold resolve_param, deref_param. rewrite Href.
    unfold make_param, ToString.
    destruct (stringable (or_else (get p "name") (JStr EmptyString))); [|discriminate].
    destruct (stringable (or_else (get p "in") (JStr "query"))); [|discriminate].
    intros [= <-]. cbn [p_name p_in p_required].
    split; [|split; [|split]].
    + intros s0 ->. cbn [or_else truthy].
      destruct (String.eqb_spec s0 EmptyString) as [->|]; reflexivity.
    + now intros ->.
    + now intros ->.
    + now intros ->.
Qed.

Lemma operation_parameters_merge_witness :
  exists out o,
    buildApiOperations code_compare params_doc = Some out
    /\ o ∈ out
    /\ map p_name (op_parameters o) = ["id"; "q"]
    /\ exists from_shared own,
         op_parameters o = filter named from_shared ++ filter named own
         /\ length from_shared = 1%nat /\ length own = 2%nat.
Proof.
  destruct (buildApiOperations code_compare params_doc) as [[|o rest]|] eqn:E;
    try (vm_compute in E; discriminate).
  exists (o :: rest), o.
  assert (Hin : o ∈ o :: rest) by (apply elem_of_cons; now left).
  assert (Hfollowed : pointers_followed params_doc JNull).
  { apply (bool_decide_unpack _). vm_compute. exact I. }
  split; [reflexivity|]. split; [exact Hin|].
  destruct (operation_parameters_merge code_compare params_doc (o :: rest) o
              E Hin Hfollowed)
    as ((paths & path & pathItem & method & op & from_shared & own
         & Hpaths & Hpath & Hm & Hget & Hp & Hmeth & Hs & Ho & Hps) & _).
  assert (E' := E). vm_compute in E'. injection E' as Ho' _.
  split; [now rewrite <- Ho'|].
  exists from_shared, own. split; [exact Hps|].
  injection Hpaths as <-. cbn [entries] in Hpath.
  apply list_elem_of_singleton in Hpath. injection Hpath as -> ->.
  rewrite <- Ho' in Hmeth. cbn [op_method] in Hmeth.
  assert (method = "get") as ->.
  { repeat (apply elem_of_cons in Hm as [->|Hm]; [try discriminate; try reflexivity|]).
    inversion Hm. }
  cbn [get olookup String.eqb Ascii.eqb Bool.eqb] in Hget. injection Hget as <-.
  apply Forall2_length in Hs, Ho. split; [now rewrite <- Hs|now rewrite <- Ho].
Defined.

(** ** Pointers built from segments *)

Lemma split_on_segment (p : string) :
  no_slash p = true -> split_on "/" p = [p].
Proof.
  induction p as [|c p IH]; [reflexivity|].
  cbn [no_slash split_on]. intros H. apply andb_true_iff in H as [Hc Hp].
  apply negb_true_iff in Hc. rewrite Hc, (IH Hp). reflexivity.
Qed.

Lemma split_on_segment_app (p rest : string) :
  no_slash p = true ->
  split_on "/" (p +:+ String "/" rest) = p :: split_on "/" rest.
Proof.
  induction p as [|c p IH]; intros H.
  - reflexivity.
  - cbn [no_slash] in H. apply andb_true_iff in H as [Hc Hp].
    apply negb_true_iff in Hc.
    change (String c p +:+ String "/" rest) with (String c (p +:+ String "/" rest)).
    cbn [split_on]. rewrite Hc, (IH Hp). reflexivity.
Qed.

Lemma split_on_join (parts : list string) :
  parts <> [] ->
  Forall (fun p => no_slash p = true) parts ->
  split_on "/" (join "/" parts) = parts.
Proof.
  induction parts as [|p [|q rest] IH]; intros Hne Hall; [congruence| |].
  - apply Forall_cons in Hall as [Hp _]. simpl. now apply split_on_segment.
  - apply Forall_cons in Hall as [Hp Hrest].
    rewrite join_cons.
    change (p +:+ "/" +:+ join "/" (q :: rest))
      with (p +:+ String "/" (join "/" (q :: rest))).
    rewrite (split_on_segment_app _ _ Hp), IH; [reflexivity|discriminate|exact Hrest].
Qed.

Lemma split_on_segments (s : string) :
  Forall (fun p => no_slash p = true) (split_on "/" s).
Proof.
  induction s as [|c s IH]; [repeat constructor|].
  cbn [split_on]. destruct (Ascii.eqb c "/") eqn:Ec.
  - constructor; [reflexivity|exact IH].
  - destruct (split_on "/" s) as [|p ps].
    + constructor; [|constructor]. cbn [no_slash]. now rewrite Ec.
    + apply Forall_cons in IH as [Hp Hps]. constructor; [|exact Hps].
      cbn [no_slash]. now rewrite Ec, Hp.
Qed.

Lemma prefix_hash_slash (s : string) :
  String.prefix "#/" (String "#" (String "/" s)) = true.
Proof.
  cbn [String.prefix].
  destruct (ascii_dec "#" "#"); [|congruence].
  destruct (ascii_dec "/" "/"); [now destruct s|congruence].
Qed.

(** X21: the pointer made of [#/] and segments joined by [/] is walked
    segment by segment, as long as there is a segment and none holds a [/]:
    it reaches the value found by indexing the document with the segments in
    turn when every segment is an own property on the way.  The pointer is
    only split, never unescaped: in an object all of whose property names
    hold a [/], no pointer reaches a value of the document. *)
Theorem pointer_of_segments (parts : list string) (spec : json) :
  parts <> [] ->
  Forall (fun p => no_slash p = true) parts ->
  resolveRef ("#/" +:+ join "/" parts) spec = walk parts spec
  /\ (forall v, index_path parts spec = Some v ->
        resolveRef ("#/" +:+ join "/" parts) spec = Value v)
  /\ (forall ref o v,
        spec = JObj o ->
        Forall (fun kv => no_slash (fst kv) = false) o ->
        resolveRef ref spec = Value v -> v = JNull).
Proof.
  intros Hne Hall.
  assert (E : resolveRef ("#/" +:+ join "/" parts) spec = walk parts spec).
  { unfold resolveRef.
    change ("#/" +:+ join "/" parts) with (String "#" (String "/" (join "/" parts))).
    rewrite prefix_hash_slash.
    cbn [slice_from]. now rewrite (split_on_join _ Hne Hall). }
  split; [exact E|]. split.
  - intros v Hv. rewrite E. now apply walk_own.
  - intros ref o v -> Hkeys. unfold resolveRef.
    destruct (String.prefix "#/" ref); [|now intros [= <-]].
    pose proof (split_on_segments (slice_from 2 ref)) as Hsegs.
    destruct (split_on_cons "/" (slice_from 2 ref)) as (p & ps & Es).
    rewrite Es in Hsegs |- *. cbn [walk].
    apply Forall_cons in Hsegs as [Hp _].
    destruct (get (JObj o) p) as [x|] eqn:Eg.
    + simpl in Eg. apply olookup_elem in Eg.
      rewrite Forall_forall in Hkeys. specialize (Hkeys _ Eg). simpl in Hkeys.
      congruence.
    + destruct (inherits (JObj o) p); [discriminate|now intros [= <-]].
Qed.

Lemma pointer_of_segments_witness :
  resolveRef ("#/" +:+ join "/" ["A"; "x"]) one_schema_doc = Value (JNum 1).
Proof.
  assert (Hne : ["A"; "x"] <> []) by discriminate.
  assert (Hall : Forall (fun p => no_slash p = true) ["A"; "x"])
    by (repeat constructor).
  apply (proj1 (proj2 (pointer_of_segments ["A"; "x"] one_schema_doc Hne Hall))).
  reflexivity.
Defined.
